(** * Agent Workflow Planner: planner, validator, layout and diagram export

    A shallow embedding of
      - [lib/planner.ts]  (planFromDescription and its helpers),
      - [lib/spec.ts]     (the plan data model and validatePlan),
      - [lib/layout.ts]   (planToReactFlow),
      - [lib/mermaid.ts]  (planToMermaid, planToSequenceDiagram),
    followed by the properties proved about them.

    Modelling conventions.
      - A JavaScript string is a [string]: a sequence of 8-bit code units.
        The built-in string functions are modelled on that range
        ([\s] is TAB, LF, VT, FF, CR, SPACE and NBSP; [\w] is [A-Za-z0-9_];
        lower-casing maps A-Z and the Latin-1 capitals).  Upper-casing is
        exact except for U+00B5 and U+00FF, whose capitals lie outside the
        range and which are left unchanged; only [capitalize] uses it.
      - JavaScript numbers that hold integers (indices, in-degrees, levels,
        pixel coordinates) are [Z] or [nat]: exact where the numbers are
        safe integers, which is where the statements about them apply.
      - A [Map] or [Set] whose iteration order is never observed is a [gmap]
        or [gset]; one whose iteration order is observed (the id set walked
        by the cycle check, the level groups walked by the layout) is a list
        in insertion order.
      - Loops that the source bounds only dynamically (the depth-first
        search, the layout queue, the regular expression scans) take a fuel
        argument; the callers pass a bound and the totality lemmas show it is
        never exhausted.  Call-stack limits of the engine are not modelled. *)

From stdpp Require Import base numbers option list strings gmap pretty.
From Stdlib Require Import Ascii String ZArith Lia.

#[local] Set Warnings "-clear-no-such-hyp".

(* ===================================================================== *)
(** ** JavaScript string primitives *)
(* ===================================================================== *)

Module Js.

Definition code (c : ascii) : nat := nat_of_ascii c.

Definition in_range (lo hi : nat) (c : ascii) : bool :=
  Nat.leb lo (code c) && Nat.leb (code c) hi.

Definition is_upper (c : ascii) : bool := in_range 65 90 c.
Definition is_lower (c : ascii) : bool := in_range 97 122 c.
Definition is_digit (c : ascii) : bool := in_range 48 57 c.

(** [\w] *)
Definition is_word (c : ascii) : bool :=
  is_upper c || is_lower c || is_digit c || Nat.eqb (code c) 95.

(** [\s], also the characters removed by [trim] *)
Definition is_ws (c : ascii) : bool :=
  in_range 9 13 c || Nat.eqb (code c) 32 || Nat.eqb (code c) 160.

(** [.] matches everything but a line terminator *)
Definition is_dot (c : ascii) : bool :=
  negb (Nat.eqb (code c) 10 || Nat.eqb (code c) 13).

Definition lower_char (c : ascii) : ascii :=
  if is_upper c || (in_range 192 222 c && negb (Nat.eqb (code c) 215))
  then ascii_of_nat (code c + 32) else c.

Definition upper_char (c : ascii) : ascii :=
  if is_lower c || (in_range 224 254 c && negb (Nat.eqb (code c) 247))
  then ascii_of_nat (code c - 32) else c.

Fixpoint toLowerCase (s : string) : string :=
  match s with
  | EmptyString => EmptyString
  | String c s' => String (lower_char c) (toLowerCase s')
  end.

(** U+00DF upper-cases to the two letters SS. *)
Fixpoint toUpperCase (s : string) : string :=
  match s with
  | EmptyString => EmptyString
  | String c s' =>
      if Nat.eqb (code c) 223 then String "S" (String "S" (toUpperCase s'))
      else String (upper_char c) (toUpperCase s')
  end.

Fixpoint startsWith (p s : string) : bool :=
  match p, s with
  | EmptyString, _ => true
  | String a p', String b s' => if Ascii.eqb a b then startsWith p' s' else false
  | String _ _, EmptyString => false
  end.

Fixpoint includes (s needle : string) : bool :=
  startsWith needle s ||
  match s with
  | EmptyString => false
  | String _ s' => includes s' needle
  end.

Fixpoint trimStart (s : string) : string :=
  match s with
  | String c s' => if is_ws c then trimStart s' else s
  | EmptyString => EmptyString
  end.

Fixpoint trimEnd (s : string) : string :=
  match s with
  | EmptyString => EmptyString
  | String c s' =>
      match trimEnd s' with
      | EmptyString => if is_ws c then EmptyString else String c EmptyString
      | t => String c t
      end
  end.

Definition trim (s : string) : string := trimEnd (trimStart s).

Fixpoint take (n : nat) (s : string) : string :=
  match n, s with
  | S n', String c s' => String c (take n' s')
  | _, _ => EmptyString
  end.

(** [s.substring(0, n)] *)
Definition substring0 (n : nat) (s : string) : string := take n s.

(** [s.charAt(0)] *)
Definition charAt0 (s : string) : string := take 1 s.

(** [s.slice(1)] *)
Definition slice1 (s : string) : string :=
  match s with
  | EmptyString => EmptyString
  | String _ s' => s'
  end.

(** [parts.join(sep)] *)
Fixpoint join (sep : string) (parts : list string) : string :=
  match parts with
  | [] => EmptyString
  | [p] => p
  | p :: rest => p +:+ sep +:+ join sep rest
  end.

(** A string used as a condition: the empty string is falsy. *)
Definition truthy (s : string) : bool :=
  match s with EmptyString => false | _ => true end.

(** [a || b] on strings *)
Definition orElse (a b : string) : string := if truthy a then a else b.

End Js.

(* ===================================================================== *)
(** ** Regular expressions *)
(* ===================================================================== *)

(** The fragment of the pattern language used by the sources, matched with
    the backtracking (continuation) semantics of the language definition:
    alternatives are tried left to right and a quantifier is greedy. *)

Module Regex.

Inductive regex : Type :=
| Chr (c : ascii)                  (* a pattern character *)
| Cls (p : ascii -> bool)          (* a character class *)
| Star (p : ascii -> bool)         (* class*, greedy *)
| Plus (p : ascii -> bool)         (* class+, greedy *)
| Seq (r1 r2 : regex)
| Alt (r1 r2 : regex)
| WordB                            (* \b *)
| End_                             (* $ *)
| Eps.

Fixpoint Lit (s : string) : regex :=
  match s with
  | EmptyString => Eps
  | String c EmptyString => Chr c
  | String c s' => Seq (Chr c) (Lit s')
  end.

Fixpoint Seqs (rs : list regex) : regex :=
  match rs with
  | [] => Eps
  | [r] => r
  | r :: rs' => Seq r (Seqs rs')
  end.

Fixpoint Alts (rs : list regex) : regex :=
  match rs with
  | [] => Eps
  | [r] => r
  | r :: rs' => Alt r (Alts rs')
  end.

(** Character comparison; [ci] is the [i] flag. *)
Definition char_eq (ci : bool) (a b : ascii) : bool :=
  if ci then Ascii.eqb (Js.upper_char a) (Js.upper_char b) else Ascii.eqb a b.

Definition is_word_opt (o : option ascii) : bool :=
  match o with Some c => Js.is_word c | None => false end.

Definition head (s : string) : option ascii :=
  match s with String c _ => Some c | EmptyString => None end.

Section Matcher.
Context {A : Type}.

(** The continuation receives the last character consumed so far (for
    [\b]) and the rest of the input. *)
Definition cont := option ascii -> string -> option A.

Fixpoint star (p : ascii -> bool) (prev : option ascii) (s : string)
    (k : cont) : option A :=
  match s with
  | String c s' =>
      if p c then
        match star p (Some c) s' k with
        | Some a => Some a
        | None => k prev s
        end
      else k prev s
  | EmptyString => k prev s
  end.

Fixpoint rmatch (ci : bool) (r : regex) (prev : option ascii) (s : string)
    (k : cont) : option A :=
  match r with
  | Chr c =>
      match s with
      | String d s' => if char_eq ci c d then k (Some d) s' else None
      | EmptyString => None
      end
  | Cls p =>
      match s with
      | String d s' => if p d then k (Some d) s' else None
      | EmptyString => None
      end
  | Star p => star p prev s k
  | Plus p =>
      match s with
      | String d s' => if p d then star p (Some d) s' k else None
      | EmptyString => None
      end
  | Seq r1 r2 => rmatch ci r1 prev s (fun prev' s' => rmatch ci r2 prev' s' k)
  | Alt r1 r2 =>
      match rmatch ci r1 prev s k with
      | Some a => Some a
      | None => rmatch ci r2 prev s k
      end
  | WordB =>
      if xorb (is_word_opt prev) (is_word_opt (head s)) then k prev s else None
  | End_ => match s with EmptyString => k prev s | _ => None end
  | Eps => k prev s
  end.
End Matcher.

(** One match attempt at the current position: the last character consumed
    and the input left after the match. *)
Definition exec (ci : bool) (r : regex) (prev : option ascii) (s : string)
    : option (option ascii * string) :=
  rmatch ci r prev s (fun p rest => Some (p, rest)).

(** [r.test(s)]: a match at some position, the end of input included. *)
Fixpoint test_from (ci : bool) (r : regex) (prev : option ascii) (s : string)
    : bool :=
  match exec ci r prev s with
  | Some _ => true
  | None =>
      match s with
      | String c s' => test_from ci r (Some c) s'
      | EmptyString => false
      end
  end.

Definition test (ci : bool) (r : regex) (s : string) : bool :=
  test_from ci r None s.

(** [s.replace(r, repl)] with the [g] flag.  After a match the scan resumes
    where the match ended; after an empty match it copies one character. *)
Fixpoint replaceAll_go (fuel : nat) (ci : bool) (r : regex) (repl : string)
    (prev : option ascii) (s : string) : string :=
  match fuel with
  | O => s
  | S f =>
      match exec ci r prev s with
      | Some (prev', rest) =>
          if Nat.ltb (String.length rest) (String.length s)
          then repl +:+ replaceAll_go f ci r repl prev' rest
          else
            match s with
            | String c s' =>
                repl +:+ String c (replaceAll_go f ci r repl (Some c) s')
            | EmptyString => repl
            end
      | None =>
          match s with
          | String c s' => String c (replaceAll_go f ci r repl (Some c) s')
          | EmptyString => EmptyString
          end
      end
  end.

Definition replaceAll (ci : bool) (r : regex) (repl s : string) : string :=
  replaceAll_go (S (String.length s)) ci r repl None s.

(** [s.replace(r, repl)] without the [g] flag: the first match only. *)
Fixpoint replaceFirst_from (ci : bool) (r : regex) (repl : string)
    (prev : option ascii) (s : string) : string :=
  match exec ci r prev s with
  | Some (_, rest) => repl +:+ rest
  | None =>
      match s with
      | String c s' => String c (replaceFirst_from ci r repl (Some c) s')
      | EmptyString => EmptyString
      end
  end.

Definition replaceFirst (ci : bool) (r : regex) (repl s : string) : string :=
  replaceFirst_from ci r repl None s.

(** [s.split(r)].  [cur] holds the characters since the last cut, in
    reverse.  A separator match is tried at every position before the end;
    a match that ends where the current piece starts is skipped. *)
Fixpoint split_go (fuel : nat) (ci : bool) (r : regex) (prev : option ascii)
    (cur : string) (s : string) : list string :=
  match fuel with
  | O => []
  | S f =>
      match s with
      | EmptyString => [String.rev cur]
      | String c s' =>
          match exec ci r prev s with
          | Some (prev', rest) =>
              if Nat.eqb (String.length rest) (String.length s)
                 && negb (Js.truthy cur)
              then split_go f ci r (Some c) (String c cur) s'
              else String.rev cur :: split_go f ci r prev' EmptyString rest
          | None => split_go f ci r (Some c) (String c cur) s'
          end
      end
  end.

Definition split (ci : bool) (r : regex) (s : string) : list string :=
  match s with
  | EmptyString =>
      match exec ci r None EmptyString with
      | Some _ => []
      | None => [EmptyString]
      end
  | _ => split_go (2 * String.length s + 2) ci r None EmptyString s
  end.

End Regex.

(* ===================================================================== *)
(** ** The plan data model (lib/spec.ts) *)
(* ===================================================================== *)

Inductive AgentType : Type :=
| Orchestrator
| Retriever
| Extractor
| Classifier
| Generator
| ToolExecutor
| HumanGate
| Notifier.

#[global] Instance AgentType_eq_dec : EqDecision AgentType.
Proof. solve_decision. Defined.

(** The archetype as the string the source stores. *)
Definition AgentType_name (t : AgentType) : string :=
  match t with
  | Orchestrator => "Orchestrator"
  | Retriever => "Retriever"
  | Extractor => "Extractor"
  | Classifier => "Classifier"
  | Generator => "Generator"
  | ToolExecutor => "ToolExecutor"
  | HumanGate => "HumanGate"
  | Notifier => "Notifier"
  end.

(** [{ from?: string; name: string }] *)
Record AgentInput : Type := mkInput {
  input_from : option string;
  input_name : string
}.

(** [{ name: string }] *)
Record AgentOutput : Type := mkOutput {
  output_name : string
}.

(** The presentation fields the planner attaches to an agent beyond the
    declared interface; every one of them may be absent. *)
Record AgentExtra : Type := mkExtra {
  businessOutcome : option string;
  analogy : option string;
  estimatedTime : option string;
  isManual : option bool;
  failureAction : option string;
  owner : option string;
  exampleInput : option string;
  exampleOutput : option string;
  costPerRun : option string;
  questionAnswered : option string
}.

Record AgentNode : Type := mkAgent {
  agent_id : string;
  agent_name : string;
  agent_type : AgentType;
  agent_summary : string;
  agent_inputs : list AgentInput;
  agent_outputs : list AgentOutput;
  agent_suggestedTools : option (list string);
  agent_notes : option (list string);
  agent_extra : AgentExtra
}.

Record EdgeSpec : Type := mkEdge {
  edge_from : string;
  edge_to : string;
  edge_data : string
}.

Record AgentPlan : Type := mkPlan {
  plan_version : string;
  plan_title : string;
  plan_description : string;
  plan_agents : list AgentNode;
  plan_edges : list EdgeSpec;
  plan_dataSchemas : option (gmap string (list string));
  plan_notes : option (list string)
}.

Record ValidationResult : Type := mkResult {
  ok : bool;
  errors : list string;
  warnings : list string
}.

Definition AGENT_TYPE_COLORS (t : AgentType) : string :=
  match t with
  | Orchestrator => "#805AD5"
  | Retriever => "#3182CE"
  | Extractor => "#38A169"
  | Classifier => "#DD6B20"
  | Generator => "#D53F8C"
  | ToolExecutor => "#319795"
  | HumanGate => "#E53E3E"
  | Notifier => "#718096"
  end.

(* ===================================================================== *)
(** ** Canned templates (lib/planner.ts, CANNED_TEMPLATES) *)
(* ===================================================================== *)

Definition support_triage : AgentPlan :=
  {| plan_version := "0.1";
     plan_title := "Support Ticket Triage";
     plan_description :=
       "Ingest support emails, extract details, classify severity, require human approval for critical, create a Jira ticket, notify Slack.";
     plan_agents :=
      [
       {| agent_id := "email-ingester";
          agent_name := "Email Ingester";
          agent_type := Retriever;
          agent_summary := "Fetches incoming support emails from the inbox";
          agent_inputs := [mkInput (None) "email_inbox"];
          agent_outputs := [mkOutput "raw_email"];
          agent_suggestedTools := Some ["IMAP Client"; "Gmail API"];
          agent_notes := None;
          agent_extra :=
            {| businessOutcome :=
                 Some "Ensures no support request goes unnoticed by automatically capturing all incoming emails";
               analogy :=
                 Some "Like a mailroom clerk who collects all the letters as they arrive";
               estimatedTime := Some "~1-2 seconds";
               isManual := Some false;
               failureAction :=
                 Some "Retries 3 times, then alerts the IT team via email";
               owner := Some "IT Operations";
               exampleInput := Some "Gmail inbox connection";
               exampleOutput :=
                 Some "Email from john@acme.com: 'My account is locked...'";
               costPerRun := Some "Free";
               questionAnswered :=
                 Some "What new support requests have come in?" |} |};
       {| agent_id := "detail-extractor";
          agent_name := "Detail Extractor";
          agent_type := Extractor;
          agent_summary := "Parses email to extract sender, subject, body, and metadata";
          agent_inputs := [mkInput (Some "email-ingester") "raw_email"];
          agent_outputs := [mkOutput "ticket_details"];
          agent_suggestedTools := Some ["NLP Parser"; "Regex"];
          agent_notes := None;
          agent_extra :=
            {| businessOutcome :=
                 Some "Structures messy email content into organized data that can be processed consistently";
               analogy :=
                 Some "Like a secretary reading a letter and filling out a standardized form";
               estimatedTime := Some "~2-3 seconds";
               isManual := Some false;
               failureAction :=
                 Some "Falls back to manual data entry by support staff";
               owner := Some "Support Team";
               exampleInput := Some "Raw email with subject, body, headers";
               exampleOutput :=
                 Some "{ sender: 'john@acme.com', issue: 'account locked', urgency_keywords: ['urgent', 'locked out'] }";
               costPerRun := Some "$0.001";
               questionAnswered :=
                 Some "What is this customer asking for?" |} |};
       {| agent_id := "severity-classifier";
          agent_name := "Severity Classifier";
          agent_type := Classifier;
          agent_summary := "Classifies ticket severity as low, medium, high, or critical";
          agent_inputs := [mkInput (Some "detail-extractor") "ticket_details"];
          agent_outputs := [mkOutput "severity"; mkOutput "classified_ticket"];
          agent_suggestedTools := Some ["ML Classifier"; "Rule Engine"];
          agent_notes := None;
          agent_extra :=
            {| businessOutcome :=
                 Some "Prioritizes urgent issues so critical problems get immediate attention";
               analogy :=
                 Some "Like a triage nurse in an emergency room deciding who needs help first";
               estimatedTime := Some "~1 second";
               isManual := Some false;
               failureAction :=
                 Some "Defaults to 'medium' priority to ensure ticket is still processed";
               owner := Some "Support Team";
               exampleInput := Some "Ticket with urgency keywords and customer info";
               exampleOutput :=
                 Some "Severity: HIGH (customer is enterprise tier, mentions 'outage')";
               costPerRun := Some "$0.002";
               questionAnswered :=
                 Some "How urgent is this support request?" |} |};
       {| agent_id := "human-approval";
          agent_name := "Human Approval Gate";
          agent_type := HumanGate;
          agent_summary := "Routes critical tickets for human approval before action";
          agent_inputs := [mkInput (Some "severity-classifier") "classified_ticket"];
          agent_outputs := [mkOutput "approved_ticket"];
          agent_suggestedTools := Some ["Slack Bot"; "Email Notifier"];
          agent_notes := Some ["Only triggered for critical severity"];
          agent_extra :=
            {| businessOutcome :=
                 Some "Adds a human safety check for high-stakes decisions to prevent costly mistakes";
               analogy :=
                 Some "Like a manager who must sign off on big expenses before they're approved";
               estimatedTime := Some "5 minutes - 4 hours (depends on reviewer availability)";
               isManual := Some true;
               failureAction :=
                 Some "Escalates to backup approver after 4 hours";
               owner := Some "Support Manager";
               exampleInput := Some "Critical ticket requiring approval";
               exampleOutput :=
                 Some "Approved by Sarah M. at 2:34 PM with note: 'Proceed with refund'";
               costPerRun := Some "Free (human time)";
               questionAnswered :=
                 Some "Should we proceed with this action?" |} |};
       {| agent_id := "jira-creator";
          agent_name := "Jira Ticket Creator";
          agent_type := ToolExecutor;
          agent_summary := "Creates a Jira ticket with extracted details and severity";
          agent_inputs := [mkInput (Some "human-approval") "approved_ticket"];
          agent_outputs := [mkOutput "jira_issue"];
          agent_suggestedTools := Some ["Jira REST API"];
          agent_notes := None;
          agent_extra :=
            {| businessOutcome :=
                 Some "Creates a trackable record that the team can assign, update, and close";
               analogy :=
                 Some "Like filing a work order that gets assigned to the right repair person";
               estimatedTime := Some "~2-3 seconds";
               isManual := Some false;
               failureAction :=
                 Some "Creates a backup record in a spreadsheet and alerts admin";
               owner := Some "Support Team";
               exampleInput := Some "Approved ticket with all details";
               exampleOutput :=
                 Some "JIRA-1234 created, assigned to Support queue";
               costPerRun := Some "Free (Jira API)";
               questionAnswered :=
                 Some "Where can the team track and manage this issue?" |} |};
       {| agent_id := "slack-notifier";
          agent_name := "Slack Notifier";
          agent_type := Notifier;
          agent_summary := "Posts notification to the support channel with ticket link";
          agent_inputs := [mkInput (Some "jira-creator") "jira_issue"];
          agent_outputs := [mkOutput "notification_sent"];
          agent_suggestedTools := Some ["Slack Webhook"; "Slack Bot"];
          agent_notes := None;
          agent_extra :=
            {| businessOutcome :=
                 Some "Keeps the team informed in real-time so issues don't sit unnoticed";
               analogy :=
                 Some "Like a PA announcement letting the team know there's a new task";
               estimatedTime := Some "~1 second";
               isManual := Some false;
               failureAction :=
                 Some "Sends email notification as backup";
               owner := Some "Support Team";
               exampleInput := Some "Jira ticket details and link";
               exampleOutput :=
                 Some "Message posted to #support-tickets: 'New HIGH priority ticket JIRA-1234'";
               costPerRun := Some "Free";
               questionAnswered :=
                 Some "Has the team been notified?" |} |} ];
     plan_edges :=
       [ mkEdge "email-ingester" "detail-extractor" "raw_email";
         mkEdge "detail-extractor" "severity-classifier" "ticket_details";
         mkEdge "severity-classifier" "human-approval" "classified_ticket";
         mkEdge "human-approval" "jira-creator" "approved_ticket";
         mkEdge "jira-creator" "slack-notifier" "jira_issue" ];
     plan_dataSchemas := Some (list_to_map
       [ ("raw_email", ["from"; "to"; "subject"; "body"; "timestamp"]);
         ("ticket_details", ["sender"; "subject"; "description"; "urgency_keywords"]);
         ("severity", ["level"; "confidence"]);
         ("jira_issue", ["key"; "url"; "summary"; "priority"]) ]);
     plan_notes := None |}.

Definition lead_qualification : AgentPlan :=
  {| plan_version := "0.1";
     plan_title := "Lead Qualification Pipeline";
     plan_description :=
       "Collect inbound form submissions, enrich with Clearbit, score the lead, route to AE if score > 80, create a CRM record, and email a personalized intro.";
     plan_agents :=
      [
       {| agent_id := "form-collector";
          agent_name := "Form Submission Collector";
          agent_type := Retriever;
          agent_summary := "Collects inbound lead form submissions from the website";
          agent_inputs := [mkInput (None) "form_webhook"];
          agent_outputs := [mkOutput "lead_submission"];
          agent_suggestedTools := Some ["Webhook Handler"; "Form Parser"];
          agent_notes := None;
          agent_extra :=
            {| businessOutcome :=
                 Some "Captures every potential customer inquiry so no opportunity is missed";
               analogy :=
                 Some "Like a receptionist who greets every visitor and takes their contact information";
               estimatedTime := Some "~1 second";
               isManual := Some false;
               failureAction :=
                 Some "Stores submission in backup queue and alerts marketing team";
               owner := Some "Marketing Ops";
               exampleInput := Some "Website form submission";
               exampleOutput :=
                 Some "{ name: 'Jane Smith', email: 'jane@bigcorp.com', company: 'BigCorp', message: 'Interested in enterprise plan' }";
               costPerRun := Some "Free";
               questionAnswered :=
                 Some "Who just expressed interest in our product?" |} |};
       {| agent_id := "clearbit-enricher";
          agent_name := "Clearbit Enricher";
          agent_type := Retriever;
          agent_summary := "Enriches lead data with company and person info from Clearbit";
          agent_inputs := [mkInput (Some "form-collector") "lead_submission"];
          agent_outputs := [mkOutput "enriched_lead"];
          agent_suggestedTools := Some ["Clearbit API"; "Company Database"];
          agent_notes := None;
          agent_extra :=
            {| businessOutcome :=
                 Some "Provides sales team with complete company context before they reach out";
               analogy :=
                 Some "Like a researcher who looks up background info on someone before a meeting";
               estimatedTime := Some "~2-3 seconds";
               isManual := Some false;
               failureAction :=
                 Some "Proceeds with original data, flags for manual enrichment later";
               owner := Some "Marketing Ops";
               exampleInput := Some "Basic lead info with email";
               exampleOutput :=
                 Some "{ ...lead, company_size: '500-1000', industry: 'Technology', title: 'VP Engineering' }";
               costPerRun := Some "$0.05";
               questionAnswered :=
                 Some "What do we know about this person and their company?" |} |};
       {| agent_id := "lead-scorer";
          agent_name := "Lead Scorer";
          agent_type := Classifier;
          agent_summary := "Scores the lead based on company size, role, and engagement signals";
          agent_inputs := [mkInput (Some "clearbit-enricher") "enriched_lead"];
          agent_outputs := [mkOutput "scored_lead"];
          agent_suggestedTools := Some ["Scoring Model"; "Rule Engine"];
          agent_notes := None;
          agent_extra :=
            {| businessOutcome :=
                 Some "Helps sales focus time on leads most likely to convert";
               analogy :=
                 Some "Like a talent scout rating prospects based on potential";
               estimatedTime := Some "~1 second";
               isManual := Some false;
               failureAction :=
                 Some "Assigns default score of 50 and flags for manual review";
               owner := Some "Sales Ops";
               exampleInput := Some "Enriched lead with company data";
               exampleOutput :=
                 Some "Score: 85 (VP title +20, company size 500+ +30, tech industry +15, engaged with content +20)";
               costPerRun := Some "$0.001";
               questionAnswered :=
                 Some "How likely is this lead to become a customer?" |} |};
       {| agent_id := "ae-router";
          agent_name := "AE Router";
          agent_type := Classifier;
          agent_summary := "Routes high-scoring leads (>80) to an Account Executive";
          agent_inputs := [mkInput (Some "lead-scorer") "scored_lead"];
          agent_outputs := [mkOutput "routed_lead"];
          agent_suggestedTools := Some ["Assignment Rules"; "Round Robin"];
          agent_notes := Some ["Leads with score <= 80 go to nurture sequence"];
          agent_extra :=
            {| businessOutcome :=
                 Some "Ensures hot leads get immediate personal attention from the right salesperson";
               analogy :=
                 Some "Like a dispatcher assigning the best available driver to a VIP pickup";
               estimatedTime := Some "~1 second";
               isManual := Some false;
               failureAction :=
                 Some "Routes to general sales queue";
               owner := Some "Sales Ops";
               exampleInput := Some "Lead with score 85";
               exampleOutput :=
                 Some "Assigned to: Sarah Johnson (AE, West Coast, Tech vertical)";
               costPerRun := Some "Free";
               questionAnswered :=
                 Some "Who should handle this lead?" |} |};
       {| agent_id := "crm-creator";
          agent_name := "CRM Record Creator";
          agent_type := ToolExecutor;
          agent_summary := "Creates or updates a lead record in the CRM";
          agent_inputs := [mkInput (Some "ae-router") "routed_lead"];
          agent_outputs := [mkOutput "crm_record"];
          agent_suggestedTools := Some ["Salesforce API"; "HubSpot API"];
          agent_notes := None;
          agent_extra :=
            {| businessOutcome :=
                 Some "Creates a single source of truth for all lead information and activity";
               analogy :=
                 Some "Like opening a new patient file at a doctor's office";
               estimatedTime := Some "~2 seconds";
               isManual := Some false;
               failureAction :=
                 Some "Stores in backup system and creates CRM record in next sync";
               owner := Some "Sales Ops";
               exampleInput := Some "Lead with routing assignment";
               exampleOutput :=
                 Some "Salesforce Lead ID: 00Q5g00000ABC123, Owner: Sarah Johnson";
               costPerRun := Some "Free (Salesforce API)";
               questionAnswered :=
                 Some "Where is all this lead's information stored?" |} |};
       {| agent_id := "intro-emailer";
          agent_name := "Personalized Intro Emailer";
          agent_type := Generator;
          agent_summary := "Generates and sends a personalized intro email to the lead";
          agent_inputs := [mkInput (Some "crm-creator") "crm_record"];
          agent_outputs := [mkOutput "email_sent"];
          agent_suggestedTools := Some ["Email Template Engine"; "SendGrid"];
          agent_notes := None;
          agent_extra :=
            {| businessOutcome :=
                 Some "Makes a great first impression with a relevant, personalized message";
               analogy :=
                 Some "Like a salesperson writing a thoughtful handwritten note";
               estimatedTime := Some "~3-5 seconds";
               isManual := Some false;
               failureAction :=
                 Some "Queues email for manual send and alerts AE";
               owner := Some "Sales Team";
               exampleInput := Some "CRM record with lead details";
               exampleOutput :=
                 Some "Email sent: 'Hi Jane, I noticed BigCorp is scaling its engineering team...'";
               costPerRun := Some "$0.003";
               questionAnswered :=
                 Some "Has the lead received a personalized response?" |} |} ];
     plan_edges :=
       [ mkEdge "form-collector" "clearbit-enricher" "lead_submission";
         mkEdge "clearbit-enricher" "lead-scorer" "enriched_lead";
         mkEdge "lead-scorer" "ae-router" "scored_lead";
         mkEdge "ae-router" "crm-creator" "routed_lead";
         mkEdge "crm-creator" "intro-emailer" "crm_record" ];
     plan_dataSchemas := Some (list_to_map
       [ ("lead_submission", ["email"; "name"; "company"; "message"]);
         ("enriched_lead", ["email"; "name"; "company"; "title"; "employees"; "industry"]);
         ("scored_lead", ["lead"; "score"; "score_breakdown"]);
         ("crm_record", ["id"; "url"; "owner"]) ]);
     plan_notes := None |}.

Definition weekly_report : AgentPlan :=
  {| plan_version := "0.1";
     plan_title := "Weekly Report Generator";
     plan_description :=
       "Fetch metrics from analytics and billing, summarize key changes, generate a short natural-language report, and email it to the team.";
     plan_agents :=
      [
       {| agent_id := "analytics-fetcher";
          agent_name := "Analytics Metrics Fetcher";
          agent_type := Retriever;
          agent_summary := "Fetches weekly metrics from the analytics platform";
          agent_inputs := [mkInput (None) "analytics_api"];
          agent_outputs := [mkOutput "analytics_data"];
          agent_suggestedTools := Some ["Google Analytics API"; "Mixpanel API"];
          agent_notes := None;
          agent_extra :=
            {| businessOutcome :=
                 Some "Gathers traffic and engagement data to understand how users interact with the product";
               analogy :=
                 Some "Like checking the visitor log at a store to see foot traffic";
               estimatedTime := Some "~5-10 seconds";
               isManual := Some false;
               failureAction :=
                 Some "Uses cached data from previous week and notes data may be stale";
               owner := Some "Data Team";
               exampleInput := Some "Analytics API connection for date range";
               exampleOutput :=
                 Some "{ pageviews: 125000, sessions: 45000, users: 32000, conversion_rate: 3.2% }";
               costPerRun := Some "Free";
               questionAnswered :=
                 Some "How much traffic did we get this week?" |} |};
       {| agent_id := "billing-fetcher";
          agent_name := "Billing Metrics Fetcher";
          agent_type := Retriever;
          agent_summary := "Fetches revenue and billing data from the billing system";
          agent_inputs := [mkInput (None) "billing_api"];
          agent_outputs := [mkOutput "billing_data"];
          agent_suggestedTools := Some ["Stripe API"; "Chargebee API"];
          agent_notes := None;
          agent_extra :=
            {| businessOutcome :=
                 Some "Provides accurate financial data for revenue tracking and forecasting";
               analogy :=
                 Some "Like counting the cash register at the end of the day";
               estimatedTime := Some "~5-10 seconds";
               isManual := Some false;
               failureAction :=
                 Some "Uses cached data and flags finance team for manual verification";
               owner := Some "Finance Team";
               exampleInput := Some "Stripe API connection for date range";
               exampleOutput :=
                 Some "{ mrr: $125,000, churn: 2.1%, new_revenue: $15,000, renewals: 45 }";
               costPerRun := Some "Free";
               questionAnswered :=
                 Some "How much revenue did we generate this week?" |} |};
       {| agent_id := "change-summarizer";
          agent_name := "Change Summarizer";
          agent_type := Extractor;
          agent_summary := "Identifies and summarizes key changes week-over-week";
          agent_inputs := [mkInput (Some "analytics-fetcher") "analytics_data";
                    mkInput (Some "billing-fetcher") "billing_data"];
          agent_outputs := [mkOutput "change_summary"];
          agent_suggestedTools := Some ["Data Diff Tool"; "Statistical Analyzer"];
          agent_notes := None;
          agent_extra :=
            {| businessOutcome :=
                 Some "Highlights what changed so leadership can quickly spot trends and issues";
               analogy :=
                 Some "Like a financial analyst comparing this month's numbers to last month";
               estimatedTime := Some "~2-3 seconds";
               isManual := Some false;
               failureAction :=
                 Some "Generates raw data dump without analysis";
               owner := Some "Data Team";
               exampleInput := Some "This week and last week metrics";
               exampleOutput :=
                 Some "{ highlights: ['MRR up 8%', 'Conversion improved'], concerns: ['Churn up 0.5%'] }";
               costPerRun := Some "$0.002";
               questionAnswered :=
                 Some "What's different from last week?" |} |};
       {| agent_id := "report-generator";
          agent_name := "Report Generator";
          agent_type := Generator;
          agent_summary := "Generates a natural-language weekly report with key highlights";
          agent_inputs := [mkInput (Some "change-summarizer") "change_summary"];
          agent_outputs := [mkOutput "report_draft"];
          agent_suggestedTools := Some ["LLM"; "Template Engine"];
          agent_notes := None;
          agent_extra :=
            {| businessOutcome :=
                 Some "Transforms complex data into an easy-to-read summary for busy executives";
               analogy :=
                 Some "Like a journalist turning raw facts into a readable news story";
               estimatedTime := Some "~5-8 seconds";
               isManual := Some false;
               failureAction :=
                 Some "Falls back to bullet-point template format";
               owner := Some "Data Team";
               exampleInput := Some "Change summary with highlights and concerns";
               exampleOutput :=
                 Some "Weekly Report: Revenue grew 8% to $125K MRR. Watch: churn increased slightly...";
               costPerRun := Some "$0.01";
               questionAnswered :=
                 Some "What do stakeholders need to know this week?" |} |};
       {| agent_id := "team-emailer";
          agent_name := "Team Emailer";
          agent_type := Notifier;
          agent_summary := "Sends the generated report to the team via email";
          agent_inputs := [mkInput (Some "report-generator") "report_draft"];
          agent_outputs := [mkOutput "email_sent"];
          agent_suggestedTools := Some ["SendGrid"; "SES"];
          agent_notes := None;
          agent_extra :=
            {| businessOutcome :=
                 Some "Ensures all stakeholders receive the report without manual distribution";
               analogy :=
                 Some "Like an assistant who prints and distributes the memo to everyone's desk";
               estimatedTime := Some "~2-3 seconds";
               isManual := Some false;
               failureAction :=
                 Some "Saves report to shared drive and alerts team via Slack";
               owner := Some "Operations";
               exampleInput := Some "Report content and recipient list";
               exampleOutput :=
                 Some "Email sent to 12 recipients: leadership@company.com, etc.";
               costPerRun := Some "$0.001";
               questionAnswered :=
                 Some "Has everyone received the report?" |} |} ];
     plan_edges :=
       [ mkEdge "analytics-fetcher" "change-summarizer" "analytics_data";
         mkEdge "billing-fetcher" "change-summarizer" "billing_data";
         mkEdge "change-summarizer" "report-generator" "change_summary";
         mkEdge "report-generator" "team-emailer" "report_draft" ];
     plan_dataSchemas := Some (list_to_map
       [ ("analytics_data", ["pageviews"; "sessions"; "users"; "conversion_rate"]);
         ("billing_data", ["mrr"; "churn"; "new_revenue"; "renewals"]);
         ("change_summary", ["highlights"; "concerns"; "trends"]);
         ("report_draft", ["title"; "body"; "bullet_points"]) ]);
     plan_notes := None |}.

Definition CANNED_TEMPLATES : gmap string AgentPlan :=
  list_to_map
    [ ("support-triage", support_triage);
      ("lead-qualification", lead_qualification);
      ("weekly-report", weekly_report) ].

(** Returns a canned template by id, or nothing if not found. *)
Definition getTemplate (templateId : string) : option AgentPlan :=
  CANNED_TEMPLATES !! templateId.

(* ===================================================================== *)
(** ** The planner (lib/planner.ts) *)
(* ===================================================================== *)

Import Regex.

(** [/\b(w1|w2|...)\b/i] *)
Definition verbRule (alternatives : list regex) : regex :=
  Seqs [WordB; Alts alternatives; WordB].

Definition VERB_TO_AGENT_TYPE : list (regex * AgentType * list string) :=
  [ (verbRule (Lit <$> ["ingest"; "fetch"; "collect"; "retrieve"; "get"; "load"; "pull"]),
     Retriever, ["API Client"; "File Reader"; "Database Connector"]);
    (verbRule (Lit <$> ["parse"; "extract"; "scrape"; "read"]),
     Extractor, ["Text Parser"; "JSON Extractor"; "Regex Matcher"]);
    (verbRule (Lit <$> ["decide"; "route"; "classify"; "categorize"; "score"; "rank"; "filter"]),
     Classifier, ["Rule Engine"; "ML Classifier"; "Scoring Model"]);
    (verbRule (Lit <$> ["create"; "update"; "write"; "insert"; "post"; "put"; "delete"; "call"]),
     ToolExecutor, ["REST Client"; "Database Writer"; "Webhook Caller"]);
    (verbRule ((Lit <$> ["summarize"; "draft"; "write"; "generate"; "compose"])
               ++ [Seqs [Lit "create"; Star Js.is_dot; Lit "report"]]),
     Generator, ["LLM"; "Template Engine"; "Report Builder"]);
    (verbRule (Lit <$> ["approv"; "review"; "confirm"; "human"; "manual"; "escalate"]),
     HumanGate, ["Approval Queue"; "Email Notification"; "Slack Bot"]);
    (verbRule (Lit <$> ["notify"; "alert"; "email"; "slack"; "send"; "message"]),
     Notifier, ["Email Service"; "Slack API"; "SMS Gateway"; "Webhook"]);
    (verbRule (Lit <$> ["enrich"; "augment"; "lookup"; "clearbit"; "external"]),
     Retriever, ["Clearbit API"; "LinkedIn API"; "Company Database"]) ].

Definition comma : ascii -> bool := fun c => Ascii.eqb c ",".

(** The five delimiter rewrites of [parseSteps], in source order. *)
Definition RE_comma_and_then : regex :=   (* /,\s*and\s+then\s*/gi *)
  Seqs [Chr ","; Star Js.is_ws; Lit "and"; Plus Js.is_ws; Lit "then"; Star Js.is_ws].
Definition RE_and_then : regex :=         (* /\s+and\s+then\s+/gi *)
  Seqs [Plus Js.is_ws; Lit "and"; Plus Js.is_ws; Lit "then"; Plus Js.is_ws].
Definition RE_then : regex :=             (* /\s+then\s+/gi *)
  Seqs [Plus Js.is_ws; Lit "then"; Plus Js.is_ws].
Definition RE_sentence : regex :=         (* /\.\s+/g *)
  Seqs [Chr "."; Plus Js.is_ws].
Definition RE_comma_and : regex :=        (* /,\s*and\s+/gi *)
  Seqs [Chr ","; Star Js.is_ws; Lit "and"; Plus Js.is_ws].
Definition RE_comma : regex :=            (* /,\s*/ *)
  Seqs [Chr ","; Star Js.is_ws].
Definition RE_final_dot : regex :=        (* /\.$/ *)
  Seqs [Chr "."; End_].
Definition RE_spaces : regex :=           (* /\s+/ *)
  Plus Js.is_ws.

Definition normalize (description : string) : string :=
  replaceAll true RE_comma_and ", "
    (replaceAll false RE_sentence ", "
       (replaceAll true RE_then ", "
          (replaceAll true RE_and_then ", "
             (replaceAll true RE_comma_and_then ", " description)))).

Definition parseSteps (description : string) : list string :=
  let normalized := normalize description in
  let parts :=
    List.filter (fun s => Nat.ltb 3 (String.length (Js.trim s)))
                (split false RE_comma normalized) in
  (fun p => replaceFirst false RE_final_dot "" (Js.trim p)) <$> parts.

Fixpoint inferAgentType_in (rules : list (regex * AgentType * list string))
    (step : string) : AgentType * list string :=
  match rules with
  | [] => (Generator, ["LLM"; "Custom Logic"])
  | (re, agentType, tools) :: rest =>
      if test true re step then (agentType, tools)
      else inferAgentType_in rest step
  end.

Definition inferAgentType (step : string) : AgentType * list string :=
  inferAgentType_in VERB_TO_AGENT_TYPE step.

Definition capitalize (str : string) : string :=
  Js.toUpperCase (Js.charAt0 str) +:+ Js.slice1 str.

(** [words[0] || fallback]: a missing first word and an empty one both
    give the fallback. *)
Definition firstWordOr (words : list string) (fallback : string) : string :=
  match words with
  | [] => fallback
  | w :: _ => Js.orElse w fallback
  end.

Definition generateAgentName (step : string) (type : AgentType) : string :=
  let words := split false RE_spaces step in
  let verb := firstWordOr words "" in
  let object := Js.orElse (Js.join " " (List.firstn 2 (List.skipn 1 words))) "Data" in
  Js.substring0 30
    (capitalize verb +:+ " " +:+ capitalize object +:+ " " +:+ AgentType_name type).

Definition nouns : list string :=
  ["email"; "data"; "ticket"; "lead"; "report"; "record"; "message"; "result";
   "response"; "notification"].

Definition verbToOutput : list (string * string) :=
  [ ("ingest", "raw_data");
    ("fetch", "fetched_data");
    ("collect", "collected_data");
    ("extract", "extracted_info");
    ("parse", "parsed_data");
    ("classify", "classification");
    ("route", "routed_data");
    ("score", "scored_data");
    ("create", "created_record");
    ("update", "updated_record");
    ("generate", "generated_content");
    ("summarize", "summary");
    ("notify", "notification");
    ("email", "email_sent");
    ("approve", "approved_data") ].

Fixpoint assoc (key : string) (table : list (string * string)) : option string :=
  match table with
  | [] => None
  | (k, v) :: rest => if String.eqb k key then Some v else assoc key rest
  end.

(** The first noun, in table order, that occurs inside some word. *)
Fixpoint findNoun (candidates : list string) (words : list string) : option string :=
  match candidates with
  | [] => None
  | noun :: rest =>
      if existsb (fun w => Js.includes w noun) words then Some noun
      else findNoun rest words
  end.

(** The table is read through its own keys only: the two lower-case names
    an object literal inherits ([constructor], [__proto__]) are outside the
    declared type [Record<string, string>] and are not modelled. *)
Definition generateOutputName (step : string) (index : nat) : string :=
  let words := split false RE_spaces (Js.toLowerCase step) in
  match findNoun nouns words with
  | Some noun => noun +:+ "_output"
  | None =>
      let verb := firstWordOr words "process" in
      match assoc verb verbToOutput with
      | Some out => out
      | None => "step_" +:+ pretty (index + 1) +:+ "_output"
      end
  end.

Definition generateFields (step : string) (type : AgentType) : list string :=
  match type with
  | Orchestrator => ["status"; "timestamp"; "metadata"]
  | Retriever => ["raw_content"; "source"; "timestamp"]
  | Extractor => ["extracted_fields"; "confidence"; "raw_text"]
  | Classifier => ["category"; "score"; "confidence"]
  | Generator => ["generated_text"; "model_used"; "tokens"]
  | ToolExecutor => ["result"; "status_code"; "api_response"]
  | HumanGate => ["decision"; "approver"; "comments"]
  | Notifier => ["sent_at"; "recipient"; "channel"]
  end.

Definition typeDefaults (type : AgentType)
    : string * string * string * bool * string * string * string * string :=
  match type with
  | Orchestrator =>
      ("Coordinates and manages the overall workflow process",
       "Like a project manager assigning tasks and tracking progress",
       "Varies", false,
       "Pauses workflow and alerts administrator",
       "System", "Free",
       "What's the current status of this workflow?")
  | Retriever =>
      ("Gathers the information needed for the next steps",
       "Like a researcher collecting data from various sources",
       "~2-5 seconds", false,
       "Retries 3 times, then uses cached data if available",
       "Data Team", "Free - $0.01",
       "What information do we need to collect?")
  | Extractor =>
      ("Turns messy data into structured, usable information",
       "Like reading through documents and filling out a form",
       "~2-3 seconds", false,
       "Falls back to manual data entry",
       "Data Team", "$0.001 - $0.01",
       "What specific details do we need from this data?")
  | Classifier =>
      ("Automatically categorizes or prioritizes items for appropriate handling",
       "Like a sorting machine that puts items in the right bins",
       "~1-2 seconds", false,
       "Assigns to default category for manual review",
       "Operations Team", "$0.001 - $0.005",
       "How should this item be categorized or prioritized?")
  | Generator =>
      ("Creates new content or documents automatically",
       "Like a writer drafting content based on given information",
       "~5-15 seconds", false,
       "Uses template-based fallback",
       "Content Team", "$0.01 - $0.05",
       "What content needs to be created?")
  | ToolExecutor =>
      ("Performs actions in external systems automatically",
       "Like an assistant who logs into systems and clicks buttons for you",
       "~2-5 seconds", false,
       "Logs action for manual execution and alerts team",
       "IT Operations", "Free - $0.01",
       "What action needs to happen in our other systems?")
  | HumanGate =>
      ("Ensures human oversight for important decisions",
       "Like a manager who must approve big decisions before they go through",
       "Minutes to hours (depends on reviewer)", true,
       "Escalates to backup approver",
       "Team Lead", "Free (human time)",
       "Should a human review this before proceeding?")
  | Notifier =>
      ("Keeps people informed about important events",
       "Like sending a message to let someone know something happened",
       "~1-2 seconds", false,
       "Tries alternate notification channel",
       "Operations Team", "Free - $0.001",
       "Who needs to know about this?")
  end.

Definition generateNonTechnicalFields (step : string) (type : AgentType)
    (index : nat) : AgentExtra :=
  let '(bo, an, et, im, fa, ow, cp, qa) := typeDefaults type in
  {| businessOutcome := Some bo;
     analogy := Some an;
     estimatedTime := Some et;
     isManual := Some im;
     failureAction := Some fa;
     owner := Some ow;
     exampleInput := None;
     exampleOutput := None;
     costPerRun := Some cp;
     questionAnswered := Some qa |}.

Definition generateTitle (description : string) : string :=
  let words := List.firstn 5 (split false RE_spaces description) in
  Js.substring0 50 (capitalize (Js.join " " words)) +:+ " Workflow".

(** [`agent-${n}`] *)
Definition agentIdOf (n : nat) : string := "agent-" +:+ pretty n.
#[global] Arguments agentIdOf : simpl never.

(** The three arrays the step loop appends to. *)
Record Built : Type := mkBuilt {
  built_agents : list AgentNode;
  built_edges : list EdgeSpec;
  built_schemas : gmap string (list string)
}.

(** [steps[i]]; the loop only reads indices below [steps.length]. *)
Definition stepAt (steps : list string) (i : nat) : string :=
  default "" (steps !! i).

(** The body of [for (let i = 0; i < steps.length; i++)]. *)
Definition stepBody (steps : list string) (st : Built) (i : nat) : Built :=
  let step := stepAt steps i in
  let agentId := agentIdOf (i + 1) in
  let prevAgentId := if Nat.ltb 0 i then Some (agentIdOf i) else None in
  let '(type, tools) := inferAgentType step in
  let name := generateAgentName step type in
  let outputName := generateOutputName step i in
  let nonTechFields := generateNonTechnicalFields step type i in
  let agent :=
    {| agent_id := agentId;
       agent_name := name;
       agent_type := type;
       agent_summary := capitalize (Js.trim step);
       agent_inputs :=
         match prevAgentId with
         | Some prev =>
             [ {| input_from := Some prev;
                  input_name :=
                    if Js.truthy (stepAt steps (i - 1))
                    then generateOutputName (stepAt steps (i - 1)) (i - 1)
                    else "data" |} ]
         | None => [ {| input_from := None; input_name := "input_data" |} ]
         end;
       agent_outputs := [ {| output_name := outputName |} ];
       agent_suggestedTools := Some tools;
       agent_notes := None;
       agent_extra := nonTechFields |} in
  {| built_agents := built_agents st ++ [agent];
     built_edges :=
       match prevAgentId with
       | Some prev =>
           built_edges st ++
           [ {| edge_from := prev;
                edge_to := agentId;
                edge_data := generateOutputName (stepAt steps (i - 1)) (i - 1) |} ]
       | None => built_edges st
       end;
     built_schemas := <[outputName := generateFields step type]> (built_schemas st) |}.

Definition buildFromSteps (steps : list string) : Built :=
  fold_left (stepBody steps) (seq 0 (List.length steps))
            {| built_agents := []; built_edges := []; built_schemas := ∅ |}.

(** The one-node plan returned when no step is found. *)
Definition minimalPlan (description : string) : AgentPlan :=
  {| plan_version := "0.1";
     plan_title := "Custom Workflow";
     plan_description := description;
     plan_agents :=
       [ {| agent_id := "orchestrator";
            agent_name := "Workflow Orchestrator";
            agent_type := Orchestrator;
            agent_summary := "Coordinates the workflow execution";
            agent_inputs := [ {| input_from := None; input_name := "input_data" |} ];
            agent_outputs := [ {| output_name := "output_data" |} ];
            agent_suggestedTools := Some ["Workflow Engine"];
            agent_notes := None;
            agent_extra :=
              {| businessOutcome := Some "Manages the overall workflow process";
                 analogy := Some "Like a project manager coordinating different team members";
                 estimatedTime := Some "Varies by workflow";
                 isManual := Some false;
                 failureAction := Some "Alerts administrator and pauses workflow";
                 owner := Some "System";
                 exampleInput := None;
                 exampleOutput := None;
                 costPerRun := None;
                 questionAnswered := None |} |} ];
     plan_edges := [];
     plan_dataSchemas := None;
     plan_notes := None |}.

(** Which canned template, if any, the keyword check selects. *)
Definition cannedFor (description : string) : option AgentPlan :=
  let lowerDesc := Js.toLowerCase description in
  if Js.includes lowerDesc "support" && Js.includes lowerDesc "triage"
  then Some support_triage
  else if Js.includes lowerDesc "lead" && Js.includes lowerDesc "qualif"
  then Some lead_qualification
  else if Js.includes lowerDesc "weekly" && Js.includes lowerDesc "report"
  then Some weekly_report
  else None.

Definition planFromDescription (description : string) : AgentPlan :=
  match cannedFor description with
  | Some template => template
  | None =>
      let steps := parseSteps description in
      match steps with
      | [] => minimalPlan description
      | _ =>
          let built := buildFromSteps steps in
          {| plan_version := "0.1";
             plan_title := generateTitle description;
             plan_description := description;
             plan_agents := built_agents built;
             plan_edges := built_edges built;
             plan_dataSchemas := Some (built_schemas built);
             plan_notes := None |}
      end
  end.

(* ===================================================================== *)
(** ** The validator (lib/spec.ts, validatePlan) *)
(* ===================================================================== *)

(** [new Set(xs)] as the list of its elements in insertion order. *)
Fixpoint setOf (xs : list string) : list string :=
  match xs with
  | [] => []
  | x :: rest => x :: List.filter (fun y => negb (String.eqb x y)) (setOf rest)
  end.

(** [set.has(x)] *)
Definition has (set : list string) (x : string) : bool :=
  existsb (String.eqb x) set.

Definition agentIdsOf (plan : AgentPlan) : list string :=
  setOf (agent_id <$> plan_agents plan).

(** 1) every edge references existing agents *)
Definition edgeErrors (agentIds : list string) (edges : list EdgeSpec)
    : list string :=
  edge ← edges;
  (if has agentIds (edge_from edge) then []
   else ["Edge references unknown 'from' agent: " +:+ edge_from edge]) ++
  (if has agentIds (edge_to edge) then []
   else ["Edge references unknown 'to' agent: " +:+ edge_to edge]).

(** 2) every non-root input has a provider; an absent or empty [from] marks
    a root input *)
Definition inputErrors (agentIds : list string) (agents : list AgentNode)
    : list string :=
  agent ← agents;
  input ← agent_inputs agent;
  match input_from input with
  | Some from =>
      if Js.truthy from && negb (has agentIds from)
      then ["Agent '" +:+ agent_name agent +:+ "' input '" +:+ input_name input
            +:+ "' references unknown agent: " +:+ from]
      else []
  | None => []
  end.

(** [`${a}:${b}`] *)
Definition outputKey (a b : string) : string := a +:+ ":" +:+ b.

Definition consumedOutputsOf (edges : list EdgeSpec) : gset string :=
  list_to_set ((fun e => outputKey (edge_from e) (edge_data e)) <$> edges).

(** 3) outputs not consumed by any edge, reported for non-terminal agents *)
Definition danglingWarnings (plan : AgentPlan) : list string :=
  let consumedOutputs := consumedOutputsOf (plan_edges plan) in
  agent ← plan_agents plan;
  output ← agent_outputs agent;
  let key := outputKey (agent_id agent) (output_name output) in
  if bool_decide (key ∉ consumedOutputs) then
    let hasOutgoingEdge :=
      existsb (fun e => String.eqb (edge_from e) (agent_id agent)) (plan_edges plan) in
    if hasOutgoingEdge then
      ["Agent '" +:+ agent_name agent +:+ "' output '" +:+ output_name output
       +:+ "' is not consumed by any edge"]
    else []
  else [].

(** 4) the adjacency map: one empty list per agent id, then each edge
    appended to the list of its source when the source is a known id *)
Definition adjacencyOf (agentIds : list string) (edges : list EdgeSpec)
    : gmap string (list string) :=
  fold_left (fun adj edge => alter (fun l => l ++ [edge_to edge]) (edge_from edge) adj)
            edges
            (fold_left (fun adj id => <[id := []]> adj) agentIds ∅).

(** The two sets the search mutates. *)
Record Dfs : Type := mkDfs {
  visited : gset string;
  recStack : gset string
}.

(** The [for (const neighbor of ...)] loop of [hasCycle(node)]; [self] is
    the recursive call.  Leaving through [return true] skips the final
    [recStack.delete(node)]. *)
Fixpoint neighbours (self : string -> Dfs -> option (bool * Dfs)) (node : string)
    (ns : list string) (st : Dfs) : option (bool * Dfs) :=
  match ns with
  | [] => Some (false, {| visited := visited st; recStack := recStack st ∖ {[node]} |})
  | neighbor :: rest =>
      if bool_decide (neighbor ∉ visited st) then
        match self neighbor st with
        | None => None
        | Some (true, st') => Some (true, st')
        | Some (false, st') => neighbours self node rest st'
        end
      else if bool_decide (neighbor ∈ recStack st) then Some (true, st)
      else neighbours self node rest st
  end.

Fixpoint hasCycle (fuel : nat) (adjacency : gmap string (list string))
    (node : string) (st : Dfs) : option (bool * Dfs) :=
  match fuel with
  | O => None
  | S f =>
      neighbours (hasCycle f adjacency) node (default [] (adjacency !! node))
        {| visited := {[node]} ∪ visited st; recStack := {[node]} ∪ recStack st |}
  end.

(** The [for (const id of agentIds)] loop, left at the first cycle found. *)
Fixpoint anyCycle (fuel : nat) (adjacency : gmap string (list string))
    (ids : list string) (st : Dfs) : option bool :=
  match ids with
  | [] => Some false
  | id :: rest =>
      if bool_decide (id ∉ visited st) then
        match hasCycle fuel adjacency id st with
        | None => None
        | Some (true, _) => Some true
        | Some (false, st') => anyCycle fuel adjacency rest st'
        end
      else anyCycle fuel adjacency rest st
  end.

Definition cycleError : string :=
  "The agent graph contains a cycle, which is not allowed".

(** A bound on the depth of the search: one level per node it can reach. *)
Definition searchFuel (plan : AgentPlan) : nat :=
  S (List.length (plan_agents plan) + List.length (plan_edges plan)).

Definition validatePlan (plan : AgentPlan) : option ValidationResult :=
  let agentIds := agentIdsOf plan in
  let adjacency := adjacencyOf agentIds (plan_edges plan) in
  match anyCycle (searchFuel plan) adjacency agentIds
                 {| visited := ∅; recStack := ∅ |} with
  | None => None
  | Some cyclic =>
      let errors :=
        edgeErrors agentIds (plan_edges plan) ++
        inputErrors agentIds (plan_agents plan) ++
        (if cyclic then [cycleError] else []) in
      Some {| ok := Nat.eqb (List.length errors) 0;
              errors := errors;
              warnings := danglingWarnings plan |}
  end.

(* ===================================================================== *)
(** ** The layout engine (lib/layout.ts, planToReactFlow) *)
(* ===================================================================== *)

Definition NODE_WIDTH : Z := 280.
Definition NODE_HEIGHT : Z := 100.
Definition HORIZONTAL_GAP : Z := 100.
Definition VERTICAL_GAP : Z := 40.

Record Position : Type := mkPosition {
  pos_x : Z;
  pos_y : Z
}.

(** A positioned node; [node_data] is the agent spread into [data] and
    [node_color] the [color] added to it. *)
Record FlowNode : Type := mkFlowNode {
  node_id : string;
  node_type : string;
  node_position : Position;
  node_data : AgentNode;
  node_color : string
}.

(** A rendered edge.  The style records of the literal are constants and
    are left out. *)
Record FlowEdge : Type := mkFlowEdge {
  flow_id : string;
  flow_source : string;
  flow_target : string;
  flow_label : string;
  flow_type : string;
  flow_animated : bool
}.

Record LayoutResult : Type := mkLayout {
  nodes : list FlowNode;
  edges : list FlowEdge
}.

(** [map.get(k) || 0] *)
Definition getOr0 (m : gmap string Z) (k : string) : Z := default 0%Z (m !! k).

(** The adjacency map of the layout: one entry per agent, in agent order
    (a repeated id resets its entry), then the edges. *)
Definition layoutAdjacency (plan : AgentPlan) : gmap string (list string) :=
  fold_left (fun adj edge => alter (fun l => l ++ [edge_to edge]) (edge_from edge) adj)
            (plan_edges plan)
            (fold_left (fun adj agent => <[agent_id agent := []]> adj) (plan_agents plan) ∅).

Definition initialInDegree (plan : AgentPlan) : gmap string Z :=
  fold_left (fun deg edge => <[edge_to edge := (getOr0 deg (edge_to edge) + 1)%Z]> deg)
            (plan_edges plan)
            (fold_left (fun deg agent => <[agent_id agent := 0%Z]> deg) (plan_agents plan) ∅).

(** The state of the level assignment. *)
Record Kahn : Type := mkKahn {
  inDegree : gmap string Z;
  levels : gmap string Z;
  queue : list string
}.

(** Root nodes (in-degree 0) start the queue at level 0. *)
Definition seedRoots (plan : AgentPlan) : Kahn :=
  fold_left
    (fun st agent =>
       if (getOr0 (inDegree st) (agent_id agent) =? 0)%Z
       then {| inDegree := inDegree st;
               levels := <[agent_id agent := 0%Z]> (levels st);
               queue := queue st ++ [agent_id agent] |}
       else st)
    (plan_agents plan)
    {| inDegree := initialInDegree plan; levels := ∅; queue := [] |}.

(** The body of [for (const neighbor of adjacency.get(current) || [])]. *)
Definition relax (currentLevel : Z) (st : Kahn) (neighbor : string) : Kahn :=
  let newDegree := (getOr0 (inDegree st) neighbor - 1)%Z in
  let existingLevel := getOr0 (levels st) neighbor in
  {| inDegree := <[neighbor := newDegree]> (inDegree st);
     levels := <[neighbor := Z.max existingLevel (currentLevel + 1)]> (levels st);
     queue := if (newDegree =? 0)%Z then queue st ++ [neighbor] else queue st |}.

(** One iteration of [while (queue.length > 0)]; nothing when the queue is
    empty. *)
Definition kahnStep (adjacency : gmap string (list string)) (st : Kahn)
    : option Kahn :=
  match queue st with
  | [] => None
  | current :: rest =>
      let currentLevel := getOr0 (levels st) current in
      Some (fold_left (relax currentLevel) (default [] (adjacency !! current))
              {| inDegree := inDegree st; levels := levels st; queue := rest |})
  end.

Fixpoint drain (fuel : nat) (adjacency : gmap string (list string)) (st : Kahn)
    : option Kahn :=
  match kahnStep adjacency st with
  | None => Some st
  | Some st' =>
      match fuel with
      | O => None
      | S f => drain f adjacency st'
      end
  end.

(** A bound on the number of iterations: every agent can be queued as a
    root and every edge can bring one in-degree to zero. *)
Definition layoutFuel (plan : AgentPlan) : nat :=
  List.length (plan_agents plan) + List.length (plan_edges plan).

Definition computeLevels (plan : AgentPlan) : option Kahn :=
  drain (layoutFuel plan) (layoutAdjacency plan) (seedRoots plan).

(** [levelGroups]: the levels in order of first use, each with its agents
    in plan order.  [pushGroup] is [if (!has(level)) set(level, [])]
    followed by [get(level).push(agent)]. *)
Fixpoint pushGroup (level : Z) (agent : AgentNode)
    (groups : list (Z * list AgentNode)) : list (Z * list AgentNode) :=
  match groups with
  | [] => [(level, [agent])]
  | (l, members) :: rest =>
      if (l =? level)%Z then (l, members ++ [agent]) :: rest
      else (l, members) :: pushGroup level agent rest
  end.

Definition levelGroupsOf (levels : gmap string Z) (agents : list AgentNode)
    : list (Z * list AgentNode) :=
  fold_left (fun groups agent => pushGroup (getOr0 levels (agent_id agent)) agent groups)
            agents [].

(** The nodes of one column. *)
Definition placeGroup (group : Z * list AgentNode) : list FlowNode :=
  let '(level, agents) := group in
  let x := (level * (NODE_WIDTH + HORIZONTAL_GAP))%Z in
  let n := Z.of_nat (List.length agents) in
  let totalHeight := (n * NODE_HEIGHT + (n - 1) * VERTICAL_GAP)%Z in
  let startY := (- totalHeight / 2)%Z in
  imap (fun index agent =>
          let y := (startY + Z.of_nat index * (NODE_HEIGHT + VERTICAL_GAP))%Z in
          {| node_id := agent_id agent;
             node_type := "agentNode";
             node_position := {| pos_x := x; pos_y := y |};
             node_data := agent;
             node_color := AGENT_TYPE_COLORS (agent_type agent) |})
       agents.

(** [s.replace(/_/g, " ")] *)
Definition underscoresToSpaces (s : string) : string :=
  replaceAll false (Chr "_") " " s.

Definition layoutEdges (plan : AgentPlan) : list FlowEdge :=
  imap (fun index edge =>
          {| flow_id := "edge-" +:+ pretty index;
             flow_source := edge_from edge;
             flow_target := edge_to edge;
             flow_label := underscoresToSpaces (edge_data edge);
             flow_type := "smoothstep";
             flow_animated := true |})
       (plan_edges plan).

Definition planToReactFlow (plan : AgentPlan) : option LayoutResult :=
  match computeLevels plan with
  | None => None
  | Some final =>
      Some {| nodes := levelGroupsOf (levels final) (plan_agents plan) ≫= placeGroup;
              edges := layoutEdges plan |}
  end.

(* ===================================================================== *)
(** ** The diagram exporter (lib/mermaid.ts) *)
(* ===================================================================== *)

Definition newline : string := String "010" EmptyString.
Definition dquote : string := String "034" EmptyString.

(** [id.replace(/[^a-zA-Z0-9]/g, "_")] *)
Definition alnum (c : ascii) : bool :=
  Js.is_lower c || Js.is_upper c || Js.is_digit c.

Definition sanitizeId (id : string) : string :=
  replaceAll false (Cls (fun c => negb (alnum c))) "_" id.

Definition truncate (str : string) (maxLength : nat) : string :=
  if Nat.leb (String.length str) maxLength then str
  else Js.substring0 (maxLength - 3) str +:+ "...".

(** The text between the quotes of a node declaration. *)
Definition nodeLabel (agent : AgentNode) : string :=
  agent_name agent +:+ "\n" +:+ truncate (agent_summary agent) 40.

Definition nodeLine (agent : AgentNode) : string :=
  "  " +:+ sanitizeId (agent_id agent) +:+ "[" +:+ dquote +:+ nodeLabel agent
  +:+ dquote +:+ "]".

Definition edgeLine (edge : EdgeSpec) : string :=
  "  " +:+ sanitizeId (edge_from edge) +:+ " -->|"
  +:+ underscoresToSpaces (edge_data edge) +:+ "| " +:+ sanitizeId (edge_to edge).

Definition styleLine (agent : AgentNode) : string :=
  "  style " +:+ sanitizeId (agent_id agent) +:+ " fill:"
  +:+ AGENT_TYPE_COLORS (agent_type agent) +:+ ",color:#fff".

Definition mermaidLines (plan : AgentPlan) : list string :=
  ["flowchart LR"; ""; "  %% Nodes"] ++
  (nodeLine <$> plan_agents plan) ++
  [""; "  %% Edges"] ++
  (edgeLine <$> plan_edges plan) ++
  [""; "  %% Styling"] ++
  (styleLine <$> plan_agents plan).

Definition planToMermaid (plan : AgentPlan) : string :=
  Js.join newline (mermaidLines plan).

Definition sequenceLines (plan : AgentPlan) : list string :=
  let hasIncoming : gset string := list_to_set (edge_to <$> plan_edges plan) in
  let rootAgents :=
    List.filter (fun a => bool_decide (agent_id a ∉ hasIncoming)) (plan_agents plan) in
  let hasOutgoing : gset string := list_to_set (edge_from <$> plan_edges plan) in
  let terminalAgents :=
    List.filter (fun a => bool_decide (agent_id a ∉ hasOutgoing)) (plan_agents plan) in
  ["sequenceDiagram"; "  participant User"] ++
  ((fun a => "  participant " +:+ sanitizeId (agent_id a) +:+ " as " +:+ agent_name a)
     <$> plan_agents plan) ++
  [""] ++
  ((fun root => "  User->>+" +:+ sanitizeId (agent_id root) +:+ ": Start workflow")
     <$> rootAgents) ++
  ((fun edge => "  " +:+ sanitizeId (edge_from edge) +:+ "->>+"
                +:+ sanitizeId (edge_to edge) +:+ ": " +:+ edge_data edge)
     <$> plan_edges plan) ++
  ((fun terminal => "  " +:+ sanitizeId (agent_id terminal) +:+ "-->>-User: Complete")
     <$> terminalAgents).

Definition planToSequenceDiagram (plan : AgentPlan) : string :=
  Js.join newline (sequenceLines plan).

(* ===================================================================== *)
(** ** The bounding box (lib/layout.ts, calculateBounds) *)
(* ===================================================================== *)

(** A coordinate, or one of the two infinities the scan starts from.
    Coordinates are integers, as the layout produces them; the model is
    that of the source where they are safe integers ([isSafeInteger] below),
    on which [Math.min], [Math.max] and the two additions are exact. *)
Inductive Extended : Type :=
| NegInfinity
| Num (z : Z)
| PosInfinity.

(** [Math.min(a, z)] and [Math.max(a, z)] for a finite [z]. *)
Definition mathMin (a : Extended) (z : Z) : Extended :=
  match a with
  | NegInfinity => NegInfinity
  | Num y => Num (Z.min y z)
  | PosInfinity => Num z
  end.

Definition mathMax (a : Extended) (z : Z) : Extended :=
  match a with
  | NegInfinity => Num z
  | Num y => Num (Z.max y z)
  | PosInfinity => PosInfinity
  end.

Record Bounds : Type := mkBounds {
  minX : Extended;
  maxX : Extended;
  minY : Extended;
  maxY : Extended
}.

(** The body of [for (const node of nodes)]. *)
Definition growBounds (b : Bounds) (node : FlowNode) : Bounds :=
  {| minX := mathMin (minX b) (pos_x (node_position node));
     maxX := mathMax (maxX b) (pos_x (node_position node) + NODE_WIDTH);
     minY := mathMin (minY b) (pos_y (node_position node));
     maxY := mathMax (maxY b) (pos_y (node_position node) + NODE_HEIGHT) |}.

Definition calculateBounds (nodes : list FlowNode) : Bounds :=
  if Nat.eqb (List.length nodes) 0
  then {| minX := Num 0; maxX := Num 100; minY := Num 0; maxY := Num 100 |}
  else fold_left growBounds nodes
         {| minX := PosInfinity; maxX := NegInfinity;
            minY := PosInfinity; maxY := NegInfinity |}.

(* ===================================================================== *)
(** ** The client-side validator (frontend, lib/validators.ts) *)
(* ===================================================================== *)

Definition clientEdgeErrors (agentIds : list string) (edges : list EdgeSpec)
    : list string :=
  edge ← edges;
  (if has agentIds (edge_from edge) then []
   else ["Edge references unknown source agent: " +:+ dquote +:+ edge_from edge +:+ dquote]) ++
  (if has agentIds (edge_to edge) then []
   else ["Edge references unknown target agent: " +:+ dquote +:+ edge_to edge +:+ dquote]).

Definition clientInputErrors (agentIds : list string) (agents : list AgentNode)
    : list string :=
  agent ← agents;
  input ← agent_inputs agent;
  match input_from input with
  | Some from =>
      if Js.truthy from && negb (has agentIds from)
      then ["Agent " +:+ dquote +:+ agent_name agent +:+ dquote +:+ " input " +:+ dquote
            +:+ input_name input +:+ dquote +:+ " references unknown agent: "
            +:+ dquote +:+ from +:+ dquote]
      else []
  | None => []
  end.

(** Here [hasOutgoingEdge] is computed once per agent, before its outputs
    are looked at. *)
Definition clientWarnings (plan : AgentPlan) : list string :=
  let consumedOutputs := consumedOutputsOf (plan_edges plan) in
  agent ← plan_agents plan;
  let hasOutgoingEdge :=
    existsb (fun e => String.eqb (edge_from e) (agent_id agent)) (plan_edges plan) in
  output ← agent_outputs agent;
  let key := outputKey (agent_id agent) (output_name output) in
  if bool_decide (key ∉ consumedOutputs) && hasOutgoingEdge then
    ["Agent " +:+ dquote +:+ agent_name agent +:+ dquote +:+ " output " +:+ dquote
     +:+ output_name output +:+ dquote +:+ " is not consumed by any edge"]
  else [].

(** [hasCycle(plan)]: the adjacency map has one entry per agent, and the
    search starts from the agents in plan order; the recursive function is
    the one of the server-side validator. *)
Definition clientHasCycle (plan : AgentPlan) : option bool :=
  let ids := agent_id <$> plan_agents plan in
  anyCycle (searchFuel plan) (adjacencyOf ids (plan_edges plan)) ids
           {| visited := ∅; recStack := ∅ |}.

Definition clientCycleError : string :=
  "The workflow contains a cycle, which is not allowed".

Definition clientValidatePlan (plan : AgentPlan) : option ValidationResult :=
  let agentIds := agentIdsOf plan in
  match clientHasCycle plan with
  | None => None
  | Some cyclic =>
      let errors :=
        clientEdgeErrors agentIds (plan_edges plan) ++
        clientInputErrors agentIds (plan_agents plan) ++
        (if cyclic then [clientCycleError] else []) in
      Some {| ok := Nat.eqb (List.length errors) 0;
              errors := errors;
              warnings := clientWarnings plan |}
  end.

(** [plan] is [null] or a plan. *)
Definition isPlanEmpty (plan : option AgentPlan) : bool :=
  match plan with
  | None => true
  | Some p => Nat.eqb (List.length (plan_agents p)) 0
  end.

Definition getRootAgents (plan : AgentPlan) : list string :=
  let hasIncoming : gset string := list_to_set (edge_to <$> plan_edges plan) in
  agent_id <$> List.filter (fun a => bool_decide (agent_id a ∉ hasIncoming)) (plan_agents plan).

Definition getTerminalAgents (plan : AgentPlan) : list string :=
  let hasOutgoing : gset string := list_to_set (edge_from <$> plan_edges plan) in
  agent_id <$> List.filter (fun a => bool_decide (agent_id a ∉ hasOutgoing)) (plan_agents plan).

(* ===================================================================== *)
(** ** The labels of the frontend exporter (frontend, lib/mermaid.ts) *)
(* ===================================================================== *)

(** [escapeLabel]: three global replacements.  A double quote becomes a
    single quote, an opening square bracket an opening parenthesis, a closing
    square bracket a closing parenthesis. *)
Definition escapeLabel (text : string) : string :=
  replaceAll false (Chr "]") ")"
    (replaceAll false (Chr "[") "("
       (replaceAll false (Chr "034") "'" text)).

(** The label of a node declaration; this copy truncates at 35. *)
Definition clientNodeLabel (agent : AgentNode) : string :=
  escapeLabel (agent_name agent +:+ "\n" +:+ truncate (agent_summary agent) 35).

Definition clientEdgeLabel (edge : EdgeSpec) : string :=
  escapeLabel (underscoresToSpaces (edge_data edge)).

(* ===================================================================== *)
(** ** The plan schema (lib/spec.ts, ZAgentPlan) *)
(* ===================================================================== *)

(** What [safeParse] checks of a value that already has the declared
    types: the literal version, the strings of length at least one and the
    agent list of length at least one.  [minLength n] is [.min(n)]. *)
Definition minLength (n : nat) (s : string) : bool := Nat.leb n (String.length s).

Definition ZAgentInput (input : AgentInput) : bool := minLength 1 (input_name input).

Definition ZAgentOutput (output : AgentOutput) : bool := minLength 1 (output_name output).

Definition ZAgentNode (agent : AgentNode) : bool :=
  minLength 1 (agent_id agent) && minLength 1 (agent_name agent) &&
  minLength 1 (agent_summary agent) &&
  forallb ZAgentInput (agent_inputs agent) && forallb ZAgentOutput (agent_outputs agent).

Definition ZEdgeSpec (edge : EdgeSpec) : bool :=
  minLength 1 (edge_from edge) && minLength 1 (edge_to edge) && minLength 1 (edge_data edge).

Definition ZAgentPlan (plan : AgentPlan) : bool :=
  String.eqb (plan_version plan) "0.1" &&
  minLength 1 (plan_title plan) && minLength 1 (plan_description plan) &&
  Nat.leb 1 (List.length (plan_agents plan)) &&
  forallb ZAgentNode (plan_agents plan) && forallb ZEdgeSpec (plan_edges plan).

(* ===================================================================== *)
(** ** The endpoint (app/api/plan/route.ts, POST) *)
(* ===================================================================== *)

(** The names every object literal inherits: reading one of them from
    [CANNED_TEMPLATES] yields a value that is neither undefined nor a plan. *)
Definition objectPrototypeKeys : list string :=
  [ "constructor"; "__defineGetter__"; "__defineSetter__"; "hasOwnProperty";
    "__lookupGetter__"; "__lookupSetter__"; "isPrototypeOf"; "propertyIsEnumerable";
    "toString"; "valueOf"; "__proto__"; "toLocaleString" ].

(** The body of a reply: an error list with or without warnings, the issues
    of a failed schema check (their texts belong to the schema library and
    are not modelled), or the plan with its warnings. *)
Inductive ReplyBody : Type :=
| ErrorBody (errors : list string) (warnings : option (list string))
| SchemaIssues
| PlanBody (plan : AgentPlan) (warnings : list string).

Record Reply : Type := mkReply {
  reply_status : nat;
  reply_body : ReplyBody
}.

(** What the handler does with the plan it has selected: the schema check,
    the semantic validation, the reply. *)
Definition respond (plan : AgentPlan) : option Reply :=
  if negb (ZAgentPlan plan) then Some {| reply_status := 400; reply_body := SchemaIssues |}
  else
    match validatePlan plan with
    | None => None
    | Some validation =>
        if negb (ok validation)
        then Some {| reply_status := 400;
                     reply_body := ErrorBody (errors validation) (Some (warnings validation)) |}
        else Some {| reply_status := 200;
                     reply_body := PlanBody plan (warnings validation) |}
    end.

(** The handler on a body whose [description] is a string and whose
    [templateId] is a string or absent.  An empty [templateId] is falsy. *)
Definition POST (description : string) (templateId : option string) : option Reply :=
  if negb (minLength 10 description)
  then Some {| reply_status := 400;
               reply_body := ErrorBody ["Description must be at least 10 characters"] None |}
  else
    match templateId with
    | Some id =>
        if Js.truthy id then
          if has objectPrototypeKeys id
          then Some {| reply_status := 400; reply_body := SchemaIssues |}
          else
            match getTemplate id with
            | None => Some {| reply_status := 400;
                              reply_body := ErrorBody ["Unknown template: " +:+ id] None |}
            | Some plan => respond plan
            end
        else respond (planFromDescription description)
    | None => respond (planFromDescription description)
    end.

(* ===================================================================== *)
(** ** Example plans *)
(* ===================================================================== *)

Definition noExtra : AgentExtra :=
  {| businessOutcome := None; analogy := None; estimatedTime := None;
     isManual := None; failureAction := None; owner := None;
     exampleInput := None; exampleOutput := None; costPerRun := None;
     questionAnswered := None |}.

(** An agent with the declared fields only. *)
Definition plainAgent (id name : string) (type : AgentType) (summary : string)
    (inputs : list AgentInput) (outputs : list AgentOutput) : AgentNode :=
  {| agent_id := id; agent_name := name; agent_type := type;
     agent_summary := summary; agent_inputs := inputs; agent_outputs := outputs;
     agent_suggestedTools := None; agent_notes := None; agent_extra := noExtra |}.

Definition planOf (agents : list AgentNode) (edges : list EdgeSpec) : AgentPlan :=
  {| plan_version := "0.1"; plan_title := "Example"; plan_description := "Example plan";
     plan_agents := agents; plan_edges := edges;
     plan_dataSchemas := None; plan_notes := None |}.

Definition chainInput : string :=
  "Fetch data, then extract fields, then notify team.".

(** Two agents that feed each other: no agent has in-degree 0. *)
Definition twoCycle : AgentPlan :=
  planOf
    [ plainAgent "A" "First" Retriever "Reads" [mkInput (Some "B") "y"] [mkOutput "x"];
      plainAgent "B" "Second" Extractor "Parses" [mkInput (Some "A") "x"] [mkOutput "y"] ]
    [ mkEdge "A" "B" "x"; mkEdge "B" "A" "y" ].

(** A root feeding a two-agent cycle: the cycle entry is given a level by
    the root although it is never queued. *)
Definition rootIntoCycle : AgentPlan :=
  planOf
    [ plainAgent "R" "Root" Retriever "Reads" [mkInput None "in"] [mkOutput "r"];
      plainAgent "A" "First" Extractor "Parses" [mkInput (Some "R") "r"; mkInput (Some "B") "y"]
                 [mkOutput "x"];
      plainAgent "B" "Second" Classifier "Sorts" [mkInput (Some "A") "x"] [mkOutput "y"] ]
    [ mkEdge "R" "A" "r"; mkEdge "A" "B" "x"; mkEdge "B" "A" "y" ].

(** Agent [stage:load] declares the outputs [rows] and [stats] and hands only
    [stats] on; the edge leaving agent [stage] carries [load:rows]. *)
Definition colonPlan : AgentPlan :=
  planOf
    [ plainAgent "stage" "Stage" Retriever "Stages the files"
                 [mkInput None "files"] [mkOutput "load:rows"];
      plainAgent "stage:load" "Loader" Extractor "Loads the rows"
                 [mkInput (Some "stage") "load:rows"] [mkOutput "rows"; mkOutput "stats"];
      plainAgent "report" "Reporter" Generator "Writes the report"
                 [mkInput (Some "stage:load") "stats"] [mkOutput "report"] ]
    [ mkEdge "stage" "stage:load" "load:rows";
      mkEdge "stage:load" "report" "stats" ].

(** One isolated agent whose id, name and summary carry characters of the
    diagram notation. *)
Definition quotedAgent : AgentNode :=
  plainAgent "My/Agent" ("Say " +:+ dquote +:+ "hi" +:+ dquote) Notifier
             "Posts to [ops]" [mkInput None "in"] [mkOutput "out"].

Definition quotedPlan : AgentPlan := planOf [quotedAgent] [].

(** Three agents in a ring, and the same agents in a line. *)
Definition threeAgents : list AgentNode :=
  [ plainAgent "A" "First" Retriever "Reads" [mkInput None "in"] [mkOutput "x"];
    plainAgent "B" "Second" Extractor "Parses" [mkInput (Some "A") "x"] [mkOutput "y"];
    plainAgent "C" "Third" Notifier "Tells" [mkInput (Some "B") "y"] [mkOutput "z"] ].



(** The line A -> B -> C declared against the direction of its edges. *)
Definition reversedLinePlan : AgentPlan :=
  planOf (List.rev threeAgents) [ mkEdge "B" "C" "y"; mkEdge "A" "B" "x" ].

(* ===================================================================== *)
(** ** Vocabulary of the statements *)
(* ===================================================================== *)

(** The targets of the edges leaving [k], in edge order. *)
Definition outgoing (edges : list EdgeSpec) (k : string) : list string :=
  edge_to <$> List.filter (fun e => String.eqb (edge_from e) k) edges.

(** Every edge names two known agents. *)
Definition edgesResolved (ids : list string) (edges : list EdgeSpec) : Prop :=
  Forall (fun e => edge_from e ∈ ids /\ edge_to e ∈ ids) edges.

(** Every input is a root input (no source, or an empty one) or names a
    known agent. *)
Definition inputsResolved (ids : list string) (agents : list AgentNode) : Prop :=
  Forall (fun a =>
            Forall (fun i => match input_from i with
                             | Some from => from = "" \/ from ∈ ids
                             | None => True
                             end) (agent_inputs a)) agents.

#[global] Instance edgesResolved_dec ids edges : Decision (edgesResolved ids edges).
Proof. unfold edgesResolved. apply _. Defined.

#[global] Instance inputsResolved_dec ids agents : Decision (inputsResolved ids agents).
Proof.
  unfold inputsResolved. apply Forall_dec. intros a. apply Forall_dec. intros i.
  destruct (input_from i); apply _.
Defined.

(** What a call of the search on an unvisited node of [U] delivers when the
    fuel covers the nodes of [U] not yet visited. *)
Definition returns (U : gset string) (fuel : nat)
    (self : string -> Dfs -> option (bool * Dfs)) : Prop :=
  forall n s, n ∈ U -> n ∉ visited s -> size (U ∖ visited s) <= fuel ->
    exists b s', self n s = Some (b, s') /\ visited s ⊆ visited s'.

(** The shape of a generated chain of [n] agents: the ids [agent-1] to
    [agent-n], and one edge from each agent to the next. *)
Definition endpoints (e : EdgeSpec) : string * string := (edge_from e, edge_to e).

Definition chainIds (n : nat) : list string := agentIdOf <$> seq 1 n.

Definition chainEnds (n : nat) : list (string * string) :=
  (fun i => (agentIdOf i, agentIdOf (S i))) <$> seq 1 (n - 1).

(** The orphaned-output warning in the words of the specification: one
    warning for every output slot of an agent with an outgoing edge whose
    name is the data field of no edge leaving that agent. *)
Definition leaves (agent : AgentNode) (e : EdgeSpec) : bool :=
  String.eqb (edge_from e) (agent_id agent).

Definition orphanWarnings (plan : AgentPlan) : list string :=
  agent ← plan_agents plan;
  output ← agent_outputs agent;
  if existsb (leaves agent) (plan_edges plan)
     && negb (existsb (fun e => leaves agent e
                                && String.eqb (edge_data e) (output_name output))
                      (plan_edges plan))
  then ["Agent '" +:+ agent_name agent +:+ "' output '" +:+ output_name output
        +:+ "' is not consumed by any edge"]
  else [].

(** No colon in a string. *)
Fixpoint colonFree (s : string) : bool :=
  match s with
  | EmptyString => true
  | String c s' => negb (Ascii.eqb c ":") && colonFree s'
  end.

(** [sanitizeId] character by character. *)
Fixpoint mapChars (f : ascii -> ascii) (s : string) : string :=
  match s with
  | EmptyString => EmptyString
  | String c s' => String (f c) (mapChars f s')
  end.

(** The work left for the level assignment: the queued ids plus the
    in-degrees still above zero. *)
Definition pending (deg : gmap string Z) : nat :=
  map_fold (fun _ v acc => Z.to_nat v + acc) 0 deg.

Definition workLeft (st : Kahn) : nat :=
  List.length (queue st) + pending (inDegree st).

(** The states the queue loop passes through, from the seeded state on. *)
Definition loopStep (plan : AgentPlan) (st st' : Kahn) : Prop :=
  kahnStep (layoutAdjacency plan) st = Some st'.

Definition passesThrough (plan : AgentPlan) (st : Kahn) : Prop :=
  rtc (loopStep plan) (seedRoots plan) st.

(** The level the grouping reads for an agent: [levels.get(id) || 0]. *)
Definition columnOf (final : Kahn) (agent : AgentNode) : Z :=
  getOr0 (levels final) (agent_id agent).

(** The agents that share the column of [agent], in plan order. *)
Definition columnMates (final : Kahn) (agents : list AgentNode) (agent : AgentNode)
    : list AgentNode :=
  List.filter (fun b => (columnOf final b =? columnOf final agent)%Z) agents.

(** First match in the level groups. *)
Fixpoint groupAt (level : Z) (groups : list (Z * list AgentNode))
    : option (list AgentNode) :=
  match groups with
  | [] => None
  | (l, members) :: rest => if (l =? level)%Z then Some members else groupAt level rest
  end.

(** The node built for the member at [index] of a column of [n] agents. *)
Definition nodeAt (level : Z) (n index : nat) (agent : AgentNode) : FlowNode :=
  {| node_id := agent_id agent;
     node_type := "agentNode";
     node_position :=
       {| pos_x := (level * (NODE_WIDTH + HORIZONTAL_GAP))%Z;
          pos_y := (- (Z.of_nat n * NODE_HEIGHT + (Z.of_nat n - 1) * VERTICAL_GAP) / 2
                    + Z.of_nat index * (NODE_HEIGHT + VERTICAL_GAP))%Z |};
     node_data := agent;
     node_color := AGENT_TYPE_COLORS (agent_type agent) |}.

(** The number of edges that end in [k]. *)
Definition incoming (edges : list EdgeSpec) (k : string) : nat :=
  List.length (List.filter (fun e => String.eqb (edge_to e) k) edges).

(** Every queued id has seen its in-degree reach zero. *)
Definition queueSettled (st : Kahn) : Prop :=
  forall id, id ∈ queue st -> (getOr0 (inDegree st) id <= 0)%Z.

(** The characters a pattern can consume, the characters a match can start
    with, and whether it can match without consuming. *)
Fixpoint may (ci : bool) (r : regex) (c : ascii) : bool :=
  match r with
  | Chr a => char_eq ci a c
  | Cls p | Star p | Plus p => p c
  | Seq r1 r2 | Alt r1 r2 => may ci r1 c || may ci r2 c
  | WordB | End_ | Eps => false
  end.

Fixpoint nullable (r : regex) : bool :=
  match r with
  | Chr _ | Cls _ | Plus _ => false
  | Star _ | WordB | End_ | Eps => true
  | Seq r1 r2 => nullable r1 && nullable r2
  | Alt r1 r2 => nullable r1 || nullable r2
  end.

Fixpoint first (ci : bool) (r : regex) (c : ascii) : bool :=
  match r with
  | Chr a => char_eq ci a c
  | Cls p | Star p | Plus p => p c
  | Seq r1 r2 => first ci r1 c || (nullable r1 && first ci r2 c)
  | Alt r1 r2 => first ci r1 c || first ci r2 c
  | WordB | End_ | Eps => false
  end.

Fixpoint allChars (p : ascii -> bool) (s : string) : bool :=
  match s with
  | EmptyString => true
  | String c s' => p c && allChars p s'
  end.

(** What a successful match consumed. *)
Record Consumed (ci : bool) (r : regex) (s m rest : string) : Prop := {
  consumed_split : s = m +:+ rest;
  consumed_may : allChars (may ci r) m = true;
  consumed_nonempty : nullable r = false -> m <> EmptyString;
  consumed_first : forall c m', m = String c m' -> first ci r c = true
}.

Definition allAscii : list ascii := ascii_of_nat <$> seq 0 256.

Definition sepChar (c : ascii) : bool :=
  Js.is_ws c || Ascii.eqb c "," || Ascii.eqb c ".".

(** The patterns [parseSteps] scans with, each with its [i] flag. *)
Definition delimiters : list (bool * regex) :=
  [ (true, RE_comma_and_then); (true, RE_and_then); (true, RE_then);
    (false, RE_sentence); (true, RE_comma_and); (false, RE_comma) ].

Definition delimChar (c : ascii) : bool :=
  existsb (fun d => may (fst d) (snd d) c) delimiters.

Definition isDelimiter (ci : bool) (r : regex) : Prop := (ci, r) ∈ delimiters.

(** A string that holds four characters in a row, none of them a separator
    and the first one outside every delimiter. *)
Definition anchored (s : string) : Prop :=
  exists pre c0 c1 c2 c3 post,
    s = pre +:+ String c0 (String c1 (String c2 (String c3 post))) /\
    delimChar c0 = false /\ sepChar c0 = false /\ sepChar c1 = false /\
    sepChar c2 = false /\ sepChar c3 = false.

(** The graph of a plan: an arc for every edge; a plan is acyclic when no
    agent reaches itself along one or more arcs. *)
Definition arc (plan : AgentPlan) (x y : string) : Prop :=
  exists e, e ∈ plan_edges plan /\ edge_from e = x /\ edge_to e = y.

Definition acyclic (plan : AgentPlan) : Prop :=
  forall x, ~ tc (arc plan) x x.

(** The position of the first agent declared with a given id. *)
Fixpoint indexOf (x : string) (ids : list string) : option nat :=
  match ids with
  | [] => None
  | y :: rest => if String.eqb y x then Some 0 else S <$> indexOf x rest
  end.

(** An edge that runs from an agent to one declared later. *)
Definition forward (ids : list string) (ends : string * string) : bool :=
  match indexOf (fst ends) ids, indexOf (snd ends) ids with
  | Some i, Some j => Nat.ltb i j
  | _, _ => false
  end.

Definition forwardPlan (plan : AgentPlan) : bool :=
  forallb (forward (agent_id <$> plan_agents plan)) (endpoints <$> plan_edges plan).

(** The ids the agents of a plan declare, in plan order. *)
Definition declaredIds (plan : AgentPlan) : list string :=
  agent_id <$> plan_agents plan.

(** The graph the cycle search walks: the entries of the adjacency map.
    For a plan these are the edges that leave a declared agent. *)
Definition adjArc (adjacency : gmap string (list string)) (x y : string) : Prop :=
  y ∈ default [] (adjacency !! x).

Definition searchedArc (plan : AgentPlan) (x y : string) : Prop :=
  x ∈ declaredIds plan /\ arc plan x y.

(** The nodes the search has left: visited and off the stack.  They are
    closed under the arcs and carry no cycle. *)
Definition finished (st : Dfs) : gset string := visited st ∖ recStack st.

Record SearchInv (adjacency : gmap string (list string)) (st : Dfs) : Prop := {
  inv_stack : recStack st ⊆ visited st;
  inv_closed : forall u v, u ∈ finished st -> adjArc adjacency u v -> v ∈ finished st;
  inv_acyclic : forall u, u ∈ finished st -> ~ tc (adjArc adjacency) u u
}.

(** What a call of the search on an unvisited node establishes, every node
    of the stack reaching that node. *)
Definition searchSpec (adjacency : gmap string (list string))
    (self : string -> Dfs -> option (bool * Dfs)) : Prop :=
  forall node st b st',
    self node st = Some (b, st') ->
    node ∉ visited st ->
    SearchInv adjacency st ->
    (forall s, s ∈ recStack st -> rtc (adjArc adjacency) s node) ->
    if b then exists x, tc (adjArc adjacency) x x
    else SearchInv adjacency st' /\ visited st ⊆ visited st' /\
         recStack st' = recStack st /\ node ∈ visited st'.

(** How often an id occurs in a list of neighbours, and the number of edges
    into [v] that leave an id of [P]. *)
Definition occurrences (v : string) (ns : list string) : nat :=
  List.length (List.filter (String.eqb v) ns).

Definition relaxedInto (edges : list EdgeSpec) (P : list string) (v : string) : nat :=
  List.length (List.filter (fun e => String.eqb (edge_to e) v && has P (edge_from e)) edges).

(** The invariant of the queue loop on a plan with distinct ids and resolved
    edges; [P] lists the ids dequeued so far. *)
Record KahnInv (plan : AgentPlan) (P : list string) (st : Kahn) : Prop := {
  k_nodup : NoDup (P ++ queue st);
  k_degree : forall v,
    getOr0 (inDegree st) v =
    (Z.of_nat (incoming (plan_edges plan) v) - Z.of_nat (relaxedInto (plan_edges plan) P v))%Z;
  k_settled : forall v,
    v ∈ P ++ queue st <-> v ∈ declaredIds plan /\ getOr0 (inDegree st) v = 0%Z;
  k_levels : forall e, e ∈ plan_edges plan -> edge_from e ∈ P ->
    (getOr0 (levels st) (edge_from e) + 1 <= getOr0 (levels st) (edge_to e))%Z;
  k_tight : forall v, getOr0 (levels st) v ≠ 0%Z ->
    exists e, e ∈ plan_edges plan /\ edge_to e = v /\ edge_from e ∈ P /\
              getOr0 (levels st) v = (getOr0 (levels st) (edge_from e) + 1)%Z
}.

(** No level is negative, and only the target of an edge has a level above
    zero. *)
Definition levelsGrounded (plan : AgentPlan) (st : Kahn) : Prop :=
  forall v, (0 <= getOr0 (levels st) v)%Z /\
            (getOr0 (levels st) v ≠ 0%Z -> 0 < incoming (plan_edges plan) v).

(** Level groups with one entry per level, every member in the group of its
    column. *)
Definition groupsSorted (col : AgentNode -> Z) (groups : list (Z * list AgentNode)) : Prop :=
  NoDup (fst <$> groups) /\
  Forall (fun g => Forall (fun a => col a = fst g) (snd g)) groups.

(** Two node boxes that do not meet: a column apart, or a row apart. *)
Definition apart (n1 n2 : FlowNode) : Prop :=
  (NODE_WIDTH + HORIZONTAL_GAP <= Z.abs (pos_x (node_position n1) - pos_x (node_position n2)))%Z \/
  (NODE_HEIGHT + VERTICAL_GAP <= Z.abs (pos_y (node_position n1) - pos_y (node_position n2)))%Z.

(** A box with finite sides that holds the box of every node of [nodes] and
    touches one of them on each side. *)
Record Encloses (nodes : list FlowNode) (x0 x1 y0 y1 : Z) : Prop := {
  enc_holds : forall n, n ∈ nodes ->
    (x0 <= pos_x (node_position n) /\ pos_x (node_position n) + NODE_WIDTH <= x1 /\
     y0 <= pos_y (node_position n) /\ pos_y (node_position n) + NODE_HEIGHT <= y1)%Z;
  enc_left : exists n, n ∈ nodes /\ pos_x (node_position n) = x0;
  enc_right : exists n, n ∈ nodes /\ (pos_x (node_position n) + NODE_WIDTH)%Z = x1;
  enc_top : exists n, n ∈ nodes /\ pos_y (node_position n) = y0;
  enc_bottom : exists n, n ∈ nodes /\ (pos_y (node_position n) + NODE_HEIGHT)%Z = y1
}.

(** The characters that end a quoted label or the node shape; the
    characters of a sanitized identifier; replacing one character. *)
Definition labelBreaking (c : ascii) : bool :=
  Ascii.eqb c "034" || Ascii.eqb c "[" || Ascii.eqb c "]".

Definition idChar (c : ascii) : bool := alnum c || Ascii.eqb c "_".

Definition substitute (a b : ascii) (c : ascii) : ascii :=
  if Ascii.eqb a c then b else c.

(** What every parsed step looks like: three characters or more, the first
    one visible, no comma. *)
Definition notComma (c : ascii) : bool := negb (Ascii.eqb c ",").

Definition wellFormedStep (step : string) : Prop :=
  3 <= String.length step /\
  (exists c rest, step = String c rest /\ Js.is_ws c = false) /\
  allChars notComma step = true.

(** The agent and the edge the step loop adds at index [i]. *)
Definition agentOfStep (steps : list string) (i : nat) : AgentNode :=
  let step := stepAt steps i in
  {| agent_id := agentIdOf (i + 1);
     agent_name := generateAgentName step (fst (inferAgentType step));
     agent_type := fst (inferAgentType step);
     agent_summary := capitalize (Js.trim step);
     agent_inputs :=
       if Nat.ltb 0 i
       then [ {| input_from := Some (agentIdOf i);
                 input_name :=
                   if Js.truthy (stepAt steps (i - 1))
                   then generateOutputName (stepAt steps (i - 1)) (i - 1)
                   else "data" |} ]
       else [ {| input_from := None; input_name := "input_data" |} ];
     agent_outputs := [ {| output_name := generateOutputName step i |} ];
     agent_suggestedTools := Some (snd (inferAgentType step));
     agent_notes := None;
     agent_extra := generateNonTechnicalFields step (fst (inferAgentType step)) i |}.

Definition edgesOfStep (steps : list string) (i : nat) : list EdgeSpec :=
  if Nat.ltb 0 i
  then [ {| edge_from := agentIdOf i;
            edge_to := agentIdOf (i + 1);
            edge_data := generateOutputName (stepAt steps (i - 1)) (i - 1) |} ]
  else [].

(** A step whose output name is read from the table's own keys: a noun is
    found, or the verb is none of the inherited names.  Outside these steps
    [generateOutputName] yields a value that is not a string. *)
Definition readsOwnKey (step : string) : bool :=
  let words := split false RE_spaces (Js.toLowerCase step) in
  match findNoun nouns words with
  | Some _ => true
  | None => negb (has objectPrototypeKeys (firstWordOr words "process"))
  end.

(** A path of [n] edges of the plan ends in [v]. *)
Inductive pathTo (plan : AgentPlan) : string -> nat -> Prop :=
| pathTo_here v : pathTo plan v 0
| pathTo_edge u v n : pathTo plan u n -> arc plan u v -> pathTo plan v (S n).

(** The level of [v] as the specification defines it: 0 for an agent no
    edge enters, otherwise one more than the highest level of a
    predecessor; that is, the number of edges of the longest path that ends
    in [v]. *)
Definition longestPathTo (plan : AgentPlan) (v : string) (L : nat) : Prop :=
  pathTo plan v L /\ forall n, pathTo plan v n -> n <= L.

(** The agents whose level is the level of [agent], in plan order. *)
Definition levelMates (lvl : string -> nat) (agents : list AgentNode) (agent : AgentNode)
    : list AgentNode :=
  List.filter (fun b => Nat.eqb (lvl (agent_id b)) (lvl (agent_id agent))) agents.

(** The integers a double holds exactly: [Number.isSafeInteger]. *)
Definition isSafeInteger (z : Z) : bool := ((- 2 ^ 53 <? z) && (z <? 2 ^ 53))%Z.

(** A node whose box has safe integers as corners. *)
Definition safeNode (n : FlowNode) : bool :=
  isSafeInteger (pos_x (node_position n)) &&
  isSafeInteger (pos_x (node_position n) + NODE_WIDTH) &&
  isSafeInteger (pos_y (node_position n)) &&
  isSafeInteger (pos_y (node_position n) + NODE_HEIGHT).

(* ===================================================================== *)
(** * Properties *)
(* ===================================================================== *)

(** ** Canned templates *)

Lemma cannedFor_member d template :
  cannedFor d = Some template ->
  template ∈ [support_triage; lead_qualification; weekly_report].
Proof.
  unfold cannedFor. intros Hc.
  repeat match type of Hc with
         | (if ?b then _ else _) = _ => destruct b
         end; inversion Hc; subst; set_solver.
Qed.

(** ** Sets of ids *)

Lemma has_true set x : has set x = true <-> x ∈ set.
Proof.
  unfold has. rewrite existsb_exists. split.
  - intros (y & Hy & Heq). apply String.eqb_eq in Heq. subst.
    by apply list_elem_of_In.
  - intros Hx. exists x. split; [by apply list_elem_of_In | apply String.eqb_refl].
Qed.

Lemma has_false set x : has set x = false <-> x ∉ set.
Proof.
  rewrite <- has_true. destruct (has set x); split; congruence.
Qed.

Lemma elem_of_filter_neq (a x : string) l :
  x ∈ List.filter (fun y => negb (String.eqb a y)) l <-> x ≠ a /\ x ∈ l.
Proof.
  rewrite !list_elem_of_In, filter_In, negb_true_iff, String.eqb_neq.
  split; intros [? ?]; split; auto.
Qed.

Lemma elem_of_setOf x xs : x ∈ setOf xs <-> x ∈ xs.
Proof.
  induction xs as [|a xs IH]; simpl; [done|].
  rewrite !elem_of_cons, elem_of_filter_neq, IH.
  destruct (decide (x = a)); tauto.
Qed.

Lemma filter_neq_id (a : string) l :
  a ∉ l -> List.filter (fun y => negb (String.eqb a y)) l = l.
Proof.
  induction l as [|b l IH]; simpl; [done|].
  rewrite not_elem_of_cons. intros [Hab Hl].
  apply String.eqb_neq in Hab. rewrite Hab. simpl. by rewrite IH.
Qed.

Lemma setOf_id xs : NoDup xs -> setOf xs = xs.
Proof.
  induction 1 as [|a xs Ha _ IH]; simpl; [done|].
  by rewrite IH, filter_neq_id.
Qed.

Lemma setOf_length xs : List.length (setOf xs) <= List.length xs.
Proof.
  induction xs as [|a xs IH]; simpl; [lia|].
  pose proof (filter_length_le (fun y => negb (String.eqb a y)) (setOf xs)). lia.
Qed.

(** ** The adjacency map *)

Lemma lookup_fold_insert_nil (ids : list string) (m : gmap string (list string)) k :
  fold_left (fun adj id => <[id := []]> adj) ids m !! k =
  if has ids k then Some [] else m !! k.
Proof.
  revert m. induction ids as [|a ids IH]; intros m; simpl; [done|].
  rewrite IH. destruct (has ids k) eqn:Hk.
  - by rewrite orb_true_r.
  - rewrite orb_false_r. destruct (String.eqb k a) eqn:Hka.
    + apply String.eqb_eq in Hka. subst. by rewrite lookup_insert_eq.
    + apply String.eqb_neq in Hka. by rewrite lookup_insert_ne.
Qed.

Lemma lookup_fold_alter (edges : list EdgeSpec) (m : gmap string (list string)) k :
  fold_left (fun adj edge => alter (fun l => l ++ [edge_to edge]) (edge_from edge) adj)
            edges m !! k =
  (fun l => l ++ outgoing edges k) <$> m !! k.
Proof.
  revert m. induction edges as [|e edges IH]; intros m; simpl.
  - unfold outgoing. simpl. destruct (m !! k); simpl; [|done].
    by rewrite app_nil_r.
  - rewrite IH. unfold outgoing. simpl.
    destruct (String.eqb (edge_from e) k) eqn:Hk.
    + apply String.eqb_eq in Hk. subst. rewrite lookup_alter_eq.
      destruct (m !! edge_from e); simpl; [|done].
      by rewrite <- app_assoc.
    + apply String.eqb_neq in Hk. by rewrite lookup_alter_ne.
Qed.

(** The adjacency list of a known id holds the targets of its outgoing
    edges in edge order; an unknown id has no entry. *)
Lemma adjacencyOf_lookup ids edges k :
  adjacencyOf ids edges !! k =
  if has ids k then Some (outgoing edges k) else None.
Proof.
  unfold adjacencyOf. rewrite lookup_fold_alter, lookup_fold_insert_nil.
  destruct (has ids k); simpl; [done|]. by rewrite lookup_empty.
Qed.

Lemma elem_of_outgoing edges k x :
  x ∈ outgoing edges k -> x ∈ edge_to <$> edges.
Proof.
  unfold outgoing. rewrite !list_elem_of_fmap.
  intros (e & -> & He). exists e. split; [done|].
  apply list_elem_of_In in He. apply filter_In in He as [He _].
  by apply list_elem_of_In.
Qed.

(** ** The cycle search always returns *)

Lemma size_list_to_set_le (l : list string) :
  size (list_to_set l : gset string) <= List.length l.
Proof.
  induction l as [|x l IH]; simpl.
  - pose proof (size_empty (C:=gset string)). simpl in *. lia.
  - rewrite size_union_alt, size_singleton.
    assert (size (list_to_set l ∖ {[x]} : gset string) <= size (list_to_set l : gset string))
      by (apply subseteq_size; set_solver).
    lia.
Qed.

Section Search.
Variable adjacency : gmap string (list string).
Variable U : gset string.
Hypothesis adjacency_closed :
  forall k l x, adjacency !! k = Some l -> x ∈ l -> x ∈ U.

Lemma neighbours_total self node ns st f :
  returns U f self ->
  (forall x, x ∈ ns -> x ∈ U) ->
  size (U ∖ visited st) <= f ->
  exists b st', neighbours self node ns st = Some (b, st') /\ visited st ⊆ visited st'.
Proof.
  intros Hself. revert st.
  induction ns as [|n ns IH]; intros st Hns Hsize; simpl.
  - eexists _, _. split; [reflexivity|]. simpl. set_solver.
  - case_bool_decide as Hv.
    + destruct (Hself n st) as (b & s' & -> & Hsub); [set_solver|done|done|].
      destruct b.
      * eauto.
      * destruct (IH s') as (b' & s'' & -> & Hsub').
        -- intros x Hx. apply Hns. set_solver.
        -- etrans; [|exact Hsize]. apply subseteq_size. set_solver.
        -- eexists _, _. split; [reflexivity|]. set_solver.
    + case_bool_decide.
      * eexists _, _. split; [reflexivity|]. set_solver.
      * apply IH; [|done]. intros x Hx. apply Hns. set_solver.
Qed.

Lemma hasCycle_total fuel : returns U fuel (hasCycle fuel adjacency).
Proof.
  induction fuel as [|f IH]; intros node st HU Hv Hsize.
  - assert (size (U ∖ visited st) ≠ 0); [|lia].
    intros Hz. apply size_empty_inv in Hz. set_solver.
  - simpl.
    destruct (neighbours_total (hasCycle f adjacency) node
                (default [] (adjacency !! node))
                {| visited := {[node]} ∪ visited st;
                   recStack := {[node]} ∪ recStack st |} f IH)
      as (b & st' & Heq & Hsub).
    + intros x Hx. destruct (adjacency !! node) as [l|] eqn:Hl; simpl in Hx.
      * eapply adjacency_closed; eauto.
      * set_solver.
    + simpl.
      assert (size (U ∖ ({[node]} ∪ visited st)) < size (U ∖ visited st)); [|lia].
      apply subset_size. set_solver.
    + exists b, st'. split; [done|]. simpl in Hsub. set_solver.
Qed.

Lemma anyCycle_total fuel ids st :
  (forall x, x ∈ ids -> x ∈ U) ->
  size U <= fuel ->
  exists b, anyCycle fuel adjacency ids st = Some b.
Proof.
  intros Hids Hfuel. revert st.
  induction ids as [|id ids IH]; intros st; simpl; [eauto|].
  assert (Hrest : forall x, x ∈ ids -> x ∈ U) by (intros; apply Hids; set_solver).
  case_bool_decide as Hv; [|by apply IH].
  destruct (hasCycle_total fuel id st) as (b & s' & -> & _); [set_solver|done| |].
  - etrans; [|exact Hfuel]. apply subseteq_size. set_solver.
  - destruct b; [eauto|by apply IH].
Qed.
End Search.

(** Every plan is validated: the fuel passed by [validatePlan] suffices. *)
Lemma validatePlan_total plan : exists r, validatePlan plan = Some r.
Proof.
  unfold validatePlan.
  set (ids := agentIdsOf plan).
  set (U := (list_to_set ids ∪ list_to_set (edge_to <$> plan_edges plan) : gset string)).
  destruct (anyCycle_total (adjacencyOf ids (plan_edges plan)) U) with
    (fuel := searchFuel plan) (ids := ids) (st := {| visited := ∅; recStack := ∅ |})
    as [b ->]; [| | |eauto].
  - intros k l x Hl Hx. rewrite adjacencyOf_lookup in Hl.
    destruct (has ids k); [|done]. injection Hl as <-.
    apply elem_of_outgoing in Hx. set_solver.
  - set_solver.
  - unfold U, searchFuel. rewrite size_union_alt.
    pose proof (size_list_to_set_le ids).
    pose proof (size_list_to_set_le (edge_to <$> plan_edges plan)) as H2.
    rewrite length_fmap in H2.
    pose proof (setOf_length (agent_id <$> plan_agents plan)) as H3.
    rewrite length_fmap in H3. fold (agentIdsOf plan) in H3. fold ids in H3.
    assert (size (list_to_set (edge_to <$> plan_edges plan) ∖ list_to_set ids : gset string)
            <= size (list_to_set (edge_to <$> plan_edges plan) : gset string))
      by (apply subseteq_size; set_solver).
    lia.
Qed.

(** ** The shape of a validation result *)

Lemma edgeErrors_nil ids edges :
  edgesResolved ids edges -> edgeErrors ids edges = [].
Proof.
  unfold edgeErrors. induction 1 as [|e edges [Hf Ht] _ IH]; [done|].
  rewrite bind_cons, IH. apply has_true in Hf, Ht. by rewrite Hf, Ht.
Qed.

Lemma inputErrors_nil ids agents :
  inputsResolved ids agents -> inputErrors ids agents = [].
Proof.
  unfold inputErrors. induction 1 as [|a agents Ha _ IH]; [done|].
  rewrite bind_cons, IH, app_nil_r. clear IH.
  induction Ha as [|i ins Hi _ IH]; [done|].
  rewrite bind_cons, IH, app_nil_r.
  destruct (input_from i) as [from|]; [|done].
  destruct Hi as [->|Hin]; [done|].
  apply has_true in Hin. rewrite Hin. by rewrite andb_false_r.
Qed.

Lemma cycleError_not_edgeError ids edges : cycleError ∉ edgeErrors ids edges.
Proof.
  unfold edgeErrors. induction edges as [|e edges IH]; [set_solver|].
  rewrite bind_cons, !elem_of_app. intros [[H|H]|H]; [| |done].
  - destruct (has ids (edge_from e)); [set_solver|].
    apply list_elem_of_singleton in H. discriminate H.
  - destruct (has ids (edge_to e)); [set_solver|].
    apply list_elem_of_singleton in H. discriminate H.
Qed.

Lemma cycleError_not_inputError ids agents : cycleError ∉ inputErrors ids agents.
Proof.
  unfold inputErrors. induction agents as [|a agents IH]; [set_solver|].
  rewrite bind_cons, elem_of_app. intros [H|H]; [|done]. clear IH.
  induction (agent_inputs a) as [|i ins IH]; [set_solver|].
  rewrite bind_cons, elem_of_app in H. destruct H as [H|H]; [|done].
  destruct (input_from i) as [from|]; [|set_solver].
  destruct (Js.truthy from && negb (has ids from)); [|set_solver].
  apply list_elem_of_singleton in H. discriminate H.
Qed.

(** The result assembled by [validatePlan] from the outcome of the cycle
    search. *)
Lemma validatePlan_result plan cyclic :
  anyCycle (searchFuel plan) (adjacencyOf (agentIdsOf plan) (plan_edges plan))
           (agentIdsOf plan) {| visited := ∅; recStack := ∅ |} = Some cyclic ->
  exists r, validatePlan plan = Some r /\
    errors r = edgeErrors (agentIdsOf plan) (plan_edges plan) ++
               inputErrors (agentIdsOf plan) (plan_agents plan) ++
               (if cyclic then [cycleError] else []) /\
    ok r = Nat.eqb (List.length (errors r)) 0 /\
    warnings r = danglingWarnings plan.
Proof.
  intros H. unfold validatePlan. rewrite H. eexists. split; [reflexivity|].
  simpl. auto.
Qed.

(** ** Stepping the cycle search *)

Lemma neighbours_unvisited self node n rest st :
  n ∉ visited st ->
  neighbours self node (n :: rest) st =
  match self n st with
  | None => None
  | Some (true, st') => Some (true, st')
  | Some (false, st') => neighbours self node rest st'
  end.
Proof. intros H. simpl. by rewrite bool_decide_eq_true_2. Qed.


Lemma hasCycle_step f adjacency node ns st :
  adjacency !! node = Some ns ->
  hasCycle (S f) adjacency node st =
  neighbours (hasCycle f adjacency) node ns
    {| visited := {[node]} ∪ visited st; recStack := {[node]} ∪ recStack st |}.
Proof. intros H. simpl. by rewrite H. Qed.

Lemma anyCycle_all_visited fuel adjacency ids st :
  (forall x, x ∈ ids -> x ∈ visited st) ->
  anyCycle fuel adjacency ids st = Some false.
Proof.
  induction ids as [|id ids IH]; intros Hv; simpl; [done|].
  rewrite bool_decide_eq_false_2 by (intros Hn; apply Hn, Hv; set_solver).
  apply IH. intros x Hx. apply Hv. set_solver.
Qed.

(** ** Three agents: a ring and a line *)

Section Three.
Variables (a b c d1 d2 d3 : string) (p : AgentPlan).
Hypothesis Hnd : NoDup [a; b; c].
Hypothesis Hagents : agent_id <$> plan_agents p = [a; b; c].










End Three.

(** ** Generated chains *)

Lemma agentIdOf_inj : Inj (=) (=) agentIdOf.
Proof.
  intros i j H. unfold agentIdOf in H.
  apply (inj (String.app "agent-")) in H. by apply (inj pretty) in H.
Qed.

Lemma agentIdOf_eqb i j : String.eqb (agentIdOf i) (agentIdOf j) = Nat.eqb i j.
Proof.
  destruct (Nat.eqb_spec i j) as [->|Hne]; [apply String.eqb_refl|].
  apply String.eqb_neq. intros H. by apply agentIdOf_inj in H.
Qed.

Lemma elem_of_chainIds n x : x ∈ chainIds n <-> exists k, 1 <= k <= n /\ x = agentIdOf k.
Proof.
  unfold chainIds. rewrite list_elem_of_fmap. split.
  - intros (k & -> & Hk). apply elem_of_seq in Hk. exists k. split; [lia|done].
  - intros (k & Hk & ->). exists k. split; [done|]. apply elem_of_seq. lia.
Qed.

Lemma NoDup_chainIds n : NoDup (chainIds n).
Proof. apply (NoDup_fmap_2 _), NoDup_seq. Qed.

Lemma outgoing_endpoints edges k :
  outgoing edges k =
  snd <$> List.filter (fun p => String.eqb (fst p) k) (endpoints <$> edges).
Proof.
  unfold outgoing. induction edges as [|e edges IH]; simpl; [done|].
  destruct (String.eqb (edge_from e) k); simpl; [f_equal|]; exact IH.
Qed.

Lemma outgoing_seq k s m :
  snd <$> List.filter (fun p => String.eqb (fst p) (agentIdOf k))
            ((fun i => (agentIdOf i, agentIdOf (S i))) <$> seq s m) =
  if Nat.leb s k && Nat.ltb k (s + m) then [agentIdOf (S k)] else [].
Proof.
  revert s. induction m as [|m IH]; intros s.
  - simpl. destruct (Nat.leb_spec s k), (Nat.ltb_spec k (s + 0)); simpl; try done; lia.
  - cbn [seq]. rewrite fmap_cons. cbn [List.filter fst].
    rewrite agentIdOf_eqb. destruct (Nat.eqb_spec s k) as [->|Hne].
    + rewrite fmap_cons, IH. cbn [snd].
      destruct (Nat.leb_spec (S k) k), (Nat.leb_spec k k),
        (Nat.ltb_spec k (k + S m)); simpl; try done; lia.
    + rewrite IH.
      destruct (Nat.leb_spec (S s) k), (Nat.leb_spec s k),
        (Nat.ltb_spec k (S s + m)), (Nat.ltb_spec k (s + S m)); simpl; try done; lia.
Qed.

Lemma outgoing_chain edges n k :
  endpoints <$> edges = chainEnds n -> 1 <= k <= n ->
  outgoing edges (agentIdOf k) = if Nat.ltb k n then [agentIdOf (S k)] else [].
Proof.
  intros He Hk. rewrite outgoing_endpoints, He. unfold chainEnds.
  rewrite outgoing_seq.
  destruct (Nat.leb_spec 1 k), (Nat.ltb_spec k (1 + (n - 1))), (Nat.ltb_spec k n);
    simpl; try done; lia.
Qed.

Section Chain.
Variables (adj : gmap string (list string)) (n : nat).
Hypothesis adj_chain : forall k, 1 <= k <= n ->
  adj !! agentIdOf k = Some (if Nat.ltb k n then [agentIdOf (S k)] else []).

(** Entered at agent [k] with the agents from [k] on unvisited, the search
    walks to the end of the chain and reports no cycle. *)
Lemma chain_hasCycle m : forall k st fuel,
  k + m = n -> 1 <= k -> m < fuel ->
  (forall j, k <= j <= n -> agentIdOf j ∉ visited st) ->
  exists st', hasCycle fuel adj (agentIdOf k) st = Some (false, st') /\
              (forall j, k <= j <= n -> agentIdOf j ∈ visited st') /\
              visited st ⊆ visited st'.
Proof.
  induction m as [|m IH]; intros k st fuel Hkm Hk Hfuel Hv;
    (destruct fuel as [|fuel]; [lia|]).
  - rewrite (hasCycle_step _ _ _ _ _ (adj_chain k ltac:(lia))).
    destruct (Nat.ltb_spec k n); [lia|]. simpl.
    eexists. split; [reflexivity|]. simpl. split; [|set_solver].
    intros j Hj. assert (j = k) as -> by lia. set_solver.
  - rewrite (hasCycle_step _ _ _ _ _ (adj_chain k ltac:(lia))).
    destruct (Nat.ltb_spec k n); [|lia].
    rewrite neighbours_unvisited.
    2:{ simpl. intros [Heq%elem_of_singleton|Hin]%elem_of_union.
        - apply agentIdOf_inj in Heq. lia.
        - apply (Hv (S k)); [lia|done]. }
    destruct (IH (S k) {| visited := {[agentIdOf k]} ∪ visited st;
                          recStack := {[agentIdOf k]} ∪ recStack st |} fuel)
      as (st' & -> & Hin & Hsub); [lia|lia|lia| |].
    { simpl. intros j Hj [Heq%elem_of_singleton|Hin]%elem_of_union.
      - apply agentIdOf_inj in Heq. lia.
      - apply (Hv j); [lia|done]. }
    simpl in Hsub. simpl. eexists. split; [reflexivity|]. simpl.
    split; [|set_solver].
    intros j Hj. destruct (decide (j = k)) as [->|]; [set_solver|].
    apply Hin. lia.
Qed.

Lemma chain_anyCycle fuel :
  1 <= n -> n <= fuel ->
  anyCycle fuel adj (chainIds n) {| visited := ∅; recStack := ∅ |} = Some false.
Proof.
  intros Hn Hfuel. unfold chainIds.
  assert (Hseq : seq 1 n = 1 :: seq 2 (n - 1)).
  { clear -Hn. destruct n as [|n']; [lia|]. simpl. by rewrite Nat.sub_0_r. }
  rewrite Hseq, fmap_cons. cbn [anyCycle visited].
  rewrite bool_decide_eq_true_2 by set_solver.
  destruct (chain_hasCycle (n - 1) 1 {| visited := ∅; recStack := ∅ |} fuel)
    as (st' & -> & Hin & _); [lia|lia|lia|set_solver|].
  apply anyCycle_all_visited. intros x Hx.
  apply list_elem_of_fmap in Hx as (j & -> & Hj). apply elem_of_seq in Hj.
  apply Hin. lia.
Qed.
End Chain.

Lemma chain_edgesResolved edges n :
  endpoints <$> edges = chainEnds n -> edgesResolved (chainIds n) edges.
Proof.
  intros Hends. apply Forall_forall. intros e He.
  assert (Hp : endpoints e ∈ chainEnds n).
  { rewrite <- Hends. apply list_elem_of_fmap. eauto. }
  unfold chainEnds in Hp. apply list_elem_of_fmap in Hp as (i & Hi & Hseq).
  apply elem_of_seq in Hseq. unfold endpoints in Hi.
  injection Hi as -> ->.
  split; apply elem_of_chainIds; eexists; (split; [|reflexivity]); lia.
Qed.

Lemma chain_agentIds plan n :
  agent_id <$> plan_agents plan = chainIds n -> agentIdsOf plan = chainIds n.
Proof. intros Hids. unfold agentIdsOf. rewrite Hids. apply setOf_id, NoDup_chainIds. Qed.

(** A plan with the ids and edges of a chain, and resolved inputs, is
    validated without errors. *)
Lemma chain_valid plan n :
  1 <= n ->
  agent_id <$> plan_agents plan = chainIds n ->
  endpoints <$> plan_edges plan = chainEnds n ->
  inputsResolved (chainIds n) (plan_agents plan) ->
  exists r, validatePlan plan = Some r /\ errors r = [] /\ ok r = true /\
            warnings r = danglingWarnings plan.
Proof.
  intros Hn Hids Hends Hin.
  pose proof (chain_agentIds plan n Hids) as Hset.
  destruct (validatePlan_result plan false) as (r & Hr & Herr & Hok & Hw).
  - rewrite Hset. apply chain_anyCycle; [|done|].
    + intros k Hk. rewrite adjacencyOf_lookup.
      rewrite (proj2 (has_true _ _)) by (apply elem_of_chainIds; eauto).
      by rewrite (outgoing_chain _ n).
    + unfold searchFuel. rewrite <- (length_fmap agent_id), Hids.
      unfold chainIds. rewrite length_fmap, length_seq. lia.
  - exists r. rewrite Hset in Herr.
    rewrite edgeErrors_nil, inputErrors_nil in Herr;
      [|done|by apply chain_edgesResolved].
    simpl in Herr. repeat split; [done|done| |done]. by rewrite Hok, Herr.
Qed.

(** The step loop builds exactly such a chain. *)
Lemma stepBody_ids steps st i :
  agent_id <$> built_agents (stepBody steps st i) =
  (agent_id <$> built_agents st) ++ [agentIdOf (i + 1)].
Proof.
  unfold stepBody. destruct (inferAgentType (stepAt steps i)). simpl.
  by rewrite fmap_app.
Qed.

Lemma stepBody_ends steps st i :
  endpoints <$> built_edges (stepBody steps st i) =
  (endpoints <$> built_edges st) ++
  (if Nat.ltb 0 i then [(agentIdOf i, agentIdOf (i + 1))] else []).
Proof.
  unfold stepBody. destruct (inferAgentType (stepAt steps i)). simpl.
  destruct (Nat.ltb 0 i); [by rewrite fmap_app|by rewrite app_nil_r].
Qed.

Lemma stepBody_inputs steps st i ids :
  (0 < i -> agentIdOf i ∈ ids) ->
  inputsResolved ids (built_agents st) ->
  inputsResolved ids (built_agents (stepBody steps st i)).
Proof.
  intros Hi Hst. unfold stepBody. destruct (inferAgentType (stepAt steps i)). simpl.
  apply Forall_app. split; [done|]. apply Forall_singleton. simpl.
  destruct (Nat.ltb_spec 0 i); apply Forall_singleton; simpl; [|done].
  right. by apply Hi.
Qed.

Lemma fold_stepBody_ids steps idxs st :
  agent_id <$> built_agents (fold_left (stepBody steps) idxs st) =
  (agent_id <$> built_agents st) ++ ((fun i => agentIdOf (i + 1)) <$> idxs).
Proof.
  revert st. induction idxs as [|i idxs IH]; intros st; simpl.
  - by rewrite app_nil_r.
  - by rewrite IH, stepBody_ids, <- app_assoc.
Qed.

Lemma fold_stepBody_ends steps idxs st :
  endpoints <$> built_edges (fold_left (stepBody steps) idxs st) =
  (endpoints <$> built_edges st) ++
  (i ← idxs; if Nat.ltb 0 i then [(agentIdOf i, agentIdOf (i + 1))] else []).
Proof.
  revert st. induction idxs as [|i idxs IH]; intros st; cbn [fold_left].
  - by rewrite app_nil_r.
  - by rewrite IH, stepBody_ends, bind_cons, <- app_assoc.
Qed.

Lemma fold_stepBody_inputs steps idxs st ids :
  (forall i, i ∈ idxs -> 0 < i -> agentIdOf i ∈ ids) ->
  inputsResolved ids (built_agents st) ->
  inputsResolved ids (built_agents (fold_left (stepBody steps) idxs st)).
Proof.
  revert st. induction idxs as [|i idxs IH]; intros st Hi Hst; simpl; [done|].
  apply IH.
  - intros j Hj. apply Hi. set_solver.
  - apply stepBody_inputs; [|done]. apply Hi. set_solver.
Qed.

Lemma bind_seq_ends s m :
  1 <= s ->
  (i ← seq s m; if Nat.ltb 0 i then [(agentIdOf i, agentIdOf (i + 1))] else []) =
  (fun i => (agentIdOf i, agentIdOf (S i))) <$> seq s m.
Proof.
  revert s. induction m as [|m IH]; intros s Hs; [done|].
  cbn [seq]. rewrite bind_cons, fmap_cons, IH by lia.
  destruct (Nat.ltb_spec 0 s); [|lia]. by rewrite Nat.add_1_r.
Qed.

Lemma buildFromSteps_chain steps :
  let built := buildFromSteps steps in
  let n := List.length steps in
  agent_id <$> built_agents built = chainIds n /\
  endpoints <$> built_edges built = chainEnds n /\
  inputsResolved (chainIds n) (built_agents built).
Proof.
  cbv zeta. unfold buildFromSteps. split; [|split].
  - rewrite fold_stepBody_ids. simpl. unfold chainIds.
    rewrite <- (fmap_S_seq 0), <- list_fmap_compose.
    apply list_fmap_ext. intros _ i _. simpl. by rewrite Nat.add_1_r.
  - rewrite fold_stepBody_ends. simpl. unfold chainEnds.
    destruct (List.length steps) as [|m]; [done|].
    cbn [seq]. rewrite bind_cons. simpl. rewrite Nat.sub_0_r.
    by apply bind_seq_ends.
  - apply fold_stepBody_inputs; [|constructor].
    intros i Hi Hpos. apply elem_of_seq in Hi. apply elem_of_chainIds.
    exists i. split; [lia|done].
Qed.

(** ** Plans whose edges all run forward are acyclic *)

Lemma forward_tc plan x y :
  forwardPlan plan = true -> tc (arc plan) x y ->
  exists i j, indexOf x (agent_id <$> plan_agents plan) = Some i /\
              indexOf y (agent_id <$> plan_agents plan) = Some j /\ i < j.
Proof.
  intros Hf. unfold forwardPlan in Hf. rewrite forallb_forall in Hf.
  assert (Harc : forall x y, arc plan x y ->
            exists i j, indexOf x (agent_id <$> plan_agents plan) = Some i /\
                        indexOf y (agent_id <$> plan_agents plan) = Some j /\ i < j).
  { intros x' y' (e & He & <- & <-).
    specialize (Hf (endpoints e)). unfold forward, endpoints in Hf. simpl in Hf.
    destruct (indexOf (edge_from e) _) as [i|], (indexOf (edge_to e) _) as [j|];
      try (discriminate Hf; apply list_elem_of_In, list_elem_of_fmap; eauto).
    exists i, j. repeat split. apply Nat.ltb_lt, Hf.
    apply list_elem_of_In, list_elem_of_fmap. eauto. }
  induction 1 as [x y H|x y z H _ IH].
  - by apply Harc.
  - apply Harc in H as (i & j & Hi & Hj & Hij).
    destruct IH as (j' & k & Hj' & Hk & Hjk).
    exists i, k. repeat split; [done|done|]. simplify_eq. lia.
Qed.

Lemma forward_acyclic plan : forwardPlan plan = true -> acyclic plan.
Proof.
  intros Hf x Hx. apply (forward_tc plan x x Hf) in Hx as (i & j & Hi & Hj & Hij).
  simplify_eq. lia.
Qed.

Lemma indexOf_chain k s m :
  indexOf (agentIdOf k) (agentIdOf <$> seq s m) =
  if Nat.leb s k && Nat.ltb k (s + m) then Some (k - s) else None.
Proof.
  revert s. induction m as [|m IH]; intros s.
  - simpl. destruct (Nat.leb_spec s k), (Nat.ltb_spec k (s + 0)); simpl; try done; lia.
  - cbn [seq]. rewrite fmap_cons. cbn [indexOf]. rewrite agentIdOf_eqb.
    destruct (Nat.eqb_spec s k) as [->|Hne].
    + destruct (Nat.leb_spec k k), (Nat.ltb_spec k (k + S m)); simpl; try lia.
      by rewrite Nat.sub_diag.
    + rewrite IH.
      destruct (Nat.leb_spec (S s) k), (Nat.leb_spec s k),
        (Nat.ltb_spec k (S s + m)), (Nat.ltb_spec k (s + S m)); simpl; try done; try lia.
      f_equal. lia.
Qed.

Lemma chain_forward plan n :
  agent_id <$> plan_agents plan = chainIds n ->
  endpoints <$> plan_edges plan = chainEnds n ->
  forwardPlan plan = true.
Proof.
  intros Hids Hends. unfold forwardPlan. rewrite Hids, Hends.
  apply forallb_forall. intros ends Hin.
  apply list_elem_of_In in Hin. unfold chainEnds in Hin.
  apply list_elem_of_fmap in Hin as (i & -> & Hi). apply elem_of_seq in Hi.
  unfold forward, chainIds. cbn [fst snd]. rewrite !indexOf_chain.
  destruct (Nat.leb_spec 1 i), (Nat.ltb_spec i (1 + n)),
    (Nat.leb_spec 1 (S i)), (Nat.ltb_spec (S i) (1 + n)); simpl; try lia.
  apply Nat.ltb_lt. lia.
Qed.

Lemma minimalPlan_valid d :
  validatePlan (minimalPlan d) = Some {| ok := true; errors := []; warnings := [] |}.
Proof. reflexivity. Qed.

Lemma canned_valid template :
  template ∈ [support_triage; lead_qualification; weekly_report] ->
  exists r, validatePlan template = Some r /\ errors r = [] /\ ok r = true.
Proof.
  rewrite !elem_of_cons, elem_of_nil.
  intros [->|[->|[->|[]]]]; eexists; (split; [vm_compute; reflexivity|done]).
Qed.

(** What holds of every plan the planner returns. *)
Lemma planner_plan_wellformed d :
  let p := planFromDescription d in
  edgesResolved (agentIdsOf p) (plan_edges p) /\
  inputsResolved (agentIdsOf p) (plan_agents p) /\
  forwardPlan p = true.
Proof.
  cbv zeta. unfold planFromDescription.
  destruct (cannedFor d) as [t|] eqn:Hc.
  - apply cannedFor_member in Hc. rewrite !elem_of_cons, elem_of_nil in Hc.
    destruct Hc as [->|[->|[->|[]]]];
      (split; [|split]);
      solve [apply (bool_decide_unpack _); vm_compute; exact I | vm_compute; reflexivity].
  - destruct (parseSteps d) as [|step steps] eqn:Hsteps.
    + split; [|split];
        solve [apply (bool_decide_unpack _); vm_compute; exact I | vm_compute; reflexivity].
    + destruct (buildFromSteps_chain (step :: steps)) as (Hids & Hends & Hin).
      set (p := {| plan_version := "0.1";
                   plan_title := generateTitle d;
                   plan_description := d;
                   plan_agents := built_agents (buildFromSteps (step :: steps));
                   plan_edges := built_edges (buildFromSteps (step :: steps));
                   plan_dataSchemas := Some (built_schemas (buildFromSteps (step :: steps)));
                   plan_notes := None |}).
      rewrite (chain_agentIds p _ Hids). split; [|split].
      * by apply chain_edgesResolved.
      * exact Hin.
      * by eapply chain_forward.
Qed.

(** ** Orphaned outputs *)

Lemma outputKey_inj a b a' b' :
  colonFree a = true -> colonFree a' = true ->
  outputKey a b = outputKey a' b' -> a = a' /\ b = b'.
Proof.
  unfold outputKey. revert a'.
  induction a as [|c a IH]; intros [|c' a'] Ha Ha' H.
  - change (String ":" b = String ":" b') in H. by injection H as ->.
  - change (String ":" b = String c' (a' +:+ ":" +:+ b')) in H.
    injection H as <- _. simpl in Ha'. rewrite ?Ascii.eqb_refl in Ha'. done.
  - change (String c (a +:+ ":" +:+ b) = String ":" b') in H.
    injection H as -> _. simpl in Ha. rewrite ?Ascii.eqb_refl in Ha. done.
  - change (String c (a +:+ ":" +:+ b) = String c' (a' +:+ ":" +:+ b')) in H.
    injection H as -> H. simpl in Ha, Ha'.
    apply andb_true_iff in Ha as [_ Ha]. apply andb_true_iff in Ha' as [_ Ha'].
    destruct (IH a' Ha Ha' H) as [-> ->]. done.
Qed.

(** When no agent id and no edge source contains a colon, the keys are
    unambiguous and the validator warns exactly as specified. *)
Lemma danglingWarnings_colonFree plan :
  Forall (fun a => colonFree (agent_id a) = true) (plan_agents plan) ->
  Forall (fun e => colonFree (edge_from e) = true) (plan_edges plan) ->
  danglingWarnings plan = orphanWarnings plan.
Proof.
  intros Hagents Hedges. unfold danglingWarnings, orphanWarnings.
  apply Forall_bind_ext. eapply Forall_impl; [exact Hagents|].
  intros agent Hid. simpl in Hid. apply Forall_bind_ext, Forall_forall.
  intros output _.
  assert (Hkey : outputKey (agent_id agent) (output_name output)
                   ∈ consumedOutputsOf (plan_edges plan) <->
                 existsb (fun e => leaves agent e
                                   && String.eqb (edge_data e) (output_name output))
                         (plan_edges plan) = true).
  { unfold consumedOutputsOf. rewrite elem_of_list_to_set, list_elem_of_fmap.
    rewrite existsb_exists. split.
    - intros (e & Heq & He). exists e. split; [by apply list_elem_of_In|].
      apply outputKey_inj in Heq as [H1 H2]; [| done |].
      + unfold leaves. by rewrite <- H1, <- H2, !String.eqb_refl.
      + rewrite Forall_forall in Hedges. by apply Hedges.
    - intros (e & He & Hb). apply andb_true_iff in Hb as [Hl Hd].
      unfold leaves in Hl. apply String.eqb_eq in Hl, Hd.
      exists e. split; [by rewrite Hl, Hd|by apply list_elem_of_In]. }
  destruct (existsb (fun e => leaves agent e && _) _) eqn:Hex.
  - rewrite bool_decide_eq_false_2; [by rewrite andb_false_r|].
    intros Hn. apply Hn. by apply Hkey.
  - rewrite bool_decide_eq_true_2; [unfold leaves; by rewrite andb_true_r|].
    intros Hin. apply Hkey in Hin. done.
Qed.

(** A terminal agent is never warned about. *)
Lemma danglingWarnings_terminal plan :
  Forall (fun a => existsb (leaves a) (plan_edges plan) = false) (plan_agents plan) ->
  danglingWarnings plan = [].
Proof.
  intros H. unfold danglingWarnings.
  induction H as [|a agents Ha _ IH]; [done|].
  rewrite bind_cons, IH, app_nil_r.
  induction (agent_outputs a) as [|o outs IHo]; [done|].
  rewrite bind_cons, IHo, app_nil_r.
  case_bool_decide; [|done]. unfold leaves in Ha. by rewrite Ha.
Qed.

(** ** The flow diagram *)

Lemma replaceAll_go_class fuel p repl prev s :
  String.length s < fuel ->
  replaceAll_go fuel false (Cls p) repl prev s =
  (fix go (s : string) : string :=
     match s with
     | EmptyString => EmptyString
     | String c s' => if p c then repl +:+ go s' else String c (go s')
     end) s.
Proof.
  revert prev s. induction fuel as [|f IH]; intros prev s Hlen; [lia|].
  destruct s as [|c s']; [done|].
  cbn [replaceAll_go exec rmatch]. simpl in Hlen.
  destruct (p c).
  - assert (Hlt : Nat.ltb (String.length s') (String.length (String c s')) = true)
      by (apply Nat.ltb_lt; simpl; lia).
    rewrite Hlt, IH by lia. done.
  - rewrite IH by lia. done.
Qed.

(** Every character outside [A-Za-z0-9] becomes an underscore and every
    other character is kept. *)
Lemma sanitizeId_chars id :
  sanitizeId id = mapChars (fun c => if alnum c then c else "_"%char) id.
Proof.
  unfold sanitizeId, replaceAll. rewrite replaceAll_go_class by lia.
  induction id as [|c id IH]; [done|]. simpl.
  destruct (alnum c); simpl; by rewrite IH.
Qed.

(** ** The level assignment always returns *)

Lemma pending_comm (z1 z2 : Z) (y : nat) :
  Z.to_nat z1 + (Z.to_nat z2 + y) = Z.to_nat z2 + (Z.to_nat z1 + y).
Proof. lia. Qed.

Lemma pending_insert (deg : gmap string Z) k v :
  pending (<[k := v]> deg) + Z.to_nat (getOr0 deg k) = pending deg + Z.to_nat v.
Proof.
  unfold pending, getOr0. destruct (deg !! k) as [v0|] eqn:Hk; simpl.
  - rewrite <- (insert_delete_eq deg).
    rewrite map_fold_insert_L; [| intros; apply pending_comm | apply lookup_delete_eq].
    rewrite (map_fold_delete_L _ _ k v0 deg); [| intros; apply pending_comm | done].
    lia.
  - rewrite map_fold_insert_L; [| intros; apply pending_comm | done]. simpl. lia.
Qed.

Lemma pending_empty : pending ∅ = 0.
Proof. unfold pending. by rewrite map_fold_empty. Qed.

Lemma relax_workLeft lvl st nb : workLeft (relax lvl st nb) <= workLeft st.
Proof.
  unfold workLeft, relax. simpl.
  pose proof (pending_insert (inDegree st) nb (getOr0 (inDegree st) nb - 1)) as H.
  destruct (Z.eqb_spec (getOr0 (inDegree st) nb - 1) 0) as [Hz|Hz].
  - rewrite length_app. simpl. lia.
  - lia.
Qed.

Lemma fold_relax_workLeft lvl ns st :
  workLeft (fold_left (relax lvl) ns st) <= workLeft st.
Proof.
  revert st. induction ns as [|nb ns IH]; intros st; simpl; [lia|].
  etrans; [apply IH|apply relax_workLeft].
Qed.

Lemma kahnStep_workLeft adjacency st st' :
  kahnStep adjacency st = Some st' -> workLeft st' < workLeft st.
Proof.
  unfold kahnStep. destruct (queue st) as [|current rest] eqn:Hq; [done|].
  intros [= <-].
  eapply Nat.le_lt_trans; [apply fold_relax_workLeft|].
  unfold workLeft. simpl. rewrite Hq. simpl. lia.
Qed.

Lemma drain_total adjacency fuel st :
  workLeft st <= fuel -> exists final, drain fuel adjacency st = Some final.
Proof.
  revert st. induction fuel as [|f IH]; intros st Hw; simpl.
  - destruct (kahnStep adjacency st) as [st'|] eqn:Hs; [|eauto].
    apply kahnStep_workLeft in Hs. lia.
  - destruct (kahnStep adjacency st) as [st'|] eqn:Hs; [|eauto].
    apply kahnStep_workLeft in Hs. apply IH. lia.
Qed.

Lemma pending_zeros (agents : list AgentNode) (deg : gmap string Z) :
  pending (fold_left (fun deg agent => <[agent_id agent := 0%Z]> deg) agents deg)
  <= pending deg.
Proof.
  revert deg. induction agents as [|a agents IH]; intros deg; simpl; [lia|].
  etrans; [apply IH|].
  pose proof (pending_insert deg (agent_id a) 0). lia.
Qed.

Lemma pending_edges (edgs : list EdgeSpec) (deg : gmap string Z) :
  pending (fold_left (fun deg edge =>
                        <[edge_to edge := (getOr0 deg (edge_to edge) + 1)%Z]> deg)
                     edgs deg)
  <= pending deg + List.length edgs.
Proof.
  revert deg. induction edgs as [|e edgs IH]; intros deg; simpl; [lia|].
  etrans; [apply IH|].
  pose proof (pending_insert deg (edge_to e) (getOr0 deg (edge_to e) + 1)). lia.
Qed.

Lemma seed_fold_inDegree (agents : list AgentNode) st :
  inDegree (fold_left
    (fun st agent =>
       if (getOr0 (inDegree st) (agent_id agent) =? 0)%Z
       then {| inDegree := inDegree st;
               levels := <[agent_id agent := 0%Z]> (levels st);
               queue := queue st ++ [agent_id agent] |}
       else st) agents st) = inDegree st.
Proof.
  revert st. induction agents as [|a agents IH]; intros st; simpl; [done|].
  rewrite IH. by destruct (_ =? _)%Z.
Qed.

Lemma seed_fold_queue (agents : list AgentNode) st :
  List.length (queue (fold_left
    (fun st agent =>
       if (getOr0 (inDegree st) (agent_id agent) =? 0)%Z
       then {| inDegree := inDegree st;
               levels := <[agent_id agent := 0%Z]> (levels st);
               queue := queue st ++ [agent_id agent] |}
       else st) agents st)) <= List.length (queue st) + List.length agents.
Proof.
  revert st. induction agents as [|a agents IH]; intros st; simpl; [lia|].
  etrans; [apply IH|]. destruct (_ =? _)%Z; simpl; [|lia].
  rewrite length_app. simpl. lia.
Qed.

Lemma seedRoots_inDegree plan : inDegree (seedRoots plan) = initialInDegree plan.
Proof. unfold seedRoots. by rewrite seed_fold_inDegree. Qed.

Lemma seedRoots_workLeft plan : workLeft (seedRoots plan) <= layoutFuel plan.
Proof.
  unfold workLeft, layoutFuel. rewrite seedRoots_inDegree.
  pose proof (seed_fold_queue (plan_agents plan)
                {| inDegree := initialInDegree plan; levels := ∅; queue := [] |}) as Hq.
  simpl in Hq. fold (seedRoots plan) in Hq.
  unfold initialInDegree.
  pose proof (pending_edges (plan_edges plan)
    (fold_left (fun deg agent => <[agent_id agent := 0%Z]> deg) (plan_agents plan) ∅)) as He.
  pose proof (pending_zeros (plan_agents plan) ∅) as Hz. rewrite pending_empty in Hz.
  lia.
Qed.

(** Every plan is laid out: the fuel passed by [computeLevels] suffices. *)
Lemma computeLevels_total plan : exists final, computeLevels plan = Some final.
Proof. apply drain_total, seedRoots_workLeft. Qed.

(** ** Level groups and node positions *)

Lemma groupAt_pushGroup level agent groups l :
  groupAt l (pushGroup level agent groups) =
  if (l =? level)%Z then Some (default [] (groupAt level groups) ++ [agent])
  else groupAt l groups.
Proof.
  induction groups as [|[l0 members] groups IH]; simpl.
  - rewrite Z.eqb_sym. by destruct (l =? level)%Z.
  - destruct (Z.eqb_spec l0 level) as [->|Hne]; simpl.
    + by destruct (Z.eqb_spec level l) as [->|Hne]; rewrite ?Z.eqb_refl;
        [|destruct (Z.eqb_spec l level); [congruence|]].
    + destruct (Z.eqb_spec l0 l) as [->|Hne'].
      * by destruct (Z.eqb_spec l level); [congruence|].
      * exact IH.
Qed.

Section Grouping.
Variable col : AgentNode -> Z.

Lemma groupAt_fold agents groups l :
  groupAt l (fold_left (fun g a => pushGroup (col a) a g) agents groups) =
  match List.filter (fun a => (col a =? l)%Z) agents with
  | [] => groupAt l groups
  | members => Some (default [] (groupAt l groups) ++ members)
  end.
Proof.
  revert groups. induction agents as [|a agents IH]; intros groups; simpl; [done|].
  rewrite IH, groupAt_pushGroup. rewrite (Z.eqb_sym l (col a)).
  destruct (Z.eqb_spec (col a) l) as [->|Hne]; simpl.
  - destruct (List.filter _ agents); simpl; [done|]. by rewrite <- app_assoc.
  - done.
Qed.

Lemma length_nodes_pushGroup level agent groups :
  List.length (pushGroup level agent groups ≫= placeGroup) =
  S (List.length (groups ≫= placeGroup)).
Proof.
  induction groups as [|[l0 members] groups IH]; cbn [pushGroup].
  - rewrite bind_cons. simpl. done.
  - destruct (l0 =? level)%Z.
    + rewrite !bind_cons, !length_app. unfold placeGroup.
      rewrite !length_imap, length_app. simpl. lia.
    + rewrite !bind_cons, !length_app, IH. lia.
Qed.

Lemma length_nodes_fold agents groups :
  List.length (fold_left (fun g a => pushGroup (col a) a g) agents groups ≫= placeGroup) =
  List.length (groups ≫= placeGroup) + List.length agents.
Proof.
  revert groups. induction agents as [|a agents IH]; intros groups; simpl; [lia|].
  rewrite IH, length_nodes_pushGroup. lia.
Qed.
End Grouping.

Lemma groupAt_elem level groups members :
  groupAt level groups = Some members -> (level, members) ∈ groups.
Proof.
  induction groups as [|[l0 ms] groups IH]; simpl; [done|].
  destruct (Z.eqb_spec l0 level) as [->|Hne].
  - intros [= ->]. set_solver.
  - intros H. apply IH in H. set_solver.
Qed.

Lemma filter_lookup_index {A} (P : A -> bool) (l : list A) k a :
  l !! k = Some a -> P a = true ->
  List.filter P l !! List.length (List.filter P (List.firstn k l)) = Some a.
Proof.
  revert k. induction l as [|x l IH]; intros k Hk HP; [done|].
  destruct k as [|k]; simpl in *.
  - injection Hk as ->. by rewrite HP.
  - destruct (P x); simpl; by apply IH.
Qed.

Lemma placeGroup_lookup level members index agent :
  members !! index = Some agent ->
  placeGroup (level, members) !! index =
  Some (nodeAt level (List.length members) index agent).
Proof.
  intros H. unfold placeGroup. rewrite list_lookup_imap, H. reflexivity.
Qed.

(** The block of a column is centred on y = 0: the division by 2 is exact. *)
Lemma column_start_exact (n : Z) :
  (2 * (- (n * NODE_HEIGHT + (n - 1) * VERTICAL_GAP) / 2) =
   - (n * NODE_HEIGHT + (n - 1) * VERTICAL_GAP))%Z.
Proof.
  unfold NODE_HEIGHT, VERTICAL_GAP.
  replace (- (n * 100 + (n - 1) * 40))%Z with ((20 - 70 * n) * 2)%Z by lia.
  rewrite Z.div_mul by lia. lia.
Qed.

(** Every agent of the plan has its node, in the column of its level and at
    the height of its rank among the agents of that column. *)
Lemma layout_places_agent plan final k agent :
  computeLevels plan = Some final ->
  plan_agents plan !! k = Some agent ->
  exists r, planToReactFlow plan = Some r /\
    List.length (nodes r) = List.length (plan_agents plan) /\
    nodeAt (columnOf final agent)
           (List.length (columnMates final (plan_agents plan) agent))
           (List.length (columnMates final (List.firstn k (plan_agents plan)) agent))
           agent ∈ nodes r.
Proof.
  intros Hfinal Hk. unfold planToReactFlow. rewrite Hfinal.
  eexists. split; [reflexivity|]. cbn [nodes]. unfold levelGroupsOf.
  split.
  - by rewrite (length_nodes_fold (fun a => getOr0 (levels final) (agent_id a))).
  - apply list_elem_of_bind.
    exists (columnOf final agent, columnMates final (plan_agents plan) agent).
    split.
    + eapply list_elem_of_lookup_2. apply placeGroup_lookup.
      unfold columnMates. apply (filter_lookup_index _ _ _ _ Hk), Z.eqb_refl.
    + apply groupAt_elem.
      rewrite (groupAt_fold (fun a => getOr0 (levels final) (agent_id a))).
      change (List.filter _ (plan_agents plan))
        with (columnMates final (plan_agents plan) agent).
      assert (Hin : agent ∈ columnMates final (plan_agents plan) agent).
      { unfold columnMates. apply list_elem_of_In, filter_In. split.
        - apply list_elem_of_In. by eapply list_elem_of_lookup_2.
        - apply Z.eqb_refl. }
      destruct (columnMates final (plan_agents plan) agent); [set_solver|reflexivity].
Qed.

(** ** The maps of the layout *)

Lemma lookup_fold_insert_agents (agents : list AgentNode)
    (m : gmap string (list string)) k :
  fold_left (fun adj agent => <[agent_id agent := []]> adj) agents m !! k =
  if has (agent_id <$> agents) k then Some [] else m !! k.
Proof.
  revert m. induction agents as [|a agents IH]; intros m; [done|].
  cbn [fold_left]. rewrite IH, fmap_cons. unfold has. cbn [existsb].
  fold (has (agent_id <$> agents) k).
  destruct (has (agent_id <$> agents) k) eqn:Hk.
  - by rewrite orb_true_r.
  - rewrite orb_false_r. destruct (String.eqb k (agent_id a)) eqn:Hka.
    + apply String.eqb_eq in Hka. subst. by rewrite lookup_insert_eq.
    + apply String.eqb_neq in Hka. by rewrite lookup_insert_ne.
Qed.

Lemma layoutAdjacency_lookup plan k :
  layoutAdjacency plan !! k =
  if has (agent_id <$> plan_agents plan) k
  then Some (outgoing (plan_edges plan) k) else None.
Proof.
  unfold layoutAdjacency. rewrite lookup_fold_alter, lookup_fold_insert_agents.
  destruct (has _ k); simpl; [done|]. by rewrite lookup_empty.
Qed.

Lemma getOr0_insert (m : gmap string Z) k v k' :
  getOr0 (<[k := v]> m) k' = if String.eqb k k' then v else getOr0 m k'.
Proof.
  unfold getOr0. destruct (String.eqb_spec k k') as [->|Hne].
  - by rewrite lookup_insert_eq.
  - by rewrite lookup_insert_ne.
Qed.

Lemma getOr0_fold_zeros (agents : list AgentNode) (m : gmap string Z) k :
  getOr0 m k = 0%Z ->
  getOr0 (fold_left (fun deg agent => <[agent_id agent := 0%Z]> deg) agents m) k = 0%Z.
Proof.
  revert m. induction agents as [|a agents IH]; intros m Hm; [done|].
  cbn [fold_left]. apply IH. rewrite getOr0_insert. by destruct (String.eqb _ _).
Qed.

Lemma getOr0_fold_edges (edges : list EdgeSpec) (m : gmap string Z) k :
  getOr0 (fold_left (fun deg edge =>
                       <[edge_to edge := (getOr0 deg (edge_to edge) + 1)%Z]> deg)
                    edges m) k =
  (getOr0 m k + Z.of_nat (incoming edges k))%Z.
Proof.
  revert m. induction edges as [|e edges IH]; intros m.
  - unfold incoming. simpl. lia.
  - cbn [fold_left]. rewrite IH, getOr0_insert. unfold incoming. cbn [List.filter].
    destruct (String.eqb_spec (edge_to e) k) as [->|Hne]; cbn [List.length]; lia.
Qed.

(** The in-degree the loop starts from is the number of incoming edges. *)
Lemma initialInDegree_lookup plan k :
  getOr0 (initialInDegree plan) k = Z.of_nat (incoming (plan_edges plan) k).
Proof.
  unfold initialInDegree. rewrite getOr0_fold_edges, getOr0_fold_zeros; [lia|done].
Qed.

Lemma kahnStep_cons adjacency st current rest ns :
  queue st = current :: rest ->
  adjacency !! current = Some ns ->
  kahnStep adjacency st =
  Some (fold_left (relax (getOr0 (levels st) current)) ns
          {| inDegree := inDegree st; levels := levels st; queue := rest |}).
Proof. intros Hq Hn. unfold kahnStep. by rewrite Hq, Hn. Qed.

Lemma drain_step f adjacency st st' :
  kahnStep adjacency st = Some st' ->
  drain (S f) adjacency st = drain f adjacency st'.
Proof. intros H. simpl. by rewrite H. Qed.

Lemma drain_done f adjacency st :
  queue st = [] -> drain f adjacency st = Some st.
Proof. intros H. destruct f; simpl; unfold kahnStep; by rewrite H. Qed.

Section ThreeLayout.
Variables (a b c d1 d2 : string) (A B C : AgentNode) (q : AgentPlan).
Hypothesis Hnd : NoDup [a; b; c].
Hypothesis HA : agent_id A = a.
Hypothesis HB : agent_id B = b.
Hypothesis HC : agent_id C = c.
Hypothesis Hagents : plan_agents q = [A; B; C].
Hypothesis Hedges : plan_edges q = [mkEdge a b d1; mkEdge b c d2].

Lemma line_distinct : a ≠ b /\ a ≠ c /\ b ≠ c.
Proof.
  apply NoDup_cons in Hnd as [Ha Hnd']. apply NoDup_cons in Hnd' as [Hb _].
  set_solver.
Qed.

Ltac eqb_line :=
  rewrite ?String.eqb_refl,
    ?(proj2 (String.eqb_neq a b)), ?(proj2 (String.eqb_neq b a)),
    ?(proj2 (String.eqb_neq a c)), ?(proj2 (String.eqb_neq c a)),
    ?(proj2 (String.eqb_neq b c)), ?(proj2 (String.eqb_neq c b))
    by (destruct line_distinct as (? & ? & ?); done).

Lemma line_adjacency :
  layoutAdjacency q !! a = Some [b] /\
  layoutAdjacency q !! b = Some [c] /\
  layoutAdjacency q !! c = Some [].
Proof.
  rewrite !layoutAdjacency_lookup, Hagents, Hedges. unfold has, outgoing.
  cbn [fmap list_fmap existsb List.filter edge_from edge_to]. rewrite HA, HB, HC.
  eqb_line. cbn. done.
Qed.

Lemma line_inDegree :
  getOr0 (initialInDegree q) a = 0%Z /\
  getOr0 (initialInDegree q) b = 1%Z /\
  getOr0 (initialInDegree q) c = 1%Z.
Proof.
  rewrite !initialInDegree_lookup, Hedges. unfold incoming.
  cbn [List.filter edge_to]. eqb_line. cbn. done.
Qed.

Lemma line_seed :
  seedRoots q =
  {| inDegree := initialInDegree q; levels := <[a := 0%Z]> ∅; queue := [a] |}.
Proof.
  destruct line_inDegree as (Ha & Hb & Hc).
  unfold seedRoots. rewrite Hagents. cbn [fold_left inDegree levels queue].
  rewrite HA, HB, HC, Ha. cbn [Z.eqb inDegree levels queue].
  rewrite Hb. cbn [Z.eqb inDegree levels queue].
  rewrite Hc. reflexivity.
Qed.

Lemma getOr0_empty k : getOr0 ∅ k = 0%Z.
Proof. unfold getOr0. by rewrite lookup_empty. Qed.

Ltac zcalc :=
  repeat match goal with
         | |- context [Z.sub ?x ?y] =>
             let v := eval vm_compute in (Z.sub x y) in progress change (Z.sub x y) with v
         | |- context [Z.add ?x ?y] =>
             let v := eval vm_compute in (Z.add x y) in progress change (Z.add x y) with v
         | |- context [Z.max ?x ?y] =>
             let v := eval vm_compute in (Z.max x y) in progress change (Z.max x y) with v
         | |- context [Z.eqb ?x ?y] =>
             let v := eval vm_compute in (Z.eqb x y) in progress change (Z.eqb x y) with v
         end.

Ltac relax_all :=
  cbn [fold_left]; unfold relax; cbn [inDegree levels queue];
  rewrite ?getOr0_insert; eqb_line; rewrite ?getOr0_empty.

Lemma line_levels :
  computeLevels q =
  Some {| inDegree := <[c := 0%Z]> (<[b := 0%Z]> (initialInDegree q));
          levels := <[c := 2%Z]> (<[b := 1%Z]> (<[a := 0%Z]> ∅));
          queue := [] |}.
Proof.
  destruct line_adjacency as (Aa & Ab & Ac).
  destruct line_inDegree as (Da & Db & Dc).
  unfold computeLevels, layoutFuel. rewrite line_seed, Hagents, Hedges.
  cbn [List.length Nat.add].
  erewrite drain_step by (eapply kahnStep_cons; [reflexivity|exact Aa]).
  relax_all. rewrite Db. zcalc. cbn [app].
  erewrite drain_step by (eapply kahnStep_cons; [reflexivity|exact Ab]).
  relax_all. rewrite Dc. zcalc. cbn [app].
  erewrite drain_step by (eapply kahnStep_cons; [reflexivity|exact Ac]).
  relax_all.
  by rewrite drain_done.
Qed.

Lemma line_columns final :
  computeLevels q = Some final ->
  columnOf final A = 0%Z /\ columnOf final B = 1%Z /\ columnOf final C = 2%Z.
Proof.
  rewrite line_levels. intros [= <-]. unfold columnOf. cbn [levels].
  rewrite HA, HB, HC, !getOr0_insert. eqb_line. done.
Qed.

Lemma line_nodes :
  exists r, planToReactFlow q = Some r /\
    nodes r = [nodeAt 0 1 0 A; nodeAt 1 1 0 B; nodeAt 2 1 0 C].
Proof.
  unfold planToReactFlow. rewrite line_levels. eexists. split; [reflexivity|].
  cbn [nodes levels]. unfold levelGroupsOf. rewrite Hagents.
  cbn [fold_left]. rewrite HA, HB, HC, !getOr0_insert. eqb_line.
  reflexivity.
Qed.
End ThreeLayout.

Lemma three_agents_inv (a b c : string) (agents : list AgentNode) :
  agent_id <$> agents = [a; b; c] ->
  exists A B C, agents = [A; B; C] /\
                agent_id A = a /\ agent_id B = b /\ agent_id C = c.
Proof.
  destruct agents as [|A [|B [|C [|D agents]]]]; try done.
  intros [= <- <- <-]. by exists A, B, C.
Qed.

(** ** Which agents are queued *)

Lemma relax_inDegree_le lvl st nb id :
  (getOr0 (inDegree (relax lvl st nb)) id <= getOr0 (inDegree st) id)%Z.
Proof.
  unfold relax. cbn [inDegree]. rewrite getOr0_insert.
  destruct (String.eqb_spec nb id) as [->|]; lia.
Qed.

Lemma relax_settled lvl st nb : queueSettled st -> queueSettled (relax lvl st nb).
Proof.
  intros Hst id Hid.
  pose proof (relax_inDegree_le lvl st nb id) as Hle.
  unfold relax in *. cbn [inDegree queue] in *.
  destruct (Z.eqb_spec (getOr0 (inDegree st) nb - 1) 0) as [Hz|Hz].
  - apply elem_of_app in Hid as [Hid|Hid%list_elem_of_singleton].
    + specialize (Hst id Hid). lia.
    + subst id. rewrite getOr0_insert, String.eqb_refl. lia.
  - specialize (Hst id Hid). lia.
Qed.

Lemma fold_relax_inDegree_le lvl ns st id :
  (getOr0 (inDegree (fold_left (relax lvl) ns st)) id <= getOr0 (inDegree st) id)%Z.
Proof.
  revert st. induction ns as [|nb ns IH]; intros st; cbn [fold_left]; [lia|].
  etrans; [apply IH|apply relax_inDegree_le].
Qed.

Lemma fold_relax_settled lvl ns st :
  queueSettled st -> queueSettled (fold_left (relax lvl) ns st).
Proof.
  revert st. induction ns as [|nb ns IH]; intros st Hst; cbn [fold_left]; [done|].
  by apply IH, relax_settled.
Qed.

Lemma kahnStep_inDegree_le adjacency st st' id :
  kahnStep adjacency st = Some st' ->
  (getOr0 (inDegree st') id <= getOr0 (inDegree st) id)%Z.
Proof.
  unfold kahnStep. destruct (queue st) as [|current rest]; [done|].
  intros [= <-]. etrans; [apply fold_relax_inDegree_le|]. cbn [inDegree]. lia.
Qed.

Lemma kahnStep_settled adjacency st st' :
  kahnStep adjacency st = Some st' -> queueSettled st -> queueSettled st'.
Proof.
  unfold kahnStep. destruct (queue st) as [|current rest] eqn:Hq; [done|].
  intros [= <-] Hst. apply fold_relax_settled.
  intros id Hid. cbn [inDegree queue] in *. apply Hst. rewrite Hq. set_solver.
Qed.

Lemma seedRoots_settled plan : queueSettled (seedRoots plan).
Proof.
  unfold seedRoots.
  assert (H0 : queueSettled {| inDegree := initialInDegree plan; levels := ∅; queue := [] |})
    by (intros id Hid; cbn in Hid; set_solver).
  revert H0. generalize {| inDegree := initialInDegree plan; levels := ∅; queue := [] |}.
  induction (plan_agents plan) as [|a agents IH]; intros st Hst; cbn [fold_left]; [done|].
  apply IH. destruct (Z.eqb_spec (getOr0 (inDegree st) (agent_id a)) 0) as [Hz|Hz]; [|done].
  intros id Hid. cbn [inDegree queue] in *.
  apply elem_of_app in Hid as [Hid|Hid%list_elem_of_singleton].
  - by apply Hst.
  - subst id. lia.
Qed.

Lemma passesThrough_settled plan st : passesThrough plan st -> queueSettled st.
Proof.
  unfold passesThrough. intros H.
  eapply (rtc_ind_r (fun st => queueSettled st)); [| |exact H].
  - apply seedRoots_settled.
  - intros st1 st2 _ Hstep IH. by eapply kahnStep_settled.
Qed.

Lemma loop_inDegree_le plan st st' id :
  rtc (loopStep plan) st st' ->
  (getOr0 (inDegree st') id <= getOr0 (inDegree st) id)%Z.
Proof.
  induction 1 as [|st1 st2 st3 Hstep _ IH]; [lia|].
  etrans; [exact IH|]. by eapply kahnStep_inDegree_le.
Qed.

Lemma drain_reaches plan fuel st final :
  drain fuel (layoutAdjacency plan) st = Some final ->
  rtc (loopStep plan) st final /\ kahnStep (layoutAdjacency plan) final = None.
Proof.
  revert st. induction fuel as [|f IH]; intros st; simpl.
  - destruct (kahnStep (layoutAdjacency plan) st) eqn:Hs; [done|].
    intros [= <-]. split; [apply rtc_refl|done].
  - destruct (kahnStep (layoutAdjacency plan) st) as [st'|] eqn:Hs.
    + intros H. apply IH in H as [Hrtc Hnf]. split; [|done].
      eapply rtc_l; [exact Hs|exact Hrtc].
    + intros [= <-]. split; [apply rtc_refl|done].
Qed.

(** The loop is deterministic: every state it passes through leads on to
    the state it stops in. *)
Lemma loop_confluent plan st st1 final :
  rtc (loopStep plan) st st1 ->
  rtc (loopStep plan) st final ->
  kahnStep (layoutAdjacency plan) final = None ->
  rtc (loopStep plan) st1 final.
Proof.
  intros H1. revert final. induction H1 as [|s s' s1 Hstep _ IH]; intros final H Hnf; [done|].
  apply IH; [|done].
  destruct H as [|s0 s0' final Hstep' Hrest].
  - unfold loopStep in Hstep. congruence.
  - unfold loopStep in Hstep, Hstep'. by simplify_eq.
Qed.

(** An id whose in-degree is still above zero when the loop stops was never
    in the queue. *)
Lemma unsettled_never_queued plan final st id :
  computeLevels plan = Some final ->
  (0 < getOr0 (inDegree final) id)%Z ->
  passesThrough plan st -> id ∉ queue st.
Proof.
  intros Hfinal Hpos Hst Hin.
  apply drain_reaches in Hfinal as [Hrtc Hnf].
  pose proof (passesThrough_settled plan st Hst id Hin) as Hle.
  pose proof (loop_confluent plan _ _ _ Hst Hrtc Hnf) as Hon.
  pose proof (loop_inDegree_le plan st final id Hon). lia.
Qed.

(** ** What a match consumes *)

Lemma app_nil_l_str (s : string) : "" +:+ s = s.
Proof. reflexivity. Qed.

Lemma app_cons_str c (s t : string) : String c s +:+ t = String c (s +:+ t).
Proof. reflexivity. Qed.

Lemma app_assoc_str (s t u : string) : (s +:+ t) +:+ u = s +:+ t +:+ u.
Proof. induction s as [|c s IH]; [done|]. by rewrite !app_cons_str, IH. Qed.

Lemma allChars_app p s t : allChars p (s +:+ t) = allChars p s && allChars p t.
Proof.
  induction s as [|c s IH]; [done|]. rewrite app_cons_str. simpl.
  by rewrite IH, andb_assoc.
Qed.

Lemma allChars_impl (p q : ascii -> bool) s :
  (forall c, p c = true -> q c = true) -> allChars p s = true -> allChars q s = true.
Proof.
  intros Hpq. induction s as [|c s IH]; [done|]. simpl.
  rewrite !andb_true_iff. intros [? ?]. auto.
Qed.

Section MatchSound.
Context {A : Type}.

Lemma star_sound p prev s (k : option ascii -> string -> option A) res :
  star p prev s k = Some res ->
  exists m prev' rest,
    s = m +:+ rest /\ allChars p m = true /\ k prev' rest = Some res.
Proof.
  revert prev. induction s as [|c s IH]; intros prev; simpl.
  - intros H. by exists "", prev, "".
  - destruct (p c) eqn:Hp.
    + destruct (star p (Some c) s k) as [a|] eqn:Hs.
      * intros [= <-]. apply IH in Hs as (m & prev' & rest & -> & Hm & Hk).
        exists (String c m), prev', rest. simpl. by rewrite Hp, Hm.
      * intros H. by exists "", prev, (String c s).
    + intros H. by exists "", prev, (String c s).
Qed.

Lemma rmatch_sound ci r : forall prev s (k : option ascii -> string -> option A) res,
  rmatch ci r prev s k = Some res ->
  exists m prev' rest, Consumed ci r s m rest /\ k prev' rest = Some res.
Proof.
  induction r as [a|p|p|p|r1 IH1 r2 IH2|r1 IH1 r2 IH2| | |]; intros prev s k res; simpl.
  - destruct s as [|d s]; [done|]. destruct (char_eq ci a d) eqn:Hd; [|done].
    intros H. exists (String d ""), (Some d), s. split; [|done].
    split; simpl; [done|by rewrite Hd|done|by intros ? ? [= <- _]].
  - destruct s as [|d s]; [done|]. destruct (p d) eqn:Hd; [|done].
    intros H. exists (String d ""), (Some d), s. split; [|done].
    split; simpl; [done|by rewrite Hd|done|by intros ? ? [= <- _]].
  - intros H. apply star_sound in H as (m & prev' & rest & -> & Hm & Hk).
    exists m, prev', rest. split; [|done].
    split; [done|exact Hm|done|].
    intros c m' ->. simpl in Hm. by apply andb_true_iff in Hm as [? _].
  - destruct s as [|d s]; [done|]. destruct (p d) eqn:Hd; [|done].
    intros H. apply star_sound in H as (m & prev' & rest & -> & Hm & Hk).
    exists (String d m), prev', rest. split; [|done].
    split; [done| |done|by intros ? ? [= <- _]].
    cbn [allChars may]. rewrite Hd. exact Hm.
  - intros H. apply IH1 in H as (m1 & prev1 & rest1 & [Hs1 Hm1 Hn1 Hf1] & H).
    apply IH2 in H as (m2 & prev2 & rest2 & [Hs2 Hm2 Hn2 Hf2] & H).
    exists (m1 +:+ m2), prev2, rest2. split; [|done]. split.
    + by rewrite Hs1, Hs2, app_assoc_str.
    + rewrite allChars_app. apply andb_true_iff. split.
      * eapply allChars_impl; [|exact Hm1]. simpl. intros c ->. done.
      * eapply allChars_impl; [|exact Hm2]. simpl. intros c ->. by rewrite orb_true_r.
    + simpl. intros Hnull Hm. destruct m1; [|done]. rewrite app_nil_l_str in Hm.
      apply andb_false_iff in Hnull as [Hnull|Hnull].
      * by apply (Hn1 Hnull).
      * by apply (Hn2 Hnull).
    + simpl. intros c m' Hm. destruct m1 as [|c1 m1].
      * rewrite app_nil_l_str in Hm. rewrite (Hf2 _ _ Hm).
        destruct (nullable r1) eqn:Hnull; [by rewrite orb_true_r|].
        by destruct (Hn1 eq_refl).
      * rewrite app_cons_str in Hm. injection Hm as <- _.
        by rewrite (Hf1 _ _ eq_refl).
  - destruct (rmatch ci r1 prev s k) as [a|] eqn:H1.
    + intros [= <-]. apply IH1 in H1 as (m & prev' & rest & [Hs Hm Hn Hf] & H).
      exists m, prev', rest. split; [|done]. split; [done| | |].
      * eapply allChars_impl; [|exact Hm]. simpl. intros c ->. done.
      * simpl. intros Hnull. apply orb_false_iff in Hnull as [? _]. auto.
      * simpl. intros c m' Hm'. by rewrite (Hf _ _ Hm').
    + intros H2. apply IH2 in H2 as (m & prev' & rest & [Hs Hm Hn Hf] & H).
      exists m, prev', rest. split; [|done]. split; [done| | |].
      * eapply allChars_impl; [|exact Hm]. simpl. intros c ->. by rewrite orb_true_r.
      * simpl. intros Hnull. apply orb_false_iff in Hnull as [_ ?]. auto.
      * simpl. intros c m' Hm'. rewrite (Hf _ _ Hm'). by rewrite orb_true_r.
  - destruct (xorb _ _); [|done]. intros H. exists "", prev, s. split; [|done].
    split; simpl; done.
  - destruct s; [|done]. intros H. exists "", prev, "". split; [|done].
    split; simpl; done.
  - intros H. exists "", prev, s. split; [|done]. split; simpl; done.
Qed.
End MatchSound.

Lemma exec_sound ci r prev s prev' rest :
  exec ci r prev s = Some (prev', rest) ->
  exists m, Consumed ci r s m rest.
Proof.
  unfold exec. intros H. apply rmatch_sound in H as (m & p & rest' & Hc & [= _ <-]).
  by exists m.
Qed.

(** ** Checking a property of every character *)

Lemma forall_ascii (P : ascii -> bool) :
  forallb P allAscii = true -> forall c, P c = true.
Proof.
  intros H c. rewrite forallb_forall in H. apply H.
  apply list_elem_of_In. unfold allAscii. apply list_elem_of_fmap.
  exists (nat_of_ascii c). split; [by rewrite ascii_nat_embedding|].
  apply elem_of_seq. pose proof (nat_ascii_bounded c). lia.
Qed.

(** ** Delimiters never touch a keyword *)

Lemma delimiter_nullable ci r : isDelimiter ci r -> nullable r = false.
Proof.
  intros H.
  assert (Hall : forallb (fun d => negb (nullable (snd d))) delimiters = true)
    by (vm_compute; reflexivity).
  rewrite forallb_forall in Hall. apply list_elem_of_In, Hall in H.
  by apply negb_true_iff in H.
Qed.

Lemma delimiter_first ci r c :
  isDelimiter ci r -> first ci r c = true -> sepChar c = true.
Proof.
  intros H Hc.
  assert (Hall : forallb (fun d => forallb (fun c => implb (first (fst d) (snd d) c)
                                                          (sepChar c)) allAscii)
                         delimiters = true)
    by (vm_compute; reflexivity).
  rewrite forallb_forall in Hall. apply list_elem_of_In, Hall in H.
  pose proof (forall_ascii _ H c) as Hi. simpl in Hi. by rewrite Hc in Hi.
Qed.

Lemma delimiter_may ci r c :
  isDelimiter ci r -> may ci r c = true -> delimChar c = true.
Proof.
  intros H Hc. unfold delimChar. apply existsb_exists.
  exists (ci, r). split; [by apply list_elem_of_In|done].
Qed.

(** A keyword starts with a letter no delimiter can consume, and holds
    letters only. *)
Lemma keyword_head c :
  Js.lower_char c = "s"%char \/ Js.lower_char c = "l"%char \/ Js.lower_char c = "w"%char ->
  delimChar c = false /\ sepChar c = false.
Proof.
  intros H.
  pose proof (forall_ascii
    (fun c => implb (Ascii.eqb (Js.lower_char c) "s" || Ascii.eqb (Js.lower_char c) "l"
                     || Ascii.eqb (Js.lower_char c) "w")
                    (negb (delimChar c) && negb (sepChar c)))
    ltac:(vm_compute; reflexivity) c) as Hi.
  simpl in Hi.
  assert (Hb : Ascii.eqb (Js.lower_char c) "s" || Ascii.eqb (Js.lower_char c) "l"
               || Ascii.eqb (Js.lower_char c) "w" = true).
  { destruct H as [-> | [-> | ->]]; reflexivity. }
  rewrite Hb in Hi. simpl in Hi. apply andb_true_iff in Hi as [H1 H2].
  by apply negb_true_iff in H1, H2.
Qed.

Lemma keyword_letter c : Js.is_lower (Js.lower_char c) = true -> sepChar c = false.
Proof.
  intros H.
  pose proof (forall_ascii
    (fun c => implb (Js.is_lower (Js.lower_char c)) (negb (sepChar c)))
    ltac:(vm_compute; reflexivity) c) as Hi.
  simpl in Hi. rewrite H in Hi. by apply negb_true_iff in Hi.
Qed.

Lemma length_app_str (s t : string) :
  String.length (s +:+ t) = String.length s + String.length t.
Proof. induction s as [|c s IH]; [done|]. rewrite app_cons_str. simpl. by rewrite IH. Qed.

Lemma app_nil_r_str (s : string) : s +:+ "" = s.
Proof. induction s as [|c s IH]; [done|]. by rewrite app_cons_str, IH. Qed.

Lemma prefix_split (q : ascii -> bool) m rest pre c0 tail :
  m +:+ rest = pre +:+ String c0 tail ->
  allChars q m = true -> q c0 = false ->
  exists pre2, pre = m +:+ pre2 /\ rest = pre2 +:+ String c0 tail.
Proof.
  revert pre. induction m as [|a m IH]; intros pre Heq Hm Hc0.
  - exists pre. by rewrite !app_nil_l_str in *.
  - simpl in Hm. apply andb_true_iff in Hm as [Ha Hm].
    rewrite app_cons_str in Heq. destruct pre as [|b pre].
    + rewrite app_nil_l_str in Heq. injection Heq as -> _. congruence.
    + rewrite app_cons_str in Heq. injection Heq as -> Heq.
      destruct (IH pre Heq Hm Hc0) as (pre2 & -> & ->).
      exists pre2. by rewrite app_cons_str.
Qed.

Section Scan.
Variables (ci : bool) (r : regex).
Hypothesis Hdelim : isDelimiter ci r.

Lemma exec_solid prev c s : sepChar c = false -> exec ci r prev (String c s) = None.
Proof.
  intros Hc. destruct (exec ci r prev (String c s)) as [[p' rest]|] eqn:He; [|done].
  apply exec_sound in He as (m & [Hs _ Hn Hf]).
  destruct m as [|c' m]; [by destruct (Hn (delimiter_nullable _ _ Hdelim))|].
  rewrite app_cons_str in Hs. injection Hs as -> _.
  pose proof (delimiter_first _ _ _ Hdelim (Hf _ _ eq_refl)). congruence.
Qed.

Lemma exec_before prev pre c0 tail p' rest :
  delimChar c0 = false ->
  exec ci r prev (pre +:+ String c0 tail) = Some (p', rest) ->
  exists pre2, rest = pre2 +:+ String c0 tail /\ String.length pre2 < String.length pre.
Proof.
  intros Hc0 He. apply exec_sound in He as (m & [Hs Hm Hn _]).
  destruct (prefix_split (fun c => delimChar c) m rest pre c0 tail (eq_sym Hs)) as (pre2 & -> & ->).
  - eapply allChars_impl; [|exact Hm]. intros c. by apply delimiter_may.
  - done.
  - exists pre2. split; [done|]. rewrite length_app_str.
    destruct m; [by destruct (Hn (delimiter_nullable _ _ Hdelim))|]. simpl. lia.
Qed.

Lemma replaceAll_go_anchored repl c0 c1 c2 c3 post :
  delimChar c0 = false -> sepChar c0 = false -> sepChar c1 = false ->
  sepChar c2 = false -> sepChar c3 = false ->
  forall n pre prev fuel,
    String.length pre <= n -> n + 4 <= fuel ->
    exists pre' post',
      replaceAll_go fuel ci r repl prev
        (pre +:+ String c0 (String c1 (String c2 (String c3 post)))) =
      pre' +:+ String c0 (String c1 (String c2 (String c3 post'))).
Proof.
  intros Hd0 H0 H1 H2 H3. induction n as [|n IH]; intros pre prev fuel Hlen Hfuel.
  - destruct pre; [|simpl in Hlen; lia]. rewrite app_nil_l_str.
    do 4 (destruct fuel as [|fuel]; [lia|]).
    cbn [replaceAll_go]. rewrite !exec_solid by done.
    eexists "", _. rewrite app_nil_l_str. reflexivity.
  - destruct pre as [|p pre]; [apply (IH "" prev fuel); simpl; lia|].
    simpl in Hlen. destruct fuel as [|fuel]; [lia|].
    rewrite app_cons_str. cbn [replaceAll_go].
    destruct (exec ci r prev _) as [[p' rest]|] eqn:He.
    + rewrite <- app_cons_str in He.
      apply exec_before in He as (pre2 & -> & Hlt); [|done]. simpl in Hlt.
      assert (Hb : Nat.ltb (String.length (pre2 +:+ String c0 (String c1 (String c2 (String c3 post)))))
                     (String.length (String p (pre +:+ String c0 (String c1 (String c2 (String c3 post)))))) = true).
      { apply Nat.ltb_lt. simpl. rewrite !length_app_str. simpl. lia. }
      rewrite Hb.
      destruct (IH pre2 p' fuel) as (pre' & post' & ->); [lia|lia|].
      exists (repl +:+ pre'), post'. by rewrite app_assoc_str.
    + destruct (IH pre (Some p) fuel) as (pre' & post' & ->); [lia|lia|].
      exists (String p pre'), post'. by rewrite app_cons_str.
Qed.

Lemma replaceAll_anchored repl s : anchored s -> anchored (replaceAll ci r repl s).
Proof.
  intros (pre & c0 & c1 & c2 & c3 & post & -> & Hd0 & H0 & H1 & H2 & H3).
  unfold replaceAll.
  destruct (replaceAll_go_anchored repl c0 c1 c2 c3 post Hd0 H0 H1 H2 H3
              (String.length pre) pre None
              (S (String.length (pre +:+ String c0 (String c1 (String c2 (String c3 post)))))))
    as (pre' & post' & ->); [lia| |].
  - rewrite length_app_str. simpl. lia.
  - by exists pre', c0, c1, c2, c3, post'.
Qed.
End Scan.

(** ** The scans never run out of fuel *)

(** Above the length of the input the result of a global replacement does
    not depend on the fuel. *)
Lemma replaceAll_go_fuel ci r repl : forall f1 f2 prev s,
  String.length s < f1 -> String.length s < f2 ->
  replaceAll_go f1 ci r repl prev s = replaceAll_go f2 ci r repl prev s.
Proof.
  induction f1 as [|f1 IH]; intros [|f2] prev s H1 H2; try lia.
  cbn [replaceAll_go]. destruct (exec ci r prev s) as [[p' rest]|].
  - destruct (Nat.ltb_spec (String.length rest) (String.length s)).
    + f_equal. apply IH; lia.
    + destruct s as [|c s]; [done|]. simpl in H1, H2.
      do 2 f_equal. apply IH; lia.
  - destruct s as [|c s]; [done|]. simpl in H1, H2. f_equal. apply IH; lia.
Qed.

Lemma exec_rest_length ci r prev s prev' rest :
  exec ci r prev s = Some (prev', rest) -> String.length rest <= String.length s.
Proof.
  intros H. apply exec_sound in H as (m & [-> _ _ _]). rewrite length_app_str. lia.
Qed.

(** The same for a split, above twice the length of the input. *)
Lemma split_go_fuel ci r : forall f1 f2 prev cur s,
  2 * String.length s + (if Js.truthy cur then 1 else 0) < f1 ->
  2 * String.length s + (if Js.truthy cur then 1 else 0) < f2 ->
  split_go f1 ci r prev cur s = split_go f2 ci r prev cur s.
Proof.
  induction f1 as [|f1 IH]; intros [|f2] prev cur s H1 H2; try lia.
  cbn [split_go]. destruct s as [|c s]; [done|].
  assert (Hadv : split_go f1 ci r (Some c) (String c cur) s =
                 split_go f2 ci r (Some c) (String c cur) s).
  { apply IH; simpl in *; destruct (Js.truthy cur); lia. }
  destruct (exec ci r prev (String c s)) as [[p' rest]|] eqn:He; [|exact Hadv].
  apply exec_rest_length in He.
  destruct (Nat.eqb_spec (String.length rest) (String.length (String c s))) as [Heq|Hne];
    cbn [andb].
  - destruct (Js.truthy cur) eqn:Hcur; cbn [negb]; [|exact Hadv].
    f_equal. apply IH; simpl in *; lia.
  - f_equal. apply IH; simpl in *; destruct (Js.truthy cur); lia.
Qed.

(** ** Splitting keeps the keyword in one piece *)

Lemma rev_app_spec (s t : string) : String.rev_app s t = String.rev s +:+ t.
Proof.
  unfold String.rev. revert t. induction s as [|c s IH]; intros t; [done|].
  simpl. rewrite (IH (String c t)), (IH (String c "")).
  by rewrite app_assoc_str.
Qed.

Lemma rev_cons_str c (s : string) : String.rev (String c s) = String.rev s +:+ String c "".
Proof. unfold String.rev at 1. simpl. apply rev_app_spec. Qed.

(** The first piece produced always extends the piece under construction. *)
Lemma split_go_first ci r : forall fuel prev cur s,
  String.length s < fuel ->
  exists y tl, split_go fuel ci r prev cur s = (String.rev cur +:+ y) :: tl.
Proof.
  induction fuel as [|fuel IH]; intros prev cur s Hlen; [lia|].
  destruct s as [|c s]; cbn [split_go].
  - exists "", []. by rewrite app_nil_r_str.
  - simpl in Hlen.
    assert (Hadv : exists y tl, split_go fuel ci r (Some c) (String c cur) s
                                = (String.rev cur +:+ y) :: tl).
    { destruct (IH (Some c) (String c cur) s) as (y & tl & ->); [lia|].
      exists (String c y), tl. by rewrite rev_cons_str, app_assoc_str. }
    destruct (exec ci r prev (String c s)) as [[p' rest]|]; [|exact Hadv].
    destruct (_ && _); [exact Hadv|].
    exists "", (split_go fuel ci r p' "" rest). by rewrite app_nil_r_str.
Qed.

Section Split.
Variables (ci : bool) (r : regex).
Hypothesis Hdelim : isDelimiter ci r.

Lemma split_go_anchored c0 c1 c2 c3 post :
  delimChar c0 = false -> sepChar c0 = false -> sepChar c1 = false ->
  sepChar c2 = false -> sepChar c3 = false ->
  forall n pre prev cur fuel,
    String.length pre <= n -> n + 4 + String.length post < fuel ->
    exists x y,
      x +:+ String c0 (String c1 (String c2 (String c3 y)))
      ∈ split_go fuel ci r prev cur
          (pre +:+ String c0 (String c1 (String c2 (String c3 post)))).
Proof.
  intros Hd0 H0 H1 H2 H3. induction n as [|n IH]; intros pre prev cur fuel Hlen Hfuel.
  - destruct pre; [|simpl in Hlen; lia]. rewrite app_nil_l_str.
    do 4 (destruct fuel as [|fuel]; [lia|]).
    cbn [split_go]. rewrite !(exec_solid ci r Hdelim) by done.
    destruct (split_go_first ci r fuel (Some c3)
                (String c3 (String c2 (String c1 (String c0 cur)))) post)
      as (y & tl & ->); [lia|].
    exists (String.rev cur), y. rewrite !rev_cons_str, !app_assoc_str.
    rewrite !app_cons_str, !app_nil_l_str. set_solver.
  - destruct pre as [|p pre]; [apply (IH "" prev cur fuel); simpl; lia|].
    simpl in Hlen. destruct fuel as [|fuel]; [lia|].
    rewrite app_cons_str. cbn [split_go].
    destruct (exec ci r prev _) as [[p' rest]|] eqn:He.
    + rewrite <- app_cons_str in He.
      apply (exec_before ci r Hdelim) in He as (pre2 & -> & Hlt); [|done].
      simpl in Hlt.
      assert (Hb : Nat.eqb (String.length (pre2 +:+ String c0 (String c1 (String c2 (String c3 post)))))
                     (String.length (String p (pre +:+ String c0 (String c1 (String c2 (String c3 post)))))) = false).
      { apply Nat.eqb_neq. simpl. rewrite !length_app_str. simpl. lia. }
      rewrite Hb. cbn [andb].
      destruct (IH pre2 p' "" fuel) as (x & y & Hin); [lia|lia|].
      exists x, y. set_solver.
    + destruct (IH pre (Some p) (String p cur) fuel) as (x & y & Hin); [lia|lia|].
      by exists x, y.
Qed.

Lemma split_anchored s :
  anchored s ->
  exists x c0 c1 c2 c3 y,
    x +:+ String c0 (String c1 (String c2 (String c3 y))) ∈ split ci r s /\
    sepChar c0 = false /\ sepChar c1 = false /\ sepChar c2 = false /\ sepChar c3 = false.
Proof.
  intros (pre & c0 & c1 & c2 & c3 & post & -> & Hd0 & H0 & H1 & H2 & H3).
  remember (pre +:+ String c0 (String c1 (String c2 (String c3 post)))) as s eqn:Hs.
  assert (Hlen : String.length s = String.length pre + (4 + String.length post))
    by (subst s; rewrite length_app_str; simpl; lia).
  destruct (split_go_anchored c0 c1 c2 c3 post Hd0 H0 H1 H2 H3
              (String.length pre) pre None "" (2 * String.length s + 2))
    as (x & y & Hin); [lia|lia|].
  rewrite <- Hs in Hin.
  exists x, c0, c1, c2, c3, y. split; [|done].
  unfold split. destruct s; [simpl in Hlen; lia|]. exact Hin.
Qed.
End Split.

(** ** Trimming keeps the keyword *)

Lemma sepChar_ws c : sepChar c = false -> Js.is_ws c = false.
Proof.
  unfold sepChar. intros H.
  apply orb_false_iff in H as [H _]. by apply orb_false_iff in H as [H _].
Qed.

Lemma trimEnd_length_cons c s :
  String.length (Js.trimEnd s) <= String.length (Js.trimEnd (String c s)).
Proof. simpl. destruct (Js.trimEnd s); simpl; [lia|lia]. Qed.

Lemma trimEnd_solid c s :
  Js.is_ws c = false -> Js.trimEnd (String c s) = String c (Js.trimEnd s).
Proof. intros H. simpl. destruct (Js.trimEnd s); by rewrite ?H. Qed.

Lemma trimEnd_length_app x s :
  String.length (Js.trimEnd s) <= String.length (Js.trimEnd (x +:+ s)).
Proof.
  induction x as [|c x IH]; [done|]. rewrite app_cons_str.
  etrans; [exact IH|apply trimEnd_length_cons].
Qed.

Lemma trimStart_solid x c s :
  Js.is_ws c = false ->
  exists x', Js.trimStart (x +:+ String c s) = x' +:+ String c s.
Proof.
  intros Hc. induction x as [|d x IH].
  - exists "". rewrite !app_nil_l_str. simpl. by rewrite Hc.
  - rewrite app_cons_str. simpl. destruct (Js.is_ws d); [exact IH|].
    exists (String d x). by rewrite app_cons_str.
Qed.

Lemma trim_keeps_four x c0 c1 c2 c3 y :
  sepChar c0 = false -> sepChar c1 = false -> sepChar c2 = false -> sepChar c3 = false ->
  3 < String.length (Js.trim (x +:+ String c0 (String c1 (String c2 (String c3 y))))).
Proof.
  intros H0%sepChar_ws H1%sepChar_ws H2%sepChar_ws H3%sepChar_ws. unfold Js.trim.
  destruct (trimStart_solid x c0 (String c1 (String c2 (String c3 y))) H0) as (x' & ->).
  eapply Nat.lt_le_trans; [|apply trimEnd_length_app].
  rewrite !trimEnd_solid by done. simpl. lia.
Qed.

(** ** A keyword in the description yields a step *)

Lemma anchored_parseSteps d : anchored d -> parseSteps d <> [].
Proof.
  intros Hd. unfold parseSteps, normalize.
  assert (Hn : anchored
    (replaceAll true RE_comma_and ", "
       (replaceAll false RE_sentence ", "
          (replaceAll true RE_then ", "
             (replaceAll true RE_and_then ", "
                (replaceAll true RE_comma_and_then ", " d)))))).
  { repeat (apply replaceAll_anchored; [unfold isDelimiter, delimiters; set_solver|]).
    exact Hd. }
  apply (split_anchored false RE_comma) in Hn
    as (x & c0 & c1 & c2 & c3 & y & Hin & H0 & H1 & H2 & H3);
    [|unfold isDelimiter, delimiters; set_solver].
  intros Hnil. apply fmap_nil_inv in Hnil.
  assert (Hf : x +:+ String c0 (String c1 (String c2 (String c3 y)))
               ∈ List.filter (fun s => Nat.ltb 3 (String.length (Js.trim s)))
                   (split false RE_comma
                      (replaceAll true RE_comma_and ", "
                         (replaceAll false RE_sentence ", "
                            (replaceAll true RE_then ", "
                               (replaceAll true RE_and_then ", "
                                  (replaceAll true RE_comma_and_then ", " d))))))).
  { apply list_elem_of_In, filter_In. split; [by apply list_elem_of_In|].
    apply Nat.ltb_lt. by apply trim_keeps_four. }
  rewrite Hnil in Hf. set_solver.
Qed.

Lemma startsWith_split w s : Js.startsWith w s = true -> exists post, s = w +:+ post.
Proof.
  revert s. induction w as [|a w IH]; intros s H.
  - by exists s.
  - destruct s as [|b s]; [done|]. simpl in H.
    destruct (Ascii.eqb_spec a b) as [->|]; [|done].
    apply IH in H as (post & ->). by exists post.
Qed.

Lemma includes_split s w : Js.includes s w = true -> exists pre post, s = pre +:+ w +:+ post.
Proof.
  induction s as [|c s IH]; simpl.
  - rewrite orb_false_r. intros H. apply startsWith_split in H as (post & ->).
    by exists "", post.
  - intros H. apply orb_true_iff in H as [H|H].
    + apply startsWith_split in H as (post & ->). by exists "", post.
    + apply IH in H as (pre & post & ->). by exists (String c pre), post.
Qed.

Lemma toLowerCase_app_inv d x y :
  Js.toLowerCase d = x +:+ y ->
  exists d1 d2, d = d1 +:+ d2 /\ Js.toLowerCase d1 = x /\ Js.toLowerCase d2 = y.
Proof.
  revert d. induction x as [|a x IH]; intros d H.
  - by exists "", d.
  - destruct d as [|c d]; [done|]. rewrite app_cons_str in H. simpl in H.
    injection H as Ha H. apply IH in H as (d1 & d2 & -> & <- & <-).
    exists (String c d1), d2. simpl. by rewrite Ha.
Qed.

(** A keyword found in the lower-cased description marks four solid
    characters of the description itself. *)
Lemma keyword_anchors d (k0 k1 k2 k3 : ascii) (ktail : string) :
  k0 = "s"%char \/ k0 = "l"%char \/ k0 = "w"%char ->
  Js.is_lower k1 = true -> Js.is_lower k2 = true -> Js.is_lower k3 = true ->
  Js.includes (Js.toLowerCase d) (String k0 (String k1 (String k2 (String k3 ktail)))) = true ->
  anchored d.
Proof.
  intros Hk0 Hk1 Hk2 Hk3 H.
  apply includes_split in H as (pre & post & H).
  apply toLowerCase_app_inv in H as (d1 & d2 & -> & _ & H).
  apply toLowerCase_app_inv in H as (w & d3 & -> & Hw & _).
  destruct w as [|c0 [|c1 [|c2 [|c3 w]]]]; try done.
  simpl in Hw. injection Hw as E0 E1 E2 E3 _.
  destruct (keyword_head c0) as [Hd0 Hs0]; [by rewrite E0|].
  exists d1, c0, c1, c2, c3, (w +:+ d3).
  rewrite !app_cons_str. split; [done|]. split; [done|]. split; [done|].
  repeat split; apply keyword_letter; congruence.
Qed.

(** An input that selects a canned template yields at least one step. *)
Lemma parseSteps_nil_not_canned d : parseSteps d = [] -> cannedFor d = None.
Proof.
  intros Hnil. unfold cannedFor.
  destruct (Js.includes (Js.toLowerCase d) "support") eqn:H1.
  { destruct (anchored_parseSteps d); [|done].
    by eapply (keyword_anchors d "s" "u" "p" "p" "ort"); [left|..]. }
  destruct (Js.includes (Js.toLowerCase d) "lead") eqn:H2.
  { destruct (anchored_parseSteps d); [|done].
    by eapply (keyword_anchors d "l" "e" "a" "d" ""); [right; left|..]. }
  destruct (Js.includes (Js.toLowerCase d) "weekly") eqn:H3.
  { destruct (anchored_parseSteps d); [|done].
    by eapply (keyword_anchors d "w" "e" "e" "k" "ly"); [right; right|..]. }
  done.
Qed.

(* ===================================================================== *)
(** * Properties of the search, the levels and the layout *)
(* ===================================================================== *)

(** ** The cycle search finds a cycle exactly when there is one *)

Lemma tc_first {A} (R : relation A) x z :
  tc R x z -> exists y, R x y /\ rtc R y z.
Proof.
  destruct 1 as [x z H|x y z H Ht].
  - exists z. split; [done|reflexivity].
  - exists y. split; [done|by apply tc_rtc].
Qed.

Lemma tc_mono {A} (R1 R2 : relation A) x y :
  (forall a b, R1 a b -> R2 a b) -> tc R1 x y -> tc R2 x y.
Proof.
  intros Hsub. induction 1 as [x y H|x y z H _ IH].
  - apply tc_once. auto.
  - eapply tc_l; eauto.
Qed.

Section SearchCorrect.
Variable adjacency : gmap string (list string).

Lemma finished_reach st u v :
  (forall a b, a ∈ finished st -> (adjArc adjacency) a b -> b ∈ finished st) ->
  u ∈ finished st -> rtc (adjArc adjacency) u v -> v ∈ finished st.
Proof. intros Hc Hu Hr. induction Hr; eauto. Qed.

Lemma neighbours_correct self node done ns st b st' :
  searchSpec adjacency self ->
  default [] (adjacency !! node) = done ++ ns ->
  neighbours self node ns st = Some (b, st') ->
  SearchInv adjacency st ->
  node ∈ recStack st ->
  (forall s, s ∈ recStack st -> rtc (adjArc adjacency) s node) ->
  (forall v, v ∈ done -> v ∈ finished st) ->
  if b then exists x, tc (adjArc adjacency) x x
  else SearchInv adjacency st' /\ visited st ⊆ visited st' /\
       recStack st' = recStack st ∖ {[node]} /\ node ∈ visited st'.
Proof.
  intros Hself. revert done st.
  induction ns as [|n ns IH]; intros done st Hadj Hrun Hinv Hnode Hpath Hdone.
  - simpl in Hrun. injection Hrun as <- <-.
    rewrite app_nil_r in Hadj.
    destruct Hinv as [Hs Hc Ha].
    assert (Hfin : forall x, x ∈ finished {| visited := visited st; recStack := recStack st ∖ {[node]} |}
                     <-> x ∈ finished st \/ x = node).
    { intros x. unfold finished. simpl. 
      destruct (decide (x = node)) as [->|]; set_solver. }
    assert (Hout : forall v, (adjArc adjacency) node v -> v ∈ finished st).
    { intros v Hv. apply Hdone. unfold adjArc in Hv. by rewrite Hadj in Hv. }
    split; [|simpl; split; [done|split; [done|set_solver]]].
    split; simpl.
    + set_solver.
    + intros u v Hu Hv. apply Hfin. left. apply Hfin in Hu as [Hu| ->]; eauto.
    + intros u Hu Hcyc. apply Hfin in Hu as [Hu| ->]; [by eapply Ha|].
      apply tc_first in Hcyc as (y & Hy & Hr).
      assert (node ∈ finished st) by (eapply finished_reach; eauto).
      unfold finished in *. set_solver.
  - assert (Harc : (adjArc adjacency) node n).
    { unfold adjArc. rewrite Hadj. set_solver. }
    simpl in Hrun. case_bool_decide as Hv.
    + destruct (self n st) as [[b1 st1]|] eqn:Hcall; [|done].
      pose proof (Hself n st b1 st1 Hcall Hv Hinv) as Hspec.
      destruct b1.
      * injection Hrun as <- <-. apply Hspec.
        intros s Hs. eapply rtc_r; eauto.
      * destruct Hspec as (Hinv1 & Hsub & Hrec & Hn1).
        { intros s Hs. eapply rtc_r; eauto. }
        specialize (IH (done ++ [n]) st1).
        rewrite <- app_assoc in IH. specialize (IH Hadj Hrun Hinv1).
        rewrite Hrec in IH. specialize (IH Hnode Hpath).
        assert (Hgrow : forall v, (v ∈ finished st \/ v = n) -> v ∈ finished st1).
        { intros v. unfold finished. rewrite Hrec.
          destruct Hinv as [Hs _ _]. intros [?| ->]; set_solver. }
        destruct b.
        -- apply IH. intros v Hin. apply Hgrow. set_solver.
        -- destruct IH as (? & ? & ? & ?).
           { intros v Hin. apply Hgrow. set_solver. }
           split; [done|]. split; [set_solver|]. by split.
    + case_bool_decide as Hr.
      * injection Hrun as <- <-. exists node.
        eapply tc_rtc_r; [by apply tc_once|]. by apply Hpath.
      * apply (IH (done ++ [n]) st); try done.
        -- by rewrite <- app_assoc.
        -- intros v Hin. apply elem_of_app in Hin as [Hin|Hin]; [by apply Hdone|].
           apply list_elem_of_singleton in Hin as ->. unfold finished.
           set_solver.
Qed.

Lemma hasCycle_correct fuel : searchSpec adjacency (hasCycle fuel adjacency).
Proof.
  induction fuel as [|f IH]; intros node st b st' Hrun Hv Hinv Hpath; [done|].
  simpl in Hrun.
  destruct Hinv as [Hs Hc Ha].
  assert (Hfin : finished {| visited := {[node]} ∪ visited st;
                             recStack := {[node]} ∪ recStack st |} = finished st).
  { unfold finished. simpl. apply set_eq. intros x.
    destruct (decide (x = node)) as [->|]; set_solver. }
  pose proof (neighbours_correct _ node [] _ _ b st' IH eq_refl Hrun) as H.
  destruct b.
  - apply H.
    + split; [simpl; set_solver|rewrite Hfin; eauto..].
    + simpl. set_solver.
    + simpl. intros s Hin. apply elem_of_union in Hin as [Hin|Hin]; [|by apply Hpath].
      apply elem_of_singleton in Hin as ->. reflexivity.
    + set_solver.
  - destruct H as (? & ? & Hrec & ?).
    + split; [simpl; set_solver|rewrite Hfin; eauto..].
    + simpl. set_solver.
    + simpl. intros s Hin. apply elem_of_union in Hin as [Hin|Hin]; [|by apply Hpath].
      apply elem_of_singleton in Hin as ->. reflexivity.
    + set_solver.
    + simpl in *. split; [done|]. split; [set_solver|]. split; [|done].
      rewrite Hrec. set_solver.
Qed.

Lemma anyCycle_correct fuel ids st b :
  anyCycle fuel adjacency ids st = Some b ->
  SearchInv adjacency st -> recStack st = ∅ ->
  if b then exists x, tc (adjArc adjacency) x x
  else forall x, x ∈ ids \/ x ∈ visited st -> ~ tc (adjArc adjacency) x x.
Proof.
  revert st. induction ids as [|id ids IH]; intros st Hrun Hinv Hrec.
  - simpl in Hrun. injection Hrun as <-.
    intros x [Hx|Hx]; [set_solver|].
    apply (inv_acyclic _ _ Hinv). unfold finished. set_solver.
  - simpl in Hrun. case_bool_decide as Hv.
    + destruct (hasCycle fuel adjacency id st) as [[b1 st1]|] eqn:Hcall; [|done].
      pose proof (hasCycle_correct fuel id st b1 st1 Hcall Hv Hinv) as Hspec.
      destruct b1.
      * injection Hrun as <-. apply Hspec. set_solver.
      * destruct Hspec as (Hinv1 & Hsub & Hrec1 & Hid); [set_solver|].
        specialize (IH st1 Hrun Hinv1). rewrite Hrec1 in IH. specialize (IH Hrec).
        destruct b; [done|].
        intros x Hx. apply IH. set_solver.
    + specialize (IH st Hrun Hinv Hrec). destruct b; [done|].
      intros x Hx. apply IH. set_solver.
Qed.
End SearchCorrect.

Lemma searchInv_empty adjacency : SearchInv adjacency {| visited := ∅; recStack := ∅ |}.
Proof. split; unfold finished; simpl; set_solver. Qed.

(** ** What the validator accepts *)

Lemma edgeErrors_nil_inv ids edges :
  edgeErrors ids edges = [] -> edgesResolved ids edges.
Proof.
  unfold edgeErrors, edgesResolved. induction edges as [|e edges IH]; [constructor|].
  rewrite bind_cons. intros H. apply app_eq_nil in H as [H1 H2].
  apply app_eq_nil in H1 as [Hf Ht].
  constructor; [|by apply IH].
  split; apply has_true.
  - by destruct (has ids (edge_from e)).
  - by destruct (has ids (edge_to e)).
Qed.

Lemma inputErrors_nil_inv ids agents :
  inputErrors ids agents = [] -> inputsResolved ids agents.
Proof.
  unfold inputErrors, inputsResolved. induction agents as [|a agents IH]; [constructor|].
  rewrite bind_cons. intros H. apply app_eq_nil in H as [H1 H2].
  constructor; [|by apply IH]. clear IH H2.
  induction (agent_inputs a) as [|i ins IH]; [constructor|].
  rewrite bind_cons in H1. apply app_eq_nil in H1 as [Hi Hrest].
  constructor; [|by apply IH].
  destruct (input_from i) as [from|]; [|done].
  destruct from as [|c from]; [by left|right].
  simpl in Hi. apply has_true. by destruct (has ids (String c from)).
Qed.

Lemma edgesResolved_ids ids ids' edges :
  (forall x, x ∈ ids <-> x ∈ ids') ->
  edgesResolved ids edges <-> edgesResolved ids' edges.
Proof.
  intros H. unfold edgesResolved. rewrite !Forall_forall.
  split; intros Hall e He; destruct (Hall e He); split; by apply H.
Qed.

Lemma inputsResolved_ids ids ids' agents :
  (forall x, x ∈ ids <-> x ∈ ids') ->
  inputsResolved ids agents <-> inputsResolved ids' agents.
Proof.
  intros H. unfold inputsResolved. rewrite !Forall_forall.
  split; intros Hall a Ha; specialize (Hall a Ha); rewrite Forall_forall in *;
    intros i Hi; specialize (Hall i Hi); destruct (input_from i); try done;
    destruct Hall; [by left|right; by apply H|by left|right; by apply H].
Qed.

Lemma elem_of_outgoing_iff edges k y :
  y ∈ outgoing edges k <-> exists e, e ∈ edges /\ edge_from e = k /\ edge_to e = y.
Proof.
  unfold outgoing. rewrite list_elem_of_fmap. split.
  - intros (e & -> & He). apply list_elem_of_In, filter_In in He as [He Hk].
    apply String.eqb_eq in Hk. exists e. by rewrite list_elem_of_In.
  - intros (e & He & Hk & <-). exists e. split; [done|].
    apply list_elem_of_In, filter_In. split; [by apply list_elem_of_In|].
    by apply String.eqb_eq.
Qed.

(** The arcs of the adjacency map are the edges that leave a listed id. *)
Lemma adjArc_adjacencyOf ids plan x y :
  adjArc (adjacencyOf ids (plan_edges plan)) x y <-> x ∈ ids /\ arc plan x y.
Proof.
  unfold adjArc, arc. rewrite adjacencyOf_lookup.
  destruct (has ids x) eqn:Hx; simpl.
  - apply has_true in Hx. rewrite elem_of_outgoing_iff. tauto.
  - apply has_false in Hx. split; [set_solver|tauto].
Qed.

Lemma tc_adjArc_searched ids plan x y :
  (forall k, k ∈ ids <-> k ∈ declaredIds plan) ->
  tc (adjArc (adjacencyOf ids (plan_edges plan))) x y <-> tc (searchedArc plan) x y.
Proof.
  intros Hids. split; apply tc_mono; intros a b; rewrite adjArc_adjacencyOf;
    unfold searchedArc; fold (declaredIds plan); rewrite Hids; tauto.
Qed.

(** The outcome of the search over any listing of the declared ids. *)
Lemma anyCycle_searched plan ids fuel b :
  (forall k, k ∈ ids <-> k ∈ declaredIds plan) ->
  anyCycle fuel (adjacencyOf ids (plan_edges plan)) ids
           {| visited := ∅; recStack := ∅ |} = Some b ->
  b = true <-> exists x, tc (searchedArc plan) x x.
Proof.
  intros Hids Hrun.
  pose proof (anyCycle_correct _ _ _ _ _ Hrun (searchInv_empty _) eq_refl) as H.
  destruct b.
  - destruct H as [x Hx]. split; [|done]. intros _. exists x.
    by apply (tc_adjArc_searched ids).
  - split; [done|]. intros [x Hx]. exfalso.
    apply (tc_adjArc_searched ids) in Hx; [|done].
    apply (H x); [|done]. left.
    apply tc_first in Hx as (y & Hy & _).
    apply adjArc_adjacencyOf in Hy. tauto.
Qed.

Lemma agentIdsOf_declared plan k : k ∈ agentIdsOf plan <-> k ∈ declaredIds plan.
Proof. apply elem_of_setOf. Qed.

(** ** The level assignment on plans with distinct ids and resolved edges *)

Lemma occurrences_cons v n ns :
  occurrences v (n :: ns) = (if String.eqb v n then 1 else 0) + occurrences v ns.
Proof. unfold occurrences. simpl. by destruct (String.eqb v n). Qed.

Lemma occurrences_zero v ns : occurrences v ns = 0 <-> v ∉ ns.
Proof.
  induction ns as [|n ns IH]; [set_solver|].
  rewrite occurrences_cons, not_elem_of_cons.
  destruct (String.eqb_spec v n) as [->|Hne]; [split; [lia|tauto]|].
  rewrite <- IH. split; [intros; split; [done|lia]|intros [_ ?]; lia].
Qed.

Lemma occurrences_pos v ns : 0 < occurrences v ns <-> v ∈ ns.
Proof.
  pose proof (occurrences_zero v ns). destruct (decide (v ∈ ns)); split; try tauto.
  - intros _. destruct (occurrences v ns); [|lia]. tauto.
  - intros ?. assert (occurrences v ns = 0) by tauto. lia.
Qed.

Lemma fold_relax_inDegree lvl ns st v :
  getOr0 (inDegree (fold_left (relax lvl) ns st)) v =
  (getOr0 (inDegree st) v - Z.of_nat (occurrences v ns))%Z.
Proof.
  revert st. induction ns as [|n ns IH]; intros st.
  - unfold occurrences. simpl. lia.
  - cbn [fold_left]. rewrite IH, occurrences_cons. unfold relax. cbn [inDegree].
    rewrite getOr0_insert, (String.eqb_sym v n).
    destruct (String.eqb_spec n v) as [->|Hne]; lia.
Qed.

Lemma fold_relax_levels lvl ns st v :
  getOr0 (levels (fold_left (relax lvl) ns st)) v =
  if has ns v then Z.max (getOr0 (levels st) v) (lvl + 1) else getOr0 (levels st) v.
Proof.
  revert st. induction ns as [|n ns IH]; intros st; [done|].
  cbn [fold_left]. rewrite IH.
  assert (Hr : getOr0 (levels (relax lvl st n)) v =
               if String.eqb n v then Z.max (getOr0 (levels st) n) (lvl + 1)
               else getOr0 (levels st) v).
  { unfold relax. cbn [levels]. apply getOr0_insert. }
  rewrite Hr. unfold has. cbn [existsb]. fold (has ns v).
  rewrite (String.eqb_sym v n).
  destruct (String.eqb_spec n v) as [->|Hne]; simpl; [|done].
  destruct (has ns v); lia.
Qed.

Lemma fold_relax_queue lvl ns st :
  (forall v, v ∈ ns -> (Z.of_nat (occurrences v ns) <= getOr0 (inDegree st) v)%Z) ->
  exists A, queue (fold_left (relax lvl) ns st) = queue st ++ A /\ NoDup A /\
    forall v, v ∈ A <-> v ∈ ns /\ getOr0 (inDegree st) v = Z.of_nat (occurrences v ns).
Proof.
  revert st. induction ns as [|n ns IH]; intros st Hpre.
  - exists []. cbn [fold_left]. rewrite app_nil_r. split; [done|].
    split; [constructor|]. set_solver.
  - cbn [fold_left].
    destruct (IH (relax lvl st n)) as (A & HA & Hnd & Hmem).
    { intros v Hv. unfold relax. cbn [inDegree]. rewrite getOr0_insert.
      specialize (Hpre v (list_elem_of_further _ _ _ Hv)).
      rewrite occurrences_cons in Hpre. rewrite (String.eqb_sym v n) in Hpre.
      destruct (String.eqb_spec n v) as [->|Hne]; lia. }
    pose proof (Hpre n (list_elem_of_here _ _)) as Hn.
    rewrite occurrences_cons, String.eqb_refl in Hn.
    assert (Hmem' : forall v, v ∈ A <->
              v ∈ ns /\ (getOr0 (inDegree st) v - (if String.eqb n v then 1 else 0))%Z
                        = Z.of_nat (occurrences v ns)).
    { intros v. rewrite Hmem. unfold relax. cbn [inDegree]. rewrite getOr0_insert.
      destruct (String.eqb_spec n v) as [->|Hne]; [done|].
      rewrite Z.sub_0_r. done. }
    clear Hmem.
    assert (Hq : queue (relax lvl st n) =
                 if (getOr0 (inDegree st) n - 1 =? 0)%Z then queue st ++ [n] else queue st)
      by reflexivity.
    rewrite Hq in HA. clear Hq.
    destruct (Z.eqb_spec (getOr0 (inDegree st) n - 1) 0) as [Hz|Hz].
    + exists (n :: A). rewrite HA, <- app_assoc. split; [done|].
      assert (Hnot : n ∉ ns).
      { apply occurrences_zero. lia. }
      split.
      * constructor; [|done]. rewrite Hmem'. tauto.
      * intros v. rewrite elem_of_cons, Hmem', elem_of_cons, occurrences_cons.
        rewrite (String.eqb_sym v n).
        destruct (String.eqb_spec n v) as [->|Hne].
        -- apply occurrences_zero in Hnot. split; [intros _; split; [by left|lia]|by left].
        -- split.
           ++ intros [->|[? ?]]; [done|]. split; [by right|lia].
           ++ intros [[->|?] ?]; [done|]. right. split; [done|lia].
    + exists A. rewrite HA. split; [done|]. split; [done|].
      intros v. rewrite Hmem', elem_of_cons, occurrences_cons.
      rewrite (String.eqb_sym v n).
      destruct (String.eqb_spec n v) as [->|Hne].
      * split.
        -- intros [? ?]. split; [by left|lia].
        -- intros [_ ?]. split; [|lia].
           apply occurrences_pos. lia.
      * split.
        -- intros [? ?]. split; [by right|lia].
        -- intros [[->|?] ?]; [done|]. split; [done|lia].
Qed.

Lemma relaxedInto_nil edges v : relaxedInto edges [] v = 0.
Proof.
  unfold relaxedInto. induction edges as [|e edges IH]; [done|].
  simpl. by rewrite andb_false_r.
Qed.

Lemma occurrences_outgoing edges u v :
  occurrences v (outgoing edges u) =
  List.length (List.filter (fun e => String.eqb (edge_to e) v && String.eqb (edge_from e) u) edges).
Proof.
  unfold occurrences, outgoing. induction edges as [|e edges IH]; [done|].
  cbn [List.filter]. destruct (String.eqb (edge_from e) u); cbn [fmap list_fmap List.filter].
  - rewrite (String.eqb_sym v). destruct (String.eqb (edge_to e) v); simpl; by rewrite IH.
  - by rewrite andb_false_r.
Qed.

Lemma relaxedInto_snoc edges P u v :
  u ∉ P ->
  relaxedInto edges (P ++ [u]) v = relaxedInto edges P v + occurrences v (outgoing edges u).
Proof.
  intros Hu. rewrite occurrences_outgoing. unfold relaxedInto.
  induction edges as [|e edges IH]; [done|].
  cbn [List.filter].
  assert (Hhas : has (P ++ [u]) (edge_from e) =
                 has P (edge_from e) || String.eqb (edge_from e) u).
  { unfold has. rewrite existsb_app. simpl. by rewrite orb_false_r. }
  rewrite Hhas.
  destruct (String.eqb (edge_to e) v); simpl; [|exact IH].
  destruct (has P (edge_from e)) eqn:HP; simpl.
  - apply has_true in HP.
    destruct (String.eqb_spec (edge_from e) u) as [Heq|Hne]; [congruence|].
    simpl. lia.
  - destruct (String.eqb (edge_from e) u); simpl; lia.
Qed.

Lemma relaxedInto_le edges P v : relaxedInto edges P v <= incoming edges v.
Proof.
  unfold relaxedInto, incoming. induction edges as [|e edges IH]; [done|].
  cbn [List.filter]. destruct (String.eqb (edge_to e) v); simpl; [|done].
  destruct (has P (edge_from e)); simpl; lia.
Qed.

(** An edge into [v] that is not counted leaves an id outside [P]. *)
Lemma relaxedInto_lt edges P v :
  relaxedInto edges P v < incoming edges v ->
  exists e, e ∈ edges /\ edge_to e = v /\ edge_from e ∉ P.
Proof.
  unfold relaxedInto, incoming. induction edges as [|e edges IH]; [simpl; lia|].
  cbn [List.filter].
  destruct (String.eqb_spec (edge_to e) v) as [Hv|Hv]; cbn [andb].
  - destruct (has P (edge_from e)) eqn:HP.
    + cbn [List.length]. intros H. destruct IH as (e' & ? & ? & ?); [lia|].
      exists e'. split; [by right|done].
    + intros _. exists e. split; [by left|]. split; [done|]. by apply has_false.
  - intros H. destruct (IH H) as (e' & ? & ? & ?).
    exists e'. split; [by right|done].
Qed.

Lemma seed_fold_queue_filter (agents : list AgentNode) st :
  queue (fold_left
    (fun st agent =>
       if (getOr0 (inDegree st) (agent_id agent) =? 0)%Z
       then {| inDegree := inDegree st;
               levels := <[agent_id agent := 0%Z]> (levels st);
               queue := queue st ++ [agent_id agent] |}
       else st) agents st) =
  queue st ++ List.filter (fun id => (getOr0 (inDegree st) id =? 0)%Z) (agent_id <$> agents).
Proof.
  revert st. induction agents as [|a agents IH]; intros st.
  - simpl. by rewrite app_nil_r.
  - cbn [fold_left]. rewrite IH, fmap_cons. cbn [List.filter].
    destruct (getOr0 (inDegree st) (agent_id a) =? 0)%Z; cbn [inDegree queue]; [|done].
    by rewrite <- app_assoc.
Qed.

Lemma seedRoots_queue plan :
  queue (seedRoots plan) =
  List.filter (fun id => (getOr0 (initialInDegree plan) id =? 0)%Z) (declaredIds plan).
Proof. unfold seedRoots. by rewrite seed_fold_queue_filter. Qed.

Section Kahn.
Variable plan : AgentPlan.
Hypothesis ids_distinct : NoDup (declaredIds plan).
Hypothesis edges_resolved : edgesResolved (declaredIds plan) (plan_edges plan).

Lemma kahnInv_seed : KahnInv plan [] (seedRoots plan).
Proof.
  split.
  - rewrite app_nil_l, seedRoots_queue.
    apply NoDup_ListNoDup, List.NoDup_filter. by apply NoDup_ListNoDup.
  - intros v. rewrite seedRoots_inDegree, initialInDegree_lookup, relaxedInto_nil. lia.
  - intros v. rewrite app_nil_l, seedRoots_queue, seedRoots_inDegree.
    rewrite list_elem_of_In, filter_In, <- list_elem_of_In, Z.eqb_eq. done.
  - intros e _ He. set_solver.
  - intros v Hv. exfalso. apply Hv. clear Hv. unfold seedRoots.
    assert (H0 : getOr0 (levels {| inDegree := initialInDegree plan; levels := ∅;
                                   queue := [] |}) v = 0%Z) by done.
    revert H0. generalize {| inDegree := initialInDegree plan; levels := ∅; queue := [] |}.
    induction (plan_agents plan) as [|a agents IH]; intros st Hst; cbn [fold_left]; [done|].
    apply IH. destruct (_ =? _)%Z; [|done]. cbn [levels]. rewrite getOr0_insert.
    by destruct (String.eqb (agent_id a) v).
Qed.

Lemma outgoing_declared u v : v ∈ outgoing (plan_edges plan) u -> v ∈ declaredIds plan.
Proof.
  rewrite elem_of_outgoing_iff. intros (e & He & _ & <-).
  unfold edgesResolved in edges_resolved. rewrite Forall_forall in edges_resolved.
  by apply edges_resolved.
Qed.

Lemma kahnInv_step P st st' :
  KahnInv plan P st -> loopStep plan st st' ->
  exists u, KahnInv plan (P ++ [u]) st'.
Proof.
  intros [Hnd Hdeg Hset Hlev Htight] Hstep. unfold loopStep, kahnStep in Hstep.
  destruct (queue st) as [|u rest] eqn:Hq; [done|]. injection Hstep as <-.
  exists u.
  assert (Hu : u ∈ declaredIds plan).
  { apply (Hset u). set_solver. }
  assert (HuP : u ∉ P).
  { apply NoDup_app in Hnd as (_ & Hdisj & _). intros Hin.
    apply (Hdisj u Hin). set_solver. }
  assert (Hadj : layoutAdjacency plan !! u = Some (outgoing (plan_edges plan) u)).
  { rewrite layoutAdjacency_lookup. apply has_true in Hu.
    unfold declaredIds in Hu. by rewrite Hu. }
  rewrite Hadj. cbn [default]. unfold id.
  set (ns := outgoing (plan_edges plan) u).
  set (st0 := {| inDegree := inDegree st; levels := levels st; queue := rest |}).
  set (lvl := getOr0 (levels st) u).
  assert (Hpre : forall v,
            (Z.of_nat (occurrences v ns) <= getOr0 (inDegree st0) v)%Z).
  { intros v. change (inDegree st0) with (inDegree st). rewrite Hdeg.
    pose proof (relaxedInto_snoc (plan_edges plan) P u v HuP).
    pose proof (relaxedInto_le (plan_edges plan) (P ++ [u]) v). fold ns in H. lia. }
  assert (Hfrozen : forall v, v ∈ P ++ u :: rest -> v ∉ ns).
  { intros v Hv. apply Hset in Hv as [_ Hz]. apply occurrences_zero.
    specialize (Hpre v). change (inDegree st0) with (inDegree st) in Hpre. lia. }
  destruct (fold_relax_queue lvl ns st0) as (A & HA & HAnd & HAmem); [by intros; apply Hpre|].
  change (queue st0) with rest in HA.
  change (inDegree st0) with (inDegree st) in HAmem.
  assert (HAnew : forall v, v ∈ A -> v ∉ P ++ u :: rest).
  { intros v Hv Hin. apply HAmem in Hv as [Hv _]. by apply (Hfrozen v). }
  split.
  - rewrite HA. rewrite <- app_assoc. cbn [app].
    assert (Hperm : P ++ u :: rest ++ A ≡ₚ (P ++ u :: rest) ++ A).
    { by rewrite <- app_assoc. }
    rewrite Hperm. apply NoDup_app. split; [done|]. split; [|done].
    intros v Hv Hin. by apply (HAnew v).
  - intros v. rewrite fold_relax_inDegree. change (inDegree st0) with (inDegree st).
    rewrite Hdeg.
    rewrite (relaxedInto_snoc _ _ _ _ HuP). fold ns. lia.
  - intros v. rewrite fold_relax_inDegree, HA. change (inDegree st0) with (inDegree st).
    assert (Hsame : v ∈ (P ++ [u]) ++ rest ++ A <-> v ∈ P ++ u :: rest \/ v ∈ A).
    { rewrite <- app_assoc. cbn [app]. rewrite !elem_of_app, !elem_of_cons, !elem_of_app.
      tauto. }
    rewrite Hsame. split.
    + intros [Hin|Hin].
      * pose proof (Hfrozen v Hin) as Hno. apply occurrences_zero in Hno.
        apply Hset in Hin as [? ?]. split; [done|lia].
      * apply HAmem in Hin as [Hin Heq]. split; [by eapply outgoing_declared|lia].
    + intros [Hv Hz]. destruct (decide (v ∈ ns)) as [Hin|Hno].
      * right. apply HAmem. split; [done|lia].
      * left. apply Hset. split; [done|]. apply occurrences_zero in Hno. lia.
  - intros e He Hfrom. rewrite !fold_relax_levels. change (levels st0) with (levels st).
    assert (Hsrc : edge_from e ∉ ns).
    { apply Hfrozen. apply elem_of_app in Hfrom as [?|Hx]; [set_solver|].
      apply list_elem_of_singleton in Hx. rewrite Hx. set_solver. }
    apply has_false in Hsrc. rewrite Hsrc.
    apply elem_of_app in Hfrom as [Hfrom|Hfrom].
    + specialize (Hlev e He Hfrom). destruct (has ns (edge_to e)); lia.
    + apply list_elem_of_singleton in Hfrom.
      assert (Hto : edge_to e ∈ ns).
      { apply elem_of_outgoing_iff. by exists e. }
      apply has_true in Hto. rewrite Hto, Hfrom. fold lvl. lia.
  - intros v. rewrite fold_relax_levels. change (levels st0) with (levels st).
    assert (Hkeep : forall e, edge_from e ∈ P ->
              getOr0 (levels (fold_left (relax lvl) ns st0)) (edge_from e) =
              getOr0 (levels st) (edge_from e)).
    { intros e He. rewrite fold_relax_levels. change (levels st0) with (levels st).
      assert (Hno : edge_from e ∉ ns) by (apply Hfrozen; set_solver).
      apply has_false in Hno. by rewrite Hno. }
    assert (Hold : getOr0 (levels st) v ≠ 0%Z ->
              exists e, e ∈ plan_edges plan /\ edge_to e = v /\ edge_from e ∈ P ++ [u] /\
                getOr0 (levels st) v =
                (getOr0 (levels (fold_left (relax lvl) ns st0)) (edge_from e) + 1)%Z).
    { intros Hv. destruct (Htight v Hv) as (e & He & Hto & Hfrom & Heq).
      exists e. rewrite (Hkeep e Hfrom). split; [done|]. split; [done|].
      split; [set_solver|done]. }
    destruct (has ns v) eqn:Hv; [|exact Hold].
    intros Hnz. apply has_true in Hv.
    destruct (Z.max_spec (getOr0 (levels st) v) (lvl + 1)) as [[Hlt Hmax]|[Hge Hmax]];
      rewrite Hmax in *.
    + apply elem_of_outgoing_iff in Hv as (e & He & Hfrom & Hto).
      exists e. split; [done|]. split; [done|]. split; [set_solver|].
      rewrite fold_relax_levels. change (levels st0) with (levels st).
      assert (Hno : edge_from e ∉ ns) by (apply Hfrozen; set_solver).
      apply has_false in Hno. rewrite Hno, Hfrom. done.
    + by apply Hold.
Qed.

Lemma kahnInv_reaches st :
  passesThrough plan st -> exists P, KahnInv plan P st.
Proof.
  unfold passesThrough. intros H.
  eapply (rtc_ind_r (fun st => exists P, KahnInv plan P st)); [| |exact H].
  - exists []. apply kahnInv_seed.
  - intros st1 st2 _ Hstep [P HP].
    destruct (kahnInv_step P st1 st2 HP Hstep) as [u Hu]. eauto.
Qed.

(** A level above zero is one more than the level of a predecessor. *)
Lemma levels_tight final v :
  computeLevels plan = Some final -> getOr0 (levels final) v ≠ 0%Z ->
  exists e, e ∈ plan_edges plan /\ edge_to e = v /\
            getOr0 (levels final) v = (getOr0 (levels final) (edge_from e) + 1)%Z.
Proof.
  intros Hfinal Hv. apply drain_reaches in Hfinal as [Hrtc _].
  destruct (kahnInv_reaches final Hrtc) as [P HP].
  destruct (k_tight _ _ _ HP v Hv) as (e & ? & ? & _ & ?). eauto.
Qed.
End Kahn.

(** ** Acyclic plans *)

Lemma tc_flip {A} (R : relation A) x y : tc (flip R) x y -> tc R y x.
Proof.
  induction 1 as [x y H|x y z H _ IH].
  - by apply tc_once.
  - eapply tc_r; eauto.
Qed.

(** In an acyclic plan there is no endless walk against the arcs, nor along
    them. *)
Lemma acyclic_back plan : acyclic plan -> forall v, Acc (arc plan) v.
Proof.
  intros Hac v.
  apply (tc_finite_sn (R:=flip (arc plan)) v).
  - intros x Hx. apply tc_flip in Hx. by apply (Hac x).
  - exists (edge_from <$> plan_edges plan). intros y Hy.
    apply tc_flip, tc_first in Hy as (z & (e & He & <- & _) & _).
    apply list_elem_of_fmap. eauto.
Qed.

Lemma acyclic_forth plan : acyclic plan -> forall v, Acc (flip (arc plan)) v.
Proof.
  intros Hac v.
  apply (tc_finite_sn (R:=arc plan) v).
  - intros x Hx. by apply (Hac x).
  - exists (edge_to <$> plan_edges plan). intros y Hy.
    apply tc_flip in Hy. change (tc (flip (arc plan)) y v) in Hy.
    apply tc_first in Hy as (z & (e & He & _ & <-) & _).
    apply list_elem_of_fmap. eauto.
Qed.

Section KahnAcyclic.
Variable plan : AgentPlan.
Hypothesis ids_distinct : NoDup (declaredIds plan).
Hypothesis edges_resolved : edgesResolved (declaredIds plan) (plan_edges plan).
Hypothesis plan_acyclic : acyclic plan.

(** When the queue runs empty every declared id has been dequeued. *)
Lemma all_processed P st v :
  KahnInv plan P st -> queue st = [] -> v ∈ declaredIds plan -> v ∈ P.
Proof.
  intros [Hnd Hdeg Hset Hlev _] Hq. rewrite Hq, app_nil_r in Hset.
  induction (acyclic_back plan plan_acyclic v) as [v _ IH]. intros Hv.
  destruct (decide (v ∈ P)) as [|Hno]; [done|]. exfalso.
  assert (Hpos : getOr0 (inDegree st) v ≠ 0%Z).
  { intros Hz. apply Hno, Hset. done. }
  rewrite Hdeg in Hpos.
  pose proof (relaxedInto_le (plan_edges plan) P v).
  destruct (relaxedInto_lt (plan_edges plan) P v) as (e & He & Hto & Hfrom); [lia|].
  apply Hfrom, IH.
  - exists e. done.
  - unfold edgesResolved in edges_resolved. rewrite Forall_forall in edges_resolved.
    by apply edges_resolved.
Qed.

(** Along every edge the level goes up. *)
Lemma levels_increase final e :
  computeLevels plan = Some final -> e ∈ plan_edges plan ->
  (getOr0 (levels final) (edge_from e) + 1 <= getOr0 (levels final) (edge_to e))%Z.
Proof.
  intros Hfinal He. apply drain_reaches in Hfinal as [Hrtc Hnf].
  destruct (kahnInv_reaches plan ids_distinct edges_resolved final Hrtc) as [P HP].
  assert (Hq : queue final = []).
  { unfold kahnStep in Hnf. by destruct (queue final). }
  apply (k_levels _ _ _ HP e He).
  eapply all_processed; eauto.
  unfold edgesResolved in edges_resolved. rewrite Forall_forall in edges_resolved.
  by apply edges_resolved.
Qed.
End KahnAcyclic.

(** ** Levels of any plan *)

Lemma incoming_pos edges v : 0 < incoming edges v <-> v ∈ edge_to <$> edges.
Proof.
  unfold incoming. induction edges as [|e edges IH]; [simpl; split; [lia|set_solver]|].
  cbn [List.filter]. rewrite fmap_cons, elem_of_cons.
  destruct (String.eqb_spec (edge_to e) v) as [->|Hne].
  - simpl. split; [by left|lia].
  - rewrite IH. split; [by right|]. intros [?|?]; [congruence|done].
Qed.

Lemma levelsGrounded_seed plan : levelsGrounded plan (seedRoots plan).
Proof.
  unfold seedRoots.
  assert (H0 : levelsGrounded plan
                 {| inDegree := initialInDegree plan; levels := ∅; queue := [] |}).
  { intros v. cbn [levels]. unfold getOr0. rewrite lookup_empty. simpl. split; [lia|done]. }
  revert H0. generalize {| inDegree := initialInDegree plan; levels := ∅; queue := [] |}.
  induction (plan_agents plan) as [|a agents IH]; intros st Hst; cbn [fold_left]; [done|].
  apply IH. destruct (_ =? _)%Z; [|done].
  intros v. cbn [levels]. rewrite getOr0_insert.
  destruct (String.eqb (agent_id a) v); [split; [lia|done]|apply Hst].
Qed.

Lemma levelsGrounded_step plan st st' :
  levelsGrounded plan st -> loopStep plan st st' -> levelsGrounded plan st'.
Proof.
  intros Hst Hstep. unfold loopStep, kahnStep in Hstep.
  destruct (queue st) as [|u rest]; [done|]. injection Hstep as <-.
  intros v. rewrite fold_relax_levels. cbn [levels].
  destruct (has _ v) eqn:Hv; [|apply Hst].
  destruct (Hst v) as [H0 _]. destruct (Hst u) as [Hu _].
  split; [lia|]. intros _. apply has_true in Hv.
  rewrite layoutAdjacency_lookup in Hv. destruct (has _ u); [|set_solver].
  simpl in Hv. apply incoming_pos. by apply elem_of_outgoing in Hv.
Qed.

Lemma levelsGrounded_final plan final :
  computeLevels plan = Some final -> levelsGrounded plan final.
Proof.
  intros Hfinal. apply drain_reaches in Hfinal as [Hrtc _].
  eapply (rtc_ind_r (fun st => levelsGrounded plan st)); [| |exact Hrtc].
  - apply levelsGrounded_seed.
  - intros st1 st2 _ Hstep IH. by eapply levelsGrounded_step.
Qed.

(** ** The columns of a layout *)

Lemma pushGroup_keys level agent groups :
  fst <$> pushGroup level agent groups =
  if bool_decide (level ∈ fst <$> groups) then fst <$> groups
  else (fst <$> groups) ++ [level].
Proof.
  induction groups as [|[l ms] groups IH]; [done|].
  cbn [pushGroup]. destruct (Z.eqb_spec l level) as [->|Hne].
  - rewrite !fmap_cons. cbn [fst]. rewrite bool_decide_eq_true_2; [done|by left].
  - rewrite !fmap_cons, IH. cbn [fst]. case_bool_decide as H1.
    + rewrite bool_decide_eq_true_2; [done|by right].
    + rewrite bool_decide_eq_false_2; [done|].
      intros [?|?]%elem_of_cons; congruence.
Qed.

Lemma pushGroup_sorted col agent groups :
  groupsSorted col groups -> groupsSorted col (pushGroup (col agent) agent groups).
Proof.
  intros [Hnd Hall]. split.
  - rewrite pushGroup_keys. case_bool_decide; [done|].
    apply NoDup_app. split; [done|]. split; [|apply NoDup_singleton].
    intros x Hx Hin%list_elem_of_singleton. congruence.
  - clear Hnd. induction Hall as [|[l ms] groups Hg Hrest IH]; cbn [pushGroup].
    + repeat constructor.
    + destruct (Z.eqb_spec l (col agent)) as [->|Hne].
      * constructor; [|done]. cbn [fst snd] in *. apply Forall_app. split; [done|].
        by repeat constructor.
      * by constructor.
Qed.

Lemma levelGroups_sorted col agents groups :
  groupsSorted col groups ->
  groupsSorted col (fold_left (fun g a => pushGroup (col a) a g) agents groups).
Proof.
  revert groups. induction agents as [|a agents IH]; intros groups H; [done|].
  cbn [fold_left]. by apply IH, pushGroup_sorted.
Qed.

Lemma placeGroup_data level members :
  node_data <$> placeGroup (level, members) = members.
Proof.
  unfold placeGroup. rewrite fmap_imap.
  rewrite (imap_ext _ (const id)); [|done].
  rewrite imap_const. apply list_fmap_id.
Qed.

Lemma pushGroup_data level agent groups :
  node_data <$> (pushGroup level agent groups ≫= placeGroup) ≡ₚ
  agent :: (node_data <$> (groups ≫= placeGroup)).
Proof.
  induction groups as [|[l ms] groups IH]; cbn [pushGroup].
  - rewrite bind_cons. simpl. done.
  - destruct (l =? level)%Z.
    + rewrite !bind_cons, !fmap_app, !placeGroup_data.
      rewrite <- app_assoc. cbn [app]. by rewrite <- Permutation_middle.
    + rewrite !bind_cons, !fmap_app, IH. by rewrite <- Permutation_middle.
Qed.

Lemma levelGroups_data col agents groups :
  node_data <$> (fold_left (fun g a => pushGroup (col a) a g) agents groups ≫= placeGroup) ≡ₚ
  (node_data <$> (groups ≫= placeGroup)) ++ agents.
Proof.
  revert groups. induction agents as [|a agents IH]; intros groups.
  - by rewrite app_nil_r.
  - cbn [fold_left]. rewrite IH, pushGroup_data. by rewrite <- Permutation_middle.
Qed.

(** The members of a column are a row apart from each other. *)
Lemma placeGroup_apart level members i j n1 n2 :
  i ≠ j ->
  placeGroup (level, members) !! i = Some n1 ->
  placeGroup (level, members) !! j = Some n2 ->
  apart n1 n2.
Proof.
  intros Hij H1 H2. unfold placeGroup in *.
  rewrite list_lookup_imap in H1, H2.
  destruct (members !! i) as [a1|]; [|done]. destruct (members !! j) as [a2|]; [|done].
  injection H1 as <-. injection H2 as <-. right. cbn.
  unfold NODE_HEIGHT, VERTICAL_GAP. lia.
Qed.

Lemma placeGroup_column level members n :
  n ∈ placeGroup (level, members) ->
  pos_x (node_position n) = (level * (NODE_WIDTH + HORIZONTAL_GAP))%Z /\
  node_data n ∈ members /\
  node_id n = agent_id (node_data n) /\
  node_type n = "agentNode" /\
  node_color n = AGENT_TYPE_COLORS (agent_type (node_data n)).
Proof.
  unfold placeGroup. intros (i & a & -> & Hi)%elem_of_lookup_imap. cbn.
  repeat split. by eapply list_elem_of_lookup_2.
Qed.

Lemma columns_apart (l1 l2 : Z) n1 n2 :
  l1 ≠ l2 ->
  pos_x (node_position n1) = (l1 * (NODE_WIDTH + HORIZONTAL_GAP))%Z ->
  pos_x (node_position n2) = (l2 * (NODE_WIDTH + HORIZONTAL_GAP))%Z ->
  apart n1 n2.
Proof.
  intros Hne H1 H2. left. rewrite H1, H2. unfold NODE_WIDTH, HORIZONTAL_GAP. lia.
Qed.

Lemma apart_sym n1 n2 : apart n1 n2 -> apart n2 n1.
Proof. unfold apart. intros [H|H]; [left|right]; lia. Qed.

Lemma groups_apart (groups : list (Z * list AgentNode)) i j n1 n2 :
  NoDup (fst <$> groups) ->
  i ≠ j ->
  (groups ≫= placeGroup) !! i = Some n1 ->
  (groups ≫= placeGroup) !! j = Some n2 ->
  apart n1 n2.
Proof.
  revert i j. induction groups as [|[l ms] groups IH]; intros i j Hnd Hij H1 H2; [done|].
  rewrite fmap_cons in Hnd. apply NoDup_cons in Hnd as [Hl Hnd].
  rewrite bind_cons in H1, H2.
  assert (Hother : forall k n n', n ∈ placeGroup (l, ms) ->
            (groups ≫= placeGroup) !! k = Some n' -> apart n n').
  { intros k n n' Hn Hn'.
    apply list_elem_of_lookup_2, list_elem_of_bind in Hn' as ([l' ms'] & Hin & Hg).
    apply placeGroup_column in Hn as (Hx & _). apply placeGroup_column in Hin as (Hx' & _).
    eapply (columns_apart l l'); [|done|done].
    intros ->. apply Hl. apply list_elem_of_fmap. by exists (l', ms'). }
  apply lookup_app_Some in H1 as [H1|[Hi H1]];
    apply lookup_app_Some in H2 as [H2|[Hj H2]].
  - by eapply placeGroup_apart.
  - eapply Hother; [by eapply list_elem_of_lookup_2|done].
  - apply apart_sym. eapply Hother; [by eapply list_elem_of_lookup_2|done].
  - eapply (IH (i - List.length (placeGroup (l, ms))) (j - List.length (placeGroup (l, ms))));
      [done|lia|done|done].
Qed.

Lemma groupsSorted_nil col : groupsSorted col [].
Proof. split; constructor. Qed.

(** What every node of the layout looks like. *)
Lemma nodes_column plan final r n :
  computeLevels plan = Some final -> planToReactFlow plan = Some r ->
  n ∈ nodes r ->
  pos_x (node_position n) =
    (getOr0 (levels final) (node_id n) * (NODE_WIDTH + HORIZONTAL_GAP))%Z /\
  node_data n ∈ plan_agents plan /\
  node_id n = agent_id (node_data n) /\
  node_type n = "agentNode" /\
  node_color n = AGENT_TYPE_COLORS (agent_type (node_data n)).
Proof.
  intros Hfinal Hr Hn. unfold planToReactFlow in Hr. rewrite Hfinal in Hr.
  injection Hr as <-. cbn [nodes] in Hn. unfold levelGroupsOf in Hn.
  pose proof (levelGroups_sorted (fun a => getOr0 (levels final) (agent_id a))
                (plan_agents plan) [] (groupsSorted_nil _)) as [_ Hall].
  pose proof (levelGroups_data (fun a => getOr0 (levels final) (agent_id a))
                (plan_agents plan) []) as Hperm.
  assert (Hdata : node_data n ∈ plan_agents plan).
  { change (node_data <$> ([] ≫= placeGroup)) with (@nil AgentNode) in Hperm.
    rewrite app_nil_l in Hperm. rewrite <- Hperm.
    apply list_elem_of_fmap. eauto. }
  apply list_elem_of_bind in Hn as ([l ms] & Hin & Hg).
  rewrite Forall_forall in Hall. specialize (Hall _ Hg). cbn [fst snd] in Hall.
  apply placeGroup_column in Hin as (Hx & Hmem & Hid & Hty & Hcol).
  rewrite Forall_forall in Hall. specialize (Hall _ Hmem).
  rewrite Hx, Hid, Hall. done.
Qed.

Lemma layout_nodes_are_the_agents (plan : AgentPlan) :
  exists final r,
    computeLevels plan = Some final /\ planToReactFlow plan = Some r /\
    node_data <$> nodes r ≡ₚ plan_agents plan /\
    Forall (fun n =>
              node_id n = agent_id (node_data n) /\
              node_type n = "agentNode" /\
              node_color n = AGENT_TYPE_COLORS (agent_type (node_data n)) /\
              pos_x (node_position n) = (getOr0 (levels final) (node_id n) * 380)%Z /\
              (0 <= pos_x (node_position n))%Z /\
              (incoming (plan_edges plan) (node_id n) = 0 -> pos_x (node_position n) = 0%Z))
           (nodes r).
Proof.
  destruct (computeLevels_total plan) as [final Hfinal]. exists final.
  assert (Hr : exists r, planToReactFlow plan = Some r).
  { unfold planToReactFlow. rewrite Hfinal. eauto. }
  destruct Hr as [r Hr]. exists r. split; [done|]. split; [done|]. split.
  - unfold planToReactFlow in Hr. rewrite Hfinal in Hr. injection Hr as <-.
    cbn [nodes]. unfold levelGroupsOf.
    by rewrite (levelGroups_data (fun a => getOr0 (levels final) (agent_id a))).
  - apply Forall_forall. intros n Hn.
    destruct (nodes_column plan final r n Hfinal Hr Hn) as (Hx & _ & Hid & Hty & Hcol).
    destruct (levelsGrounded_final plan final Hfinal (node_id n)) as [H0 Hroot].
    unfold NODE_WIDTH, HORIZONTAL_GAP in Hx.
    repeat split; try done; lia.
Qed.

Lemma node_of_agent plan r a :
  planToReactFlow plan = Some r -> a ∈ plan_agents plan ->
  exists n, n ∈ nodes r /\ node_data n = a.
Proof.
  intros Hr Ha. destruct (layout_nodes_are_the_agents plan) as (final & r' & _ & Hr' & Hperm & _).
  rewrite Hr in Hr'. injection Hr' as <-.
  rewrite <- Hperm in Ha. apply list_elem_of_fmap in Ha as (n & -> & Hn). eauto.
Qed.

(** ** Plans with one agent per column *)

Lemma pushGroup_new level agent groups :
  level ∉ fst <$> groups ->
  pushGroup level agent groups = groups ++ [(level, [agent])].
Proof.
  induction groups as [|[l ms] groups IH]; [done|].
  rewrite fmap_cons, not_elem_of_cons. cbn [fst]. intros [Hne Hno].
  cbn [pushGroup]. destruct (Z.eqb_spec l level) as [->|_]; [done|].
  by rewrite IH.
Qed.

Lemma levelGroups_single col agents groups :
  NoDup ((fst <$> groups) ++ (col <$> agents)) ->
  fold_left (fun g a => pushGroup (col a) a g) agents groups =
  groups ++ ((fun a => (col a, [a])) <$> agents).
Proof.
  revert groups. induction agents as [|a agents IH]; intros groups Hnd.
  - by rewrite app_nil_r.
  - cbn [fold_left]. rewrite fmap_cons in Hnd.
    rewrite pushGroup_new.
    + rewrite IH.
      * by rewrite <- app_assoc.
      * rewrite fmap_app. cbn. rewrite <- app_assoc. exact Hnd.
    + apply NoDup_app in Hnd as (_ & Hdisj & _). intros Hin.
      apply (Hdisj _ Hin). by left.
Qed.

Lemma single_columns_nodes (col : AgentNode -> Z) agents :
  ((fun a => (col a, [a])) <$> agents) ≫= placeGroup =
  (fun a => nodeAt (col a) 1 0 a) <$> agents.
Proof.
  induction agents as [|a agents IH]; [done|].
  rewrite !fmap_cons, bind_cons, IH. reflexivity.
Qed.

Section ChainLayout.
Variables (plan : AgentPlan) (n : nat).
Hypothesis chain_ids : agent_id <$> plan_agents plan = chainIds n.
Hypothesis chain_ends : endpoints <$> plan_edges plan = chainEnds n.

Lemma chain_edge_inv e :
  e ∈ plan_edges plan ->
  exists i, 1 <= i < n /\ edge_from e = agentIdOf i /\ edge_to e = agentIdOf (S i).
Proof.
  intros He.
  assert (Hp : endpoints e ∈ chainEnds n).
  { rewrite <- chain_ends. apply list_elem_of_fmap. eauto. }
  unfold chainEnds in Hp. apply list_elem_of_fmap in Hp as (i & Hi & Hseq).
  apply elem_of_seq in Hseq. unfold endpoints in Hi. injection Hi as -> ->.
  exists i. split; [lia|done].
Qed.

Lemma chain_edge i :
  1 <= i < n ->
  exists e, e ∈ plan_edges plan /\ edge_from e = agentIdOf i /\ edge_to e = agentIdOf (S i).
Proof.
  intros Hi.
  assert (Hp : (agentIdOf i, agentIdOf (S i)) ∈ endpoints <$> plan_edges plan).
  { rewrite chain_ends. unfold chainEnds. apply list_elem_of_fmap. exists i.
    split; [done|]. apply elem_of_seq. lia. }
  apply list_elem_of_fmap in Hp as (e & He & Hin). unfold endpoints in He.
  injection He as Hf Ht. eauto.
Qed.

Lemma chain_distinct : NoDup (declaredIds plan).
Proof. unfold declaredIds. rewrite chain_ids. apply NoDup_chainIds. Qed.

Lemma chain_resolved : edgesResolved (declaredIds plan) (plan_edges plan).
Proof. unfold declaredIds. rewrite chain_ids. by apply chain_edgesResolved. Qed.

Lemma chain_acyclic : acyclic plan.
Proof. apply forward_acyclic. by eapply chain_forward. Qed.

Lemma chain_levels final k :
  computeLevels plan = Some final -> k < n ->
  getOr0 (levels final) (agentIdOf (S k)) = Z.of_nat k.
Proof.
  intros Hfinal. induction k as [|k IH]; intros Hk.
  - destruct (levelsGrounded_final plan final Hfinal (agentIdOf 1)) as [_ Hroot].
    destruct (decide (getOr0 (levels final) (agentIdOf 1) = 0%Z)) as [|Hz]; [done|].
    apply Hroot, incoming_pos, list_elem_of_fmap in Hz as (e & He & Hin).
    apply chain_edge_inv in Hin as (i & Hi & _ & Hto).
    rewrite Hto in He. apply agentIdOf_inj in He. lia.
  - destruct (chain_edge (S k)) as (e & He & Hf & Ht); [lia|].
    pose proof (levels_increase plan chain_distinct chain_resolved chain_acyclic
                  final e Hfinal He) as Hup.
    rewrite Hf, Ht, IH in Hup by lia.
    destruct (levels_tight plan chain_distinct chain_resolved final (agentIdOf (S (S k))) Hfinal)
      as (e' & He' & Hto & Heq); [lia|].
    apply chain_edge_inv in He' as (i & Hi & Hfrom' & Hto').
    rewrite Hto' in Hto. apply agentIdOf_inj in Hto. injection Hto as ->.
    rewrite Heq, Hfrom', IH by lia. lia.
Qed.

Lemma chain_columns final :
  computeLevels plan = Some final ->
  (fun a => getOr0 (levels final) (agent_id a)) <$> plan_agents plan =
  Z.of_nat <$> seq 0 n.
Proof.
  intros Hfinal.
  rewrite (list_fmap_compose agent_id (getOr0 (levels final))), chain_ids.
  unfold chainIds. rewrite <- (fmap_S_seq 0), <- !list_fmap_compose.
  apply list_fmap_ext. intros i k Hk. cbn.
  apply lookup_seq in Hk as [-> Hk]. by apply chain_levels.
Qed.

(** A chain is laid out as one row, one agent per column. *)
Lemma chain_layout :
  exists final r, computeLevels plan = Some final /\ planToReactFlow plan = Some r /\
    nodes r = (fun a => nodeAt (getOr0 (levels final) (agent_id a)) 1 0 a) <$> plan_agents plan /\
    (fun a => getOr0 (levels final) (agent_id a)) <$> plan_agents plan = Z.of_nat <$> seq 0 n.
Proof.
  destruct (computeLevels_total plan) as [final Hfinal]. exists final.
  unfold planToReactFlow. rewrite Hfinal. eexists. split; [done|]. split; [done|].
  pose proof (chain_columns final Hfinal) as Hcols. split; [|done].
  cbn [nodes]. unfold levelGroupsOf.
  rewrite (levelGroups_single (fun a => getOr0 (levels final) (agent_id a))).
  - rewrite app_nil_l. apply single_columns_nodes.
  - rewrite fmap_nil, app_nil_l, Hcols. apply (NoDup_fmap_2 _), NoDup_seq.
Qed.
End ChainLayout.

(** ** The layout of a generated plan *)

(** The plan built from a non-empty list of steps. *)
Lemma planFromDescription_steps d :
  cannedFor d = None -> parseSteps d ≠ [] ->
  let p := planFromDescription d in
  agent_id <$> plan_agents p = chainIds (List.length (parseSteps d)) /\
  endpoints <$> plan_edges p = chainEnds (List.length (parseSteps d)).
Proof.
  intros Hc Hs. cbv zeta. unfold planFromDescription. rewrite Hc.
  destruct (parseSteps d) as [|step steps] eqn:Hsteps; [done|].
  destruct (buildFromSteps_chain (step :: steps)) as (Hids & Hends & _).
  cbn [plan_agents plan_edges]. done.
Qed.

(** ** The client-side validator *)

Lemma clientHasCycle_total plan : exists b, clientHasCycle plan = Some b.
Proof.
  unfold clientHasCycle.
  pose proof (size_list_to_set_le (agent_id <$> plan_agents plan)) as H1.
  pose proof (size_list_to_set_le (edge_to <$> plan_edges plan)) as H2.
  rewrite length_fmap in H1. rewrite length_fmap in H2.
  set (ids := agent_id <$> plan_agents plan) in *.
  set (U := (list_to_set ids ∪ list_to_set (edge_to <$> plan_edges plan) : gset string)).
  apply (anyCycle_total (adjacencyOf ids (plan_edges plan)) U).
  - intros k l x Hl Hx. rewrite adjacencyOf_lookup in Hl.
    destruct (has ids k); [|done]. injection Hl as <-.
    apply elem_of_outgoing in Hx. set_solver.
  - set_solver.
  - unfold U, searchFuel. rewrite size_union_alt.
    assert (size (list_to_set (edge_to <$> plan_edges plan) ∖ list_to_set ids : gset string)
            <= size (list_to_set (edge_to <$> plan_edges plan) : gset string))
      by (apply subseteq_size; set_solver).
    lia.
Qed.

Lemma edgeErrors_length ids edges :
  List.length (clientEdgeErrors ids edges) = List.length (edgeErrors ids edges).
Proof.
  unfold clientEdgeErrors, edgeErrors. induction edges as [|e edges IH]; [done|].
  rewrite !bind_cons, !length_app, IH.
  by destruct (has ids (edge_from e)), (has ids (edge_to e)).
Qed.

Lemma inputErrors_length ids agents :
  List.length (clientInputErrors ids agents) = List.length (inputErrors ids agents).
Proof.
  unfold clientInputErrors, inputErrors. induction agents as [|a agents IH]; [done|].
  rewrite !bind_cons, !length_app, IH. f_equal. clear IH.
  induction (agent_inputs a) as [|i ins IH]; [done|].
  rewrite !bind_cons, !length_app, IH. f_equal.
  destruct (input_from i) as [from|]; [|done].
  by destruct (Js.truthy from && negb (has ids from)).
Qed.

Lemma warnings_length plan :
  List.length (clientWarnings plan) = List.length (danglingWarnings plan).
Proof.
  unfold clientWarnings, danglingWarnings. cbv zeta.
  induction (plan_agents plan) as [|a agents IH]; [done|].
  rewrite !bind_cons, !length_app, IH. f_equal. clear IH.
  induction (agent_outputs a) as [|o outs IH]; [done|].
  rewrite !bind_cons, !length_app, IH. f_equal.
  destruct (bool_decide _); [|done].
  by destruct (existsb _ _).
Qed.

(** ** The bounding box *)

Lemma encloses_one n :
  Encloses [n] (pos_x (node_position n)) (pos_x (node_position n) + NODE_WIDTH)
               (pos_y (node_position n)) (pos_y (node_position n) + NODE_HEIGHT).
Proof.
  split; try (exists n; split; [by left|done]).
  intros m Hm. apply list_elem_of_singleton in Hm as ->. lia.
Qed.

Lemma encloses_snoc nodes n x0 x1 y0 y1 :
  Encloses nodes x0 x1 y0 y1 ->
  Encloses (nodes ++ [n])
    (Z.min x0 (pos_x (node_position n))) (Z.max x1 (pos_x (node_position n) + NODE_WIDTH))
    (Z.min y0 (pos_y (node_position n))) (Z.max y1 (pos_y (node_position n) + NODE_HEIGHT)).
Proof.
  intros [Hh (a & Ha & Hax) (b & Hb & Hbx) (c & Hc & Hcy) (d & Hd & Hdy)].
  split.
  - intros m Hm. apply elem_of_app in Hm as [Hm|Hm].
    + specialize (Hh m Hm). lia.
    + apply list_elem_of_singleton in Hm as ->. lia.
  - destruct (Z.min_spec x0 (pos_x (node_position n))) as [[_ ->]|[_ ->]].
    + exists a. split; [set_solver|done].
    + exists n. split; [set_solver|done].
  - destruct (Z.max_spec x1 (pos_x (node_position n) + NODE_WIDTH)) as [[_ ->]|[_ ->]].
    + exists n. split; [set_solver|done].
    + exists b. split; [set_solver|done].
  - destruct (Z.min_spec y0 (pos_y (node_position n))) as [[_ ->]|[_ ->]].
    + exists c. split; [set_solver|done].
    + exists n. split; [set_solver|done].
  - destruct (Z.max_spec y1 (pos_y (node_position n) + NODE_HEIGHT)) as [[_ ->]|[_ ->]].
    + exists n. split; [set_solver|done].
    + exists d. split; [set_solver|done].
Qed.

Lemma fold_growBounds done rest x0 x1 y0 y1 :
  Encloses done x0 x1 y0 y1 ->
  exists x0' x1' y0' y1',
    fold_left growBounds rest
      {| minX := Num x0; maxX := Num x1; minY := Num y0; maxY := Num y1 |} =
    {| minX := Num x0'; maxX := Num x1'; minY := Num y0'; maxY := Num y1' |} /\
    Encloses (done ++ rest) x0' x1' y0' y1'.
Proof.
  revert done x0 x1 y0 y1. induction rest as [|n rest IH]; intros done x0 x1 y0 y1 Henc.
  - exists x0, x1, y0, y1. by rewrite app_nil_r.
  - cbn [fold_left]. unfold growBounds at 2. cbn [minX maxX minY maxY mathMin mathMax].
    destruct (IH (done ++ [n]) _ _ _ _ (encloses_snoc _ n _ _ _ _ Henc))
      as (x0' & x1' & y0' & y1' & Heq & Henc').
    exists x0', x1', y0', y1'. rewrite <- app_assoc in Henc'. done.
Qed.

Lemma calculateBounds_encloses (nodes : list FlowNode) :
  nodes ≠ [] ->
  exists x0 x1 y0 y1,
    calculateBounds nodes =
      {| minX := Num x0; maxX := Num x1; minY := Num y0; maxY := Num y1 |} /\
    Encloses nodes x0 x1 y0 y1 /\
    (x0 + NODE_WIDTH <= x1)%Z /\ (y0 + NODE_HEIGHT <= y1)%Z.
Proof.
  intros Hne. destruct nodes as [|n rest]; [done|].
  unfold calculateBounds. cbn [List.length Nat.eqb fold_left].
  unfold growBounds at 2. cbn [minX maxX minY maxY mathMin mathMax].
  destruct (fold_growBounds [n] rest _ _ _ _ (encloses_one n))
    as (x0 & x1 & y0 & y1 & Heq & Henc).
  exists x0, x1, y0, y1. split; [done|]. split; [done|].
  destruct Henc as [Hh (a & Ha & Hax) _ (c & Hc & Hcy) _].
  pose proof (Hh a Ha). pose proof (Hh c Hc). lia.
Qed.

(** ** Replacing single characters *)

Lemma replaceAll_go_chr fuel a b prev s :
  String.length s < fuel ->
  replaceAll_go fuel false (Chr a) (String b EmptyString) prev s = mapChars (substitute a b) s.
Proof.
  revert prev s. induction fuel as [|f IH]; intros prev s Hlen; [lia|].
  destruct s as [|c s']; [done|].
  cbn [replaceAll_go exec rmatch char_eq mapChars]. simpl in Hlen. unfold substitute at 1.
  destruct (Ascii.eqb a c).
  - assert (Hlt : Nat.ltb (String.length s') (String.length (String c s')) = true)
      by (apply Nat.ltb_lt; simpl; lia).
    rewrite Hlt, IH by lia. done.
  - rewrite IH by lia. done.
Qed.

Lemma replaceAll_chr a b s :
  replaceAll false (Chr a) (String b EmptyString) s = mapChars (substitute a b) s.
Proof. unfold replaceAll. apply replaceAll_go_chr. lia. Qed.

Lemma mapChars_length f s : String.length (mapChars f s) = String.length s.
Proof. induction s as [|c s IH]; [done|]. simpl. by rewrite IH. Qed.

Lemma mapChars_mapChars f g s : mapChars f (mapChars g s) = mapChars (fun c => f (g c)) s.
Proof. induction s as [|c s IH]; [done|]. simpl. by rewrite IH. Qed.

Lemma allChars_mapChars p f s :
  (forall c, p (f c) = true) -> allChars p (mapChars f s) = true.
Proof. intros H. induction s as [|c s IH]; [done|]. simpl. by rewrite H, IH. Qed.

Lemma mapChars_id f s :
  mapChars f s = s <-> allChars (fun c => Ascii.eqb (f c) c) s = true.
Proof.
  induction s as [|c s IH]; [done|]. simpl. rewrite andb_true_iff, <- IH, Ascii.eqb_eq.
  split; [intros [= ? ?]; done|intros [-> ->]; done].
Qed.

Lemma escapeLabel_chars text :
  escapeLabel text =
  mapChars (fun c => substitute "]" ")" (substitute "[" "(" (substitute "034" "'" c))) text.
Proof.
  unfold escapeLabel. rewrite !replaceAll_chr, !mapChars_mapChars. done.
Qed.

Lemma escapeLabel_clean (text : string) :
  allChars (fun c => negb (labelBreaking c)) (escapeLabel text) = true /\
  String.length (escapeLabel text) = String.length text /\
  (escapeLabel text = text <-> allChars (fun c => negb (labelBreaking c)) text = true).
Proof.
  rewrite escapeLabel_chars. split; [|split].
  - apply allChars_mapChars. intros c. unfold substitute, labelBreaking.
    destruct (Ascii.eqb_spec "034" c) as [<-|?]; [done|].
    destruct (Ascii.eqb_spec "[" c) as [<-|?]; [done|].
    destruct (Ascii.eqb_spec "]" c) as [<-|?]; [done|].
    destruct (Ascii.eqb_spec c "034") as [->|?]; [done|].
    destruct (Ascii.eqb_spec c "[") as [->|?]; [done|].
    by destruct (Ascii.eqb_spec c "]") as [->|?].
  - apply mapChars_length.
  - rewrite mapChars_id. 
    assert (Hsame : forall c,
              Ascii.eqb (substitute "]" ")" (substitute "[" "(" (substitute "034" "'" c))) c
              = negb (labelBreaking c)).
    { intros c. unfold substitute, labelBreaking.
      rewrite !(Ascii.eqb_sym c).
      destruct (Ascii.eqb_spec "034" c) as [<-|?]; [done|].
      destruct (Ascii.eqb_spec "[" c) as [<-|?]; [done|].
      destruct (Ascii.eqb_spec "]" c) as [<-|?]; [done|].
      simpl. apply Ascii.eqb_refl. }
    assert (Hall : forall s, allChars (fun c => Ascii.eqb
                (substitute "]" ")" (substitute "[" "(" (substitute "034" "'" c))) c) s
              = allChars (fun c => negb (labelBreaking c)) s).
    { intros s. induction s as [|c s IH]; [done|]. simpl. by rewrite Hsame, IH. }
    by rewrite Hall.
Qed.

Lemma take_length n s : String.length (Js.take n s) = Nat.min n (String.length s).
Proof.
  revert s. induction n as [|n IH]; intros s; [done|].
  destruct s as [|c s]; [done|]. simpl. by rewrite IH.
Qed.

(** ** The shape of the parsed steps *)

Lemma allChars_rev p s : allChars p (String.rev s) = allChars p s.
Proof.
  induction s as [|c s IH]; [done|].
  rewrite rev_cons_str, allChars_app, IH. simpl. rewrite andb_true_r. apply andb_comm.
Qed.

Lemma star_total {A} p (k : option ascii -> string -> option A) :
  (forall q r, exists a, k q r = Some a) ->
  forall s prev, exists a, star p prev s k = Some a.
Proof.
  intros Hk. induction s as [|c s IH]; intros prev; simpl; [apply Hk|].
  destruct (p c); [|apply Hk].
  destruct (IH (Some c)) as [a ->]. eauto.
Qed.

Lemma exec_comma_head prev c s :
  exec false RE_comma prev (String c s) = None -> c ≠ ","%char.
Proof.
  intros H ->. unfold exec, RE_comma in H. cbn [Seqs rmatch char_eq] in H.
  rewrite Ascii.eqb_refl in H.
  destruct (star_total Js.is_ws (fun p rest => Some (p, rest))
              (fun q r => ex_intro _ _ eq_refl) s (Some ","%char)) as [a Ha].
  rewrite Ha in H. done.
Qed.

Lemma split_go_commaFree fuel prev cur s :
  allChars notComma cur = true ->
  Forall (fun piece => allChars notComma piece = true)
         (split_go fuel false RE_comma prev cur s).
Proof.
  revert prev cur s. induction fuel as [|fuel IH]; intros prev cur s Hcur; [constructor|].
  destruct s as [|c s]; cbn [split_go].
  - constructor; [by rewrite allChars_rev|constructor].
  - assert (Hadv : c ≠ ","%char ->
              Forall (fun piece => allChars notComma piece = true)
                     (split_go fuel false RE_comma (Some c) (String c cur) s)).
    { intros Hc. apply IH. simpl. rewrite Hcur, andb_true_r. unfold notComma.
      apply negb_true_iff, Ascii.eqb_neq. done. }
    destruct (exec false RE_comma prev (String c s)) as [[p' rest]|] eqn:He.
    + destruct (_ && _) eqn:Hb.
      * apply andb_true_iff in Hb as [Hlen _]. apply Nat.eqb_eq in Hlen.
        apply exec_sound in He as (m & [Hsplit _ Hne _]).
        specialize (Hne eq_refl). exfalso.
        apply (f_equal String.length) in Hsplit.
        rewrite length_app_str in Hsplit.
        destruct m; [done|]. simpl in Hsplit, Hlen. lia.
      * constructor; [by rewrite allChars_rev|]. by apply IH.
    + apply Hadv. by eapply exec_comma_head.
Qed.

Lemma split_commaFree s :
  Forall (fun piece => allChars notComma piece = true) (split false RE_comma s).
Proof.
  unfold split. destruct s as [|c s].
  - destruct (exec _ _ _ _); repeat constructor.
  - by apply split_go_commaFree.
Qed.

Lemma allChars_trimStart p s : allChars p s = true -> allChars p (Js.trimStart s) = true.
Proof.
  induction s as [|c s IH]; [done|]. simpl. intros H.
  destruct (Js.is_ws c); [|done]. apply andb_true_iff in H as [_ H]. auto.
Qed.

Lemma allChars_trimEnd p s : allChars p s = true -> allChars p (Js.trimEnd s) = true.
Proof.
  induction s as [|c s IH]; [done|]. simpl. intros H.
  apply andb_true_iff in H as [Hc H]. specialize (IH H).
  destruct (Js.trimEnd s) as [|d t].
  - destruct (Js.is_ws c); [done|]. simpl. by rewrite Hc.
  - simpl in *. by rewrite Hc, IH.
Qed.

Lemma trimStart_head s c rest : Js.trimStart s = String c rest -> Js.is_ws c = false.
Proof.
  induction s as [|d s IH]; [done|]. simpl.
  destruct (Js.is_ws d) eqn:Hd; [exact IH|]. intros [= <- _]. done.
Qed.

Lemma trimEnd_head c s d rest : Js.trimEnd (String c s) = String d rest -> d = c.
Proof.
  simpl. destruct (Js.trimEnd s); [destruct (Js.is_ws c); [done|]|]; by intros [= <- _].
Qed.

Lemma trim_head s c rest : Js.trim s = String c rest -> Js.is_ws c = false.
Proof.
  unfold Js.trim. intros H. destruct (Js.trimStart s) as [|d t] eqn:Ht; [done|].
  apply trimEnd_head in H as ->. by eapply trimStart_head.
Qed.

Lemma exec_final_dot prev s :
  exec false RE_final_dot prev s =
  if String.eqb s "." then Some (Some "."%char, EmptyString) else None.
Proof.
  unfold exec, RE_final_dot. cbn [Seqs rmatch char_eq].
  destruct s as [|c s]; [done|].
  destruct (Ascii.eqb_spec "." c) as [<-|Hne].
  - destruct s as [|d s]; [done|]. cbn [rmatch].
    destruct (String.eqb_spec (String "." (String d s)) "."); done.
  - destruct (String.eqb_spec (String c s) ".") as [[= -> _]|]; done.
Qed.

(** Removing the final full stop leaves the string, or the string without
    its last character. *)
Lemma replaceFirst_final_dot prev s :
  exists suffix, (suffix = "" \/ suffix = ".") /\
    s = replaceFirst_from false RE_final_dot "" prev s +:+ suffix.
Proof.
  revert prev. induction s as [|c s IH]; intros prev.
  - exists "". split; [by left|]. reflexivity.
  - cbn [replaceFirst_from]. rewrite exec_final_dot.
    destruct (String.eqb_spec (String c s) ".") as [Heq|Hne].
    + exists ".". split; [by right|]. by rewrite Heq.
    + destruct (IH (Some c)) as (suf & Hsuf & Heq).
      exists suf. split; [done|]. rewrite app_cons_str. by rewrite <- Heq.
Qed.

Lemma parseSteps_wellFormed (description : string) :
  Forall wellFormedStep (parseSteps description).
Proof.
  unfold parseSteps. cbv zeta. apply Forall_fmap, Forall_forall. intros p Hp.
  apply list_elem_of_In, filter_In in Hp as [Hp Hlen].
  apply Nat.ltb_lt in Hlen. apply list_elem_of_In in Hp.
  pose proof (split_commaFree (normalize description)) as Hfree.
  rewrite Forall_forall in Hfree. specialize (Hfree p Hp).
  assert (Htrim : allChars notComma (Js.trim p) = true)
    by (by apply allChars_trimEnd, allChars_trimStart).
  unfold compose, wellFormedStep. cbn beta. unfold replaceFirst.
  destruct (replaceFirst_final_dot None (Js.trim p)) as (suf & Hsuf & Heq).
  set (step := replaceFirst_from false RE_final_dot "" None (Js.trim p)) in *.
  assert (Hstep : String.length (Js.trim p) <= String.length step + 1).
  { rewrite Heq at 1. rewrite length_app_str. destruct Hsuf as [-> | ->]; simpl; lia. }
  rewrite Heq, allChars_app in Htrim. apply andb_true_iff in Htrim as [Hfree' _].
  split; [lia|]. split; [|done].
  destruct step as [|c rest]; [simpl in Hstep; lia|].
  exists c, rest. split; [done|]. rewrite app_cons_str in Heq.
  by eapply trim_head.
Qed.

(** ** What the step loop builds *)

Lemma stepBody_adds steps st i :
  built_agents (stepBody steps st i) = built_agents st ++ [agentOfStep steps i] /\
  built_edges (stepBody steps st i) = built_edges st ++ edgesOfStep steps i.
Proof.
  unfold stepBody, agentOfStep, edgesOfStep.
  destruct (inferAgentType (stepAt steps i)) as [type tools]. cbn [fst snd].
  destruct (Nat.ltb 0 i); cbn [built_agents built_edges]; by rewrite ?app_nil_r.
Qed.

Lemma fold_stepBody_adds steps idxs st :
  built_agents (fold_left (stepBody steps) idxs st) =
    built_agents st ++ (agentOfStep steps <$> idxs) /\
  built_edges (fold_left (stepBody steps) idxs st) =
    built_edges st ++ (idxs ≫= edgesOfStep steps).
Proof.
  revert st. induction idxs as [|i idxs IH]; intros st; cbn [fold_left].
  - by rewrite !app_nil_r.
  - destruct (IH (stepBody steps st i)) as [-> ->].
    destruct (stepBody_adds steps st i) as [-> ->].
    by rewrite fmap_cons, bind_cons, <- !app_assoc.
Qed.

Lemma edges_of_seq steps s m :
  1 <= s ->
  seq s m ≫= edgesOfStep steps =
  (fun i => {| edge_from := agentIdOf i; edge_to := agentIdOf (i + 1);
               edge_data := generateOutputName (stepAt steps (i - 1)) (i - 1) |})
    <$> seq s m.
Proof.
  revert s. induction m as [|m IH]; intros s Hs; [done|].
  cbn [seq]. rewrite bind_cons, fmap_cons, IH by lia. unfold edgesOfStep at 1.
  by destruct (Nat.ltb_spec 0 s); [|lia].
Qed.

Lemma buildFromSteps_built steps :
  built_agents (buildFromSteps steps) = agentOfStep steps <$> seq 0 (List.length steps) /\
  built_edges (buildFromSteps steps) =
    (fun i => {| edge_from := agentIdOf i; edge_to := agentIdOf (i + 1);
                 edge_data := generateOutputName (stepAt steps (i - 1)) (i - 1) |})
      <$> seq 1 (List.length steps - 1).
Proof.
  unfold buildFromSteps.
  destruct (fold_stepBody_adds steps (seq 0 (List.length steps))
              {| built_agents := []; built_edges := []; built_schemas := ∅ |}) as [-> ->].
  cbn [built_agents built_edges]. rewrite !app_nil_l. split; [done|].
  destruct (List.length steps) as [|n]; [done|].
  cbn [seq]. rewrite bind_cons. cbn [edgesOfStep Nat.ltb Nat.leb app].
  replace (S n - 1) with n by lia. by apply edges_of_seq.
Qed.

Lemma inferAgentType_in_kinds rules step :
  Forall (fun rule => snd (fst rule) ≠ Orchestrator /\ snd rule ≠ []) rules ->
  fst (inferAgentType_in rules step) ≠ Orchestrator /\
  snd (inferAgentType_in rules step) ≠ [].
Proof.
  induction 1 as [|[[re type] tools] rules [Ht Htools] _ IH]; [done|].
  cbn [inferAgentType_in]. by destruct (test true re step).
Qed.

Lemma inferAgentType_kinds (step : string) :
  fst (inferAgentType step) ≠ Orchestrator /\ snd (inferAgentType step) ≠ [] /\
  (Forall (fun rule => test true (fst (fst rule)) step = false) VERB_TO_AGENT_TYPE ->
   inferAgentType step = (Generator, ["LLM"; "Custom Logic"])).
Proof.
  destruct (inferAgentType_in_kinds VERB_TO_AGENT_TYPE step) as [H1 H2].
  { unfold VERB_TO_AGENT_TYPE. repeat constructor; done. }
  split; [done|]. split; [done|].
  unfold inferAgentType. generalize VERB_TO_AGENT_TYPE.
  induction 1 as [|[[re type] tools] rules Hr _ IH]; [done|].
  cbn [inferAgentType_in fst] in *. by rewrite Hr.
Qed.

Lemma take_app_length n (s : string) : String.length (Js.take n s) <= n.
Proof. rewrite take_length. lia. Qed.

Lemma AgentType_name_length type : 8 <= String.length (AgentType_name type).
Proof. destruct type; simpl; lia. Qed.

Lemma generated_names_bounded (step description : string) (type : AgentType) :
  10 <= String.length (generateAgentName step type) <= 30 /\
  9 <= String.length (generateTitle description) <= 59 /\
  (exists head, generateTitle description = head +:+ " Workflow" /\
                String.length head <= 50).
Proof.
  split; [|split].
  - unfold generateAgentName. cbv zeta. unfold Js.substring0.
    rewrite take_length, !length_app_str.
    pose proof (AgentType_name_length type).
    change (String.length " ") with 1. lia.
  - unfold generateTitle. cbv zeta. unfold Js.substring0.
    rewrite length_app_str, take_length.
    change (String.length " Workflow") with 9. lia.
  - unfold generateTitle. cbv zeta. eexists. split; [reflexivity|].
    apply take_app_length.
Qed.

(** ** Generated plans *)

Lemma planFromDescription_built d :
  cannedFor d = None -> parseSteps d ≠ [] ->
  planFromDescription d =
  {| plan_version := "0.1";
     plan_title := generateTitle d;
     plan_description := d;
     plan_agents := built_agents (buildFromSteps (parseSteps d));
     plan_edges := built_edges (buildFromSteps (parseSteps d));
     plan_dataSchemas := Some (built_schemas (buildFromSteps (parseSteps d)));
     plan_notes := None |}.
Proof.
  intros Hc Hs. unfold planFromDescription. rewrite Hc.
  by destruct (parseSteps d).
Qed.

Lemma wellFormedStep_truthy step : wellFormedStep step -> Js.truthy step = true.
Proof. intros (_ & (c & rest & -> & _) & _). done. Qed.

Lemma chain_no_warnings (plan : AgentPlan) (steps : list string) :
  plan_agents plan = agentOfStep steps <$> seq 0 (List.length steps) ->
  plan_edges plan =
    (fun i => {| edge_from := agentIdOf i; edge_to := agentIdOf (i + 1);
                 edge_data := generateOutputName (stepAt steps (i - 1)) (i - 1) |})
      <$> seq 1 (List.length steps - 1) ->
  danglingWarnings plan = [].
Proof.
  intros Ha He. unfold danglingWarnings. cbv zeta. rewrite Ha.
  set (n := List.length steps) in *.
  assert (Hall : Forall (fun i => i < n) (seq 0 n)).
  { apply Forall_forall. intros i Hi%elem_of_seq. lia. }
  clear Ha. induction Hall as [|i idxs Hi _ IH]; [done|].
  rewrite fmap_cons, bind_cons, IH, app_nil_r. clear IH.
  change (agent_outputs (agentOfStep steps i))
    with [{| output_name := generateOutputName (stepAt steps i) i |}].
  change (agent_id (agentOfStep steps i)) with (agentIdOf (i + 1)).
  rewrite bind_cons.
  assert (Hnil : forall f : AgentOutput -> list string, [] ≫= f = []) by done.
  rewrite Hnil, app_nil_r. clear Hnil.
  cbn [output_name].
  destruct (decide (i + 1 < n)) as [Hlt|Hlast].
  - rewrite bool_decide_eq_false_2; [done|]. intros Hnot. apply Hnot.
    unfold consumedOutputsOf. apply elem_of_list_to_set, list_elem_of_fmap.
    exists {| edge_from := agentIdOf (i + 1); edge_to := agentIdOf (i + 1 + 1);
              edge_data := generateOutputName (stepAt steps (i + 1 - 1)) (i + 1 - 1) |}.
    cbn [edge_from edge_data]. replace (i + 1 - 1) with i by lia. split; [done|].
    rewrite He. apply list_elem_of_fmap. exists (i + 1).
    replace (i + 1 - 1) with i by lia. split; [done|]. apply elem_of_seq. lia.
  - assert (Hout : existsb (fun e => String.eqb (edge_from e) (agentIdOf (i + 1)))
                           (plan_edges plan) = false).
    { apply not_true_is_false. intros Hex. apply existsb_exists in Hex as (e & Hin & Heq).
      apply list_elem_of_In in Hin. rewrite He in Hin.
      apply list_elem_of_fmap in Hin as (k & -> & Hk%elem_of_seq).
      cbn [edge_from] in Heq. rewrite agentIdOf_eqb in Heq. apply Nat.eqb_eq in Heq. lia. }
    rewrite Hout. by destruct (bool_decide _).
Qed.

Lemma generated_plan_validates_clean (d : string) :
  cannedFor d = None ->
  validatePlan (planFromDescription d) =
    Some {| ok := true; errors := []; warnings := [] |}.
Proof.
  intros Hc. destruct (parseSteps d) as [|step steps] eqn:Hsteps.
  - unfold planFromDescription. rewrite Hc, Hsteps. apply minimalPlan_valid.
  - assert (Hs : parseSteps d ≠ []) by (by rewrite Hsteps).
    destruct (planFromDescription_steps d Hc Hs) as [Hids Hends].
    destruct (buildFromSteps_chain (parseSteps d)) as (_ & _ & Hin).
    destruct (chain_valid (planFromDescription d) (List.length (parseSteps d)))
      as (r & Hr & Herr & Hok & Hw); [rewrite Hsteps; simpl; lia|done|done| |].
    { rewrite (planFromDescription_built d Hc Hs). exact Hin. }
    rewrite Hr. f_equal. destruct r as [o e w]. cbn in *. subst.
    f_equal. apply (chain_no_warnings _ (parseSteps d)).
    + rewrite (planFromDescription_built d Hc Hs). apply buildFromSteps_built.
    + rewrite (planFromDescription_built d Hc Hs). apply buildFromSteps_built.
Qed.

(** ** The planner against the schema *)

Lemma minLength_1 s : minLength 1 s = true <-> s ≠ "".
Proof. unfold minLength. destruct s; simpl; split; try done. Qed.

Lemma generateOutputName_nonempty step i : generateOutputName step i ≠ "".
Proof.
  unfold generateOutputName. cbv zeta.
  destruct (findNoun nouns _) as [noun|].
  - intros H. apply (f_equal String.length) in H. rewrite length_app_str in H.
    simpl in H. lia.
  - destruct (assoc _ verbToOutput) as [out|] eqn:Ha; [|done].
    revert Ha. generalize (firstWordOr (split false RE_spaces (Js.toLowerCase step)) "process").
    intros verb. unfold verbToOutput. cbn [assoc].
    repeat match goal with
           | |- (if ?b then _ else _) = _ -> _ => destruct b; [by intros [= <-]|]
           end.
    done.
Qed.

Lemma toUpperCase_nonempty s : s ≠ "" -> Js.toUpperCase s ≠ "".
Proof. destruct s as [|c s]; [done|]. intros _. simpl. by destruct (Nat.eqb _ _). Qed.

Lemma capitalize_nonempty s : s ≠ "" -> capitalize s ≠ "".
Proof.
  intros Hs. unfold capitalize. destruct s as [|c s]; [done|].
  intros H. apply (f_equal String.length) in H. rewrite length_app_str in H.
  assert (Js.toUpperCase (Js.charAt0 (String c s)) ≠ "") by (by apply toUpperCase_nonempty).
  destruct (Js.toUpperCase (Js.charAt0 (String c s))); [done|]. simpl in H. lia.
Qed.

Lemma trim_wellFormed step : wellFormedStep step -> Js.trim step ≠ "".
Proof.
  intros (_ & (c & rest & -> & Hc) & _). unfold Js.trim. simpl. rewrite Hc.
  by rewrite trimEnd_solid.
Qed.

Lemma ZAgentNode_step steps i :
  i < List.length steps -> Forall wellFormedStep steps ->
  ZAgentNode (agentOfStep steps i) = true.
Proof.
  intros Hi Hwf. rewrite Forall_forall in Hwf.
  destruct (lookup_lt_is_Some_2 steps i Hi) as [step Hstep].
  assert (Hat : stepAt steps i = step) by (unfold stepAt; by rewrite Hstep).
  unfold ZAgentNode, agentOfStep. cbv zeta.
  cbn [agent_id agent_name agent_summary agent_inputs agent_outputs].
  rewrite Hat.
  assert (Hname : minLength 1 (generateAgentName step (inferAgentType step).1) = true).
  { apply minLength_1. intros H. apply (f_equal String.length) in H.
    pose proof (generated_names_bounded step "" (inferAgentType step).1) as [Hn _].
    rewrite H in Hn. simpl in Hn. lia. }
  assert (Hsummary : minLength 1 (capitalize (Js.trim step)) = true).
  { apply minLength_1, capitalize_nonempty, trim_wellFormed, Hwf.
    by eapply list_elem_of_lookup_2. }
  assert (Hout : forall s k, minLength 1 (generateOutputName s k) = true).
  { intros s k. apply minLength_1, generateOutputName_nonempty. }
  rewrite Hname, Hsummary. unfold ZAgentOutput, ZAgentInput.
  cbn [forallb output_name]. rewrite Hout.
  destruct (Nat.ltb 0 i); cbn [forallb input_name].
  - destruct (Js.truthy _); [by rewrite Hout|done].
  - done.
Qed.

(** Every plan of the planner passes the schema when the description is
    not empty. *)
Lemma planner_passes_schema d : d ≠ "" -> ZAgentPlan (planFromDescription d) = true.
Proof.
  intros Hd. destruct (cannedFor d) as [t|] eqn:Hc.
  - unfold planFromDescription. rewrite Hc. apply cannedFor_member in Hc.
    rewrite !elem_of_cons, elem_of_nil in Hc.
    destruct Hc as [->|[->|[->|[]]]]; vm_compute; reflexivity.
  - destruct (parseSteps d) as [|step steps] eqn:Hsteps.
    + unfold planFromDescription. rewrite Hc, Hsteps.
      unfold ZAgentPlan, minimalPlan. cbn [plan_version plan_title plan_description
        plan_agents plan_edges].
      apply minLength_1 in Hd. rewrite Hd. reflexivity.
    + assert (Hs : parseSteps d ≠ []) by (by rewrite Hsteps).
      rewrite (planFromDescription_built d Hc Hs).
      destruct (buildFromSteps_built (parseSteps d)) as [Ha He].
      unfold ZAgentPlan. cbn [plan_version plan_title plan_description plan_agents plan_edges].
      assert (Htitle : minLength 1 (generateTitle d) = true).
      { apply minLength_1. intros H. apply (f_equal String.length) in H.
        pose proof (generated_names_bounded "" d Orchestrator) as (_ & Ht & _).
        rewrite H in Ht. simpl in Ht. lia. }
      assert (Hagents : forallb ZAgentNode (built_agents (buildFromSteps (parseSteps d))) = true).
      { rewrite Ha. apply forallb_forall. intros a Hin%list_elem_of_In.
        apply list_elem_of_fmap in Hin as (i & -> & Hi%elem_of_seq).
        apply ZAgentNode_step; [lia|apply parseSteps_wellFormed]. }
      assert (Hedges : forallb ZEdgeSpec (built_edges (buildFromSteps (parseSteps d))) = true).
      { rewrite He. apply forallb_forall. intros e Hin%list_elem_of_In.
        apply list_elem_of_fmap in Hin as (i & -> & Hi%elem_of_seq).
        unfold ZEdgeSpec. cbn [edge_from edge_to edge_data].
        assert (Hout : minLength 1 (generateOutputName (stepAt (parseSteps d) (i - 1)) (i - 1))
                       = true) by apply minLength_1, generateOutputName_nonempty.
        rewrite Hout. reflexivity. }
      assert (Hlen : Nat.leb 1 (List.length (built_agents (buildFromSteps (parseSteps d)))) = true).
      { rewrite Ha, length_fmap, length_seq, Hsteps. done. }
      apply minLength_1 in Hd.
      rewrite Htitle, Hd, Hagents, Hedges, Hlen. reflexivity.
Qed.

Lemma planner_validates d :
  exists r, validatePlan (planFromDescription d) = Some r /\ errors r = [] /\ ok r = true.
Proof.
  destruct (cannedFor d) as [t|] eqn:Hc.
  - unfold planFromDescription. rewrite Hc. by eapply canned_valid, cannedFor_member.
  - eexists. split; [by apply generated_plan_validates_clean|done].
Qed.

(** ** Sublists of warnings *)

Lemma sublist_bind {A B} (f g : A -> list B) l :
  (forall x, x ∈ l -> f x `sublist_of` g x) -> (l ≫= f) `sublist_of` (l ≫= g).
Proof.
  induction l as [|a l IH]; intros H; [done|].
  rewrite !bind_cons. apply sublist_app; [apply H; by left|].
  apply IH. intros x Hx. apply H. by right.
Qed.

(** ** Edge labels *)

Lemma underscoresToSpaces_chars s :
  underscoresToSpaces s = mapChars (substitute "_" " ") s.
Proof. unfold underscoresToSpaces. apply replaceAll_chr. Qed.

Section Compact.
Variable plan : AgentPlan.
Hypothesis ids_distinct : NoDup (declaredIds plan).
Hypothesis edges_resolved : edgesResolved (declaredIds plan) (plan_edges plan).
Variable final : Kahn.
Hypothesis Hfinal : computeLevels plan = Some final.

(** ** The columns in use are contiguous *)

Lemma level_ladder k : forall v,
  v ∈ declaredIds plan -> getOr0 (levels final) v = Z.of_nat k ->
  exists l, getOr0 (levels final) <$> l = Z.of_nat <$> reverse (seq 0 (S k)) /\
            Forall (fun u => u ∈ declaredIds plan) l.
Proof.
  induction k as [|k IH]; intros v Hv Hk.
  - exists [v]. split; [by rewrite fmap_cons, Hk|by constructor].
  - destruct (levels_tight plan ids_distinct edges_resolved final v Hfinal)
      as (e & He & Hto & Heq); [lia|].
    assert (Hu : edge_from e ∈ declaredIds plan).
    { pose proof edges_resolved as Hres. unfold edgesResolved in Hres.
      rewrite Forall_forall in Hres. by apply Hres. }
    destruct (IH (edge_from e) Hu) as (l & Hl & Hin); [lia|].
    exists (v :: l). split; [|by constructor].
    rewrite fmap_cons, Hk, Hl. rewrite (seq_S (S k)), reverse_app. done.
Qed.

Lemma level_bound v :
  v ∈ declaredIds plan ->
  (0 <= getOr0 (levels final) v <= Z.of_nat (List.length (plan_agents plan)) - 1)%Z /\
  forall j, (0 <= j <= getOr0 (levels final) v)%Z ->
    exists u, u ∈ declaredIds plan /\ getOr0 (levels final) u = j.
Proof.
  intros Hv.
  destruct (levelsGrounded_final plan final Hfinal v) as [H0 _].
  destruct (level_ladder (Z.to_nat (getOr0 (levels final) v)) v Hv) as (l & Hl & Hin); [lia|].
  split.
  - split; [done|].
    assert (Hnd : NoDup l).
    { apply (NoDup_fmap_1 (getOr0 (levels final))). rewrite Hl.
      apply (NoDup_fmap_2 _). rewrite reverse_Permutation. apply NoDup_seq. }
    rewrite Forall_forall in Hin.
    pose proof (submseteq_length _ _ (NoDup_submseteq _ _ Hnd Hin)) as Hlen.
    apply (f_equal List.length) in Hl.
    rewrite !length_fmap, length_reverse, length_seq in Hl.
    unfold declaredIds in Hlen. rewrite length_fmap in Hlen. lia.
  - intros j Hj.
    assert (Hjl : j ∈ getOr0 (levels final) <$> l).
    { rewrite Hl. apply list_elem_of_fmap. exists (Z.to_nat j). split; [lia|].
      apply elem_of_reverse, elem_of_seq. lia. }
    apply list_elem_of_fmap in Hjl as (u & -> & Hu).
    exists u. split; [|done]. rewrite Forall_forall in Hin. by apply Hin.
Qed.
End Compact.

(** ** The bounding box of a layout *)

Lemma seed_fold_rootless (agents : list AgentNode) st :
  Forall (fun a => getOr0 (inDegree st) (agent_id a) ≠ 0%Z) agents ->
  fold_left
    (fun st agent =>
       if (getOr0 (inDegree st) (agent_id agent) =? 0)%Z
       then {| inDegree := inDegree st;
               levels := <[agent_id agent := 0%Z]> (levels st);
               queue := queue st ++ [agent_id agent] |}
       else st) agents st = st.
Proof.
  induction 1 as [|a agents Ha _ IH]; [done|]. cbn [fold_left].
  apply Z.eqb_neq in Ha. by rewrite Ha.
Qed.

(** Some agent is in column 0. *)
Lemma column0_occupied plan final :
  computeLevels plan = Some final -> plan_agents plan ≠ [] ->
  exists a, a ∈ plan_agents plan /\ getOr0 (levels final) (agent_id a) = 0%Z.
Proof.
  intros Hfinal Hne.
  destruct (decide (Exists (fun a => incoming (plan_edges plan) (agent_id a) = 0)
                           (plan_agents plan))) as [Hex|Hno].
  - apply Exists_exists in Hex as (a & Ha & Hin). exists a. split; [done|].
    destruct (levelsGrounded_final plan final Hfinal (agent_id a)) as [_ Hroot].
    destruct (decide (getOr0 (levels final) (agent_id a) = 0%Z)) as [|Hz]; [done|].
    apply Hroot in Hz. lia.
  - apply not_Exists_Forall in Hno; [|intros a; apply _].
    assert (Hseed : seedRoots plan =
              {| inDegree := initialInDegree plan; levels := ∅; queue := [] |}).
    { unfold seedRoots. apply seed_fold_rootless. cbn [inDegree].
      eapply Forall_impl; [exact Hno|]. intros a Ha. cbn in Ha.
      rewrite initialInDegree_lookup. lia. }
    unfold computeLevels in Hfinal. rewrite Hseed, drain_done in Hfinal by done.
    injection Hfinal as <-.
    destruct (plan_agents plan) as [|a agents]; [done|].
    exists a. split; [by left|]. done.
Qed.

(** Every node has a mirror image in its column. *)
Lemma placeGroup_mirror level members n :
  n ∈ placeGroup (level, members) ->
  exists m, m ∈ placeGroup (level, members) /\
    (pos_y (node_position m) + NODE_HEIGHT = - pos_y (node_position n))%Z.
Proof.
  unfold placeGroup. intros (i & a & -> & Hi)%elem_of_lookup_imap.
  pose proof (lookup_lt_Some _ _ _ Hi) as Hlt.
  destruct (lookup_lt_is_Some_2 members (List.length members - 1 - i)) as [b Hb]; [lia|].
  eexists. split; [by eapply elem_of_lookup_imap_2|]. cbn.
  pose proof (column_start_exact (Z.of_nat (List.length members))) as Hexact.
  unfold NODE_HEIGHT, VERTICAL_GAP in *.
  rewrite Nat2Z.inj_sub, Nat2Z.inj_sub by lia. lia.
Qed.

Lemma nodes_mirror plan r n :
  planToReactFlow plan = Some r -> n ∈ nodes r ->
  exists m, m ∈ nodes r /\
    (pos_y (node_position m) + NODE_HEIGHT = - pos_y (node_position n))%Z.
Proof.
  intros Hr Hn. unfold planToReactFlow in Hr.
  destruct (computeLevels plan) as [final|]; [|done]. injection Hr as <-.
  cbn [nodes] in *. apply list_elem_of_bind in Hn as ([l ms] & Hin & Hg).
  destruct (placeGroup_mirror l ms n Hin) as (m & Hm & Hy).
  exists m. split; [|done]. apply list_elem_of_bind. eauto.
Qed.

(** ** The level is the length of the longest path *)

Lemma levels_longest_path plan final :
  NoDup (declaredIds plan) ->
  edgesResolved (declaredIds plan) (plan_edges plan) ->
  acyclic plan ->
  computeLevels plan = Some final ->
  forall v, (0 <= getOr0 (levels final) v)%Z /\
            longestPathTo plan v (Z.to_nat (getOr0 (levels final) v)).
Proof.
  intros Hnd Hres Hac Hfinal.
  pose proof (levelsGrounded_final plan final Hfinal) as Hg.
  assert (Hup : forall v n, pathTo plan v n ->
                  (Z.of_nat n <= getOr0 (levels final) v)%Z).
  { intros v n Hp. induction Hp as [v|u v n _ IH (e & He & <- & <-)].
    - destruct (Hg v) as [H0 _]. lia.
    - pose proof (levels_increase plan Hnd Hres Hac final e Hfinal He). lia. }
  assert (Hreach : forall m v, Z.to_nat (getOr0 (levels final) v) = m -> pathTo plan v m).
  { induction m as [|m IH]; intros v Hv.
    - constructor.
    - destruct (levels_tight plan Hnd Hres final v Hfinal) as (e & He & Hto & Hl); [lia|].
      apply (pathTo_edge plan (edge_from e)).
      + apply IH. lia.
      + exists e. done. }
  intros v. destruct (Hg v) as [H0 _]. split; [done|]. split.
  - by apply Hreach.
  - intros n Hn. apply Hup in Hn. lia.
Qed.

Lemma longestPathTo_unique plan v L1 L2 :
  longestPathTo plan v L1 -> longestPathTo plan v L2 -> L1 = L2.
Proof.
  intros [H1 M1] [H2 M2]. apply M2 in H1. apply M1 in H2. lia.
Qed.

Lemma columnMates_levelMates final agents agent :
  (forall v, (0 <= getOr0 (levels final) v)%Z) ->
  columnMates final agents agent =
  levelMates (fun v => Z.to_nat (getOr0 (levels final) v)) agents agent.
Proof.
  intros H0. unfold columnMates, levelMates, columnOf.
  apply List.filter_ext. intros b.
  pose proof (H0 (agent_id b)). pose proof (H0 (agent_id agent)).
  destruct (Z.eqb_spec (getOr0 (levels final) (agent_id b))
                       (getOr0 (levels final) (agent_id agent))) as [->|Hne].
  - symmetry. apply Nat.eqb_refl.
  - symmetry. apply Nat.eqb_neq. lia.
Qed.

(** ** Coordinates by level *)

Lemma layout_by_longest_path plan :
  NoDup (declaredIds plan) ->
  edgesResolved (declaredIds plan) (plan_edges plan) ->
  acyclic plan ->
  exists r lvl,
    planToReactFlow plan = Some r /\
    List.length (nodes r) = List.length (plan_agents plan) /\
    (forall v, longestPathTo plan v (lvl v)) /\
    forall k agent, plan_agents plan !! k = Some agent ->
      exists node, node ∈ nodes r /\ node_data node = agent /\
        node_id node = agent_id agent /\
        let n := Z.of_nat (List.length (levelMates lvl (plan_agents plan) agent)) in
        let i := Z.of_nat (List.length
                   (levelMates lvl (List.firstn k (plan_agents plan)) agent)) in
        pos_x (node_position node) = (Z.of_nat (lvl (agent_id agent)) * 380)%Z /\
        pos_y (node_position node) =
          (- (n * NODE_HEIGHT + (n - 1) * VERTICAL_GAP) / 2
           + i * (NODE_HEIGHT + VERTICAL_GAP))%Z /\
        (2 * pos_y (node_position node) =
          - (n * NODE_HEIGHT + (n - 1) * VERTICAL_GAP)
          + 2 * i * (NODE_HEIGHT + VERTICAL_GAP))%Z.
Proof.
  intros Hnd Hres Hac.
  destruct (computeLevels_total plan) as [final Hfinal].
  pose proof (levels_longest_path plan final Hnd Hres Hac Hfinal) as Hlv.
  assert (H0 : forall v, (0 <= getOr0 (levels final) v)%Z) by (intros v; apply Hlv).
  assert (Hr : exists r, planToReactFlow plan = Some r /\
                         List.length (nodes r) = List.length (plan_agents plan)).
  { unfold planToReactFlow. rewrite Hfinal. eexists. split; [reflexivity|].
    cbn [nodes]. unfold levelGroupsOf.
    by rewrite (length_nodes_fold (fun a => getOr0 (levels final) (agent_id a))). }
  destruct Hr as (r & Hr & Hlen).
  exists r, (fun v => Z.to_nat (getOr0 (levels final) v)).
  split; [done|]. split; [done|]. split; [intros v; apply Hlv|].
  intros k agent Hk.
  destruct (layout_places_agent plan final k agent Hfinal Hk) as (r' & Hr' & _ & Hin).
  rewrite Hr in Hr'. injection Hr' as <-.
  rewrite !columnMates_levelMates in Hin by done.
  eexists. split; [exact Hin|]. split; [done|]. split; [done|].
  cbn. unfold columnOf. rewrite Z2Nat.id by apply H0.
  split; [reflexivity|]. split; [reflexivity|].
  pose proof (column_start_exact
    (Z.of_nat (List.length (levelMates (fun v => Z.to_nat (getOr0 (levels final) v))
                              (plan_agents plan) agent)))).
  lia.
Qed.

(** ** A chain of three agents, declared in any order *)

Section AnyOrder.
Variables a b c d1 d2 : string.
Variable q : AgentPlan.
Hypothesis Hnd : NoDup [a; b; c].
Hypothesis Hids : declaredIds q ≡ₚ [a; b; c].
Hypothesis Hedges : plan_edges q ≡ₚ [mkEdge a b d1; mkEdge b c d2].

Lemma anyOrder_distinct : a ≠ b /\ a ≠ c /\ b ≠ c.
Proof.
  apply NoDup_cons in Hnd as [Ha Hnd']. apply NoDup_cons in Hnd' as [Hb _].
  set_solver.
Qed.

Lemma anyOrder_arc x y : arc q x y <-> (x = a /\ y = b) \/ (x = b /\ y = c).
Proof.
  unfold arc. split.
  - intros (e & He & <- & <-). rewrite Hedges in He.
    apply elem_of_cons in He as [->|He]; [by left|].
    apply elem_of_cons in He as [->|He]; [by right|]. by apply elem_of_nil in He.
  - intros [[-> ->]|[-> ->]].
    + exists (mkEdge a b d1). rewrite Hedges. split; [set_solver|done].
    + exists (mkEdge b c d2). rewrite Hedges. split; [set_solver|done].
Qed.

Lemma anyOrder_ids : NoDup (declaredIds q).
Proof. by rewrite Hids. Qed.

Lemma anyOrder_resolved : edgesResolved (declaredIds q) (plan_edges q).
Proof.
  unfold edgesResolved. rewrite Forall_forall. intros e He. rewrite Hids.
  rewrite Hedges in He.
  apply elem_of_cons in He as [->|He]; [set_solver|].
  apply elem_of_cons in He as [->|He]; [set_solver|]. by apply elem_of_nil in He.
Qed.

Lemma anyOrder_tc x y :
  tc (arc q) x y -> (x = a /\ (y = b \/ y = c)) \/ (x = b /\ y = c).
Proof.
  destruct anyOrder_distinct as (Hab & Hac & Hbc).
  induction 1 as [x y H|x y z H _ IH].
  - apply anyOrder_arc in H as [[-> ->]|[-> ->]]; auto.
  - apply anyOrder_arc in H as [[-> ->]|[-> ->]].
    + destruct IH as [[? _]|[_ ->]]; [congruence|auto].
    + destruct IH as [[? _]|[? _]]; congruence.
Qed.

Lemma anyOrder_acyclic : acyclic q.
Proof.
  destruct anyOrder_distinct as (Hab & Hac & Hbc).
  intros x Hx. apply anyOrder_tc in Hx as [[-> [?|?]]|[-> ?]]; congruence.
Qed.

Lemma anyOrder_paths n :
  (pathTo q a n -> n = 0) /\ (pathTo q b n -> n <= 1) /\ (pathTo q c n -> n <= 2).
Proof.
  destruct anyOrder_distinct as (Hab & Hac & Hbc).
  assert (Ha : forall m, pathTo q a m -> m = 0).
  { intros m Hp. inversion Hp as [|u v k _ Harc]; [done|]. subst.
    apply anyOrder_arc in Harc as [[_ ?]|[_ ?]]; congruence. }
  assert (Hb : forall m, pathTo q b m -> m <= 1).
  { intros m Hp. inversion Hp as [|u v k Hu Harc]; [lia|]. subst.
    apply anyOrder_arc in Harc as [[-> _]|[_ ?]]; [|congruence].
    apply Ha in Hu. lia. }
  split; [apply Ha|]. split; [apply Hb|].
  intros Hp. inversion Hp as [|u v k Hu Harc]; [lia|]. subst.
  apply anyOrder_arc in Harc as [[_ ?]|[-> _]]; [congruence|].
  apply Hb in Hu. lia.
Qed.

Lemma anyOrder_levels lvl :
  (forall v, longestPathTo q v (lvl v)) -> lvl a = 0 /\ lvl b = 1 /\ lvl c = 2.
Proof.
  intros Hl.
  assert (Hpb : pathTo q b 1).
  { apply (pathTo_edge q a); [constructor|]. apply anyOrder_arc. by left. }
  assert (Hpc : pathTo q c 2).
  { apply (pathTo_edge q b); [done|]. apply anyOrder_arc. by right. }
  destruct (Hl a) as [Ha _]. destruct (Hl b) as [Hb Mb]. destruct (Hl c) as [Hc Mc].
  apply anyOrder_paths in Ha. apply anyOrder_paths in Hb. apply anyOrder_paths in Hc.
  apply Mb in Hpb. apply Mc in Hpc. lia.
Qed.

Lemma anyOrder_layout :
  exists r nA nB nC,
    planToReactFlow q = Some r /\ nodes r ≡ₚ [nA; nB; nC] /\
    node_id nA = a /\ node_id nB = b /\ node_id nC = c /\
    pos_x (node_position nA) = 0%Z /\
    pos_x (node_position nB) = 380%Z /\
    pos_x (node_position nC) = 760%Z.
Proof.
  destruct anyOrder_distinct as (Hab & Hac & Hbc).
  destruct (layout_by_longest_path q anyOrder_ids anyOrder_resolved anyOrder_acyclic)
    as (r & lvl & Hr & Hlen & Hl & Hnodes).
  destruct (anyOrder_levels lvl Hl) as (La & Lb & Lc).
  assert (Hnode : forall x, x ∈ [a; b; c] ->
            exists n, n ∈ nodes r /\ node_id n = x /\
                      pos_x (node_position n) = (Z.of_nat (lvl x) * 380)%Z).
  { intros x Hx. rewrite <- Hids in Hx. unfold declaredIds in Hx.
    apply list_elem_of_fmap in Hx as (agent & -> & Hin).
    apply list_elem_of_lookup in Hin as [k Hk].
    destruct (Hnodes k agent Hk) as (n & Hn & _ & Hid & Hx & _).
    exists n. done. }
  destruct (Hnode a) as (nA & HA & IA & XA); [set_solver|].
  destruct (Hnode b) as (nB & HB & IB & XB); [set_solver|].
  destruct (Hnode c) as (nC & HC & IC & XC); [set_solver|].
  exists r, nA, nB, nC. rewrite XA, XB, XC, La, Lb, Lc.
  split; [done|]. split; [|done].
  symmetry. apply submseteq_length_Permutation.
  - apply NoDup_submseteq.
    + repeat constructor; set_solver.
    + intros n Hn. set_solver.
  - rewrite Hlen, <- (length_fmap agent_id). fold (declaredIds q). rewrite Hids. done.
Qed.
End AnyOrder.

(** ** Safe integers *)

Lemma isSafeInteger_spec z : isSafeInteger z = true <-> (- 2 ^ 53 < z < 2 ^ 53)%Z.
Proof. unfold isSafeInteger. rewrite andb_true_iff, !Z.ltb_lt. done. Qed.

(* ===================================================================== *)
(** * The claims *)
(* ===================================================================== *)

(** C1. For the input "Fetch data, then extract fields, then notify team."
    the planner returns three agents of archetypes Retriever, Extractor,
    Notifier and two edges; edge i runs from agent i to agent i+1 and its
    data field is the sole output slot of agent i; the single input of
    agent i+1 has that name and agent i as its source; the first agent has
    the root input. *)
Theorem C1_chain_structure :
  let p := planFromDescription chainInput in
  agent_type <$> plan_agents p = [Retriever; Extractor; Notifier] /\
  List.length (plan_edges p) = 2 /\
  Forall2 (fun a e => edge_from e = agent_id a /\
                      agent_outputs a = [mkOutput (edge_data e)])
          (List.firstn 2 (plan_agents p)) (plan_edges p) /\
  Forall2 (fun b e => edge_to e = agent_id b /\
                      agent_inputs b = [mkInput (Some (edge_from e)) (edge_data e)])
          (List.skipn 1 (plan_agents p)) (plan_edges p) /\
  (agent_inputs <$> List.firstn 1 (plan_agents p)) = [[mkInput None "input_data"]] /\
  plan_edges p = [ mkEdge "agent-1" "agent-2" "data_output";
                   mkEdge "agent-2" "agent-3" "extracted_info" ].
Proof.
  cbv zeta. vm_compute. repeat split; repeat constructor.
Qed.



(** C3. For every plan with distinct ids, resolved edges and no cycle the
    layout returns one node per agent, and there is a level function that
    gives every id the length of the longest path of edges that ends in it
    (0 for an agent no edge enters, otherwise one more than the highest
    level of a predecessor) such that the node of an agent has
    x = level * (NODE_WIDTH + HORIZONTAL_GAP) = level * 380 and
    y = -(n NODE_HEIGHT + (n-1) VERTICAL_GAP)/2 + i (NODE_HEIGHT + VERTICAL_GAP),
    where n is the number of agents of its level and i the number of those
    declared before it; the division is exact, so the column is centred on
    y = 0.  For a three-agent chain a -> b -> c, with the agents and the
    edges declared in any order, the nodes of a, b and c are the three nodes
    of the layout and have x = 0, 380 and 760. *)
Theorem C3_layout_coordinates (plan : AgentPlan) (a b c d1 d2 : string) (q : AgentPlan) :
  NoDup (declaredIds plan) ->
  edgesResolved (declaredIds plan) (plan_edges plan) ->
  acyclic plan ->
  NoDup [a; b; c] ->
  declaredIds q ≡ₚ [a; b; c] ->
  plan_edges q ≡ₚ [mkEdge a b d1; mkEdge b c d2] ->
  (exists r lvl,
     planToReactFlow plan = Some r /\
     List.length (nodes r) = List.length (plan_agents plan) /\
     (forall v, longestPathTo plan v (lvl v)) /\
     forall k agent, plan_agents plan !! k = Some agent ->
       exists node, node ∈ nodes r /\ node_data node = agent /\
         node_id node = agent_id agent /\
         let n := Z.of_nat (List.length (levelMates lvl (plan_agents plan) agent)) in
         let i := Z.of_nat (List.length
                    (levelMates lvl (List.firstn k (plan_agents plan)) agent)) in
         pos_x (node_position node) = (Z.of_nat (lvl (agent_id agent)) * 380)%Z /\
         pos_y (node_position node) =
           (- (n * NODE_HEIGHT + (n - 1) * VERTICAL_GAP) / 2
            + i * (NODE_HEIGHT + VERTICAL_GAP))%Z /\
         (2 * pos_y (node_position node) =
           - (n * NODE_HEIGHT + (n - 1) * VERTICAL_GAP)
           + 2 * i * (NODE_HEIGHT + VERTICAL_GAP))%Z) /\
  (exists r nA nB nC,
     planToReactFlow q = Some r /\ nodes r ≡ₚ [nA; nB; nC] /\
     node_id nA = a /\ node_id nB = b /\ node_id nC = c /\
     pos_x (node_position nA) = 0%Z /\
     pos_x (node_position nB) = 380%Z /\
     pos_x (node_position nC) = 760%Z /\
     (pos_x (node_position nA) < pos_x (node_position nB) < pos_x (node_position nC))%Z).
Proof.
  intros Hnd Hres Hac Hnd3 Hids Hedges. split.
  - by apply layout_by_longest_path.
  - destruct (anyOrder_layout a b c d1 d2 q Hnd3 Hids Hedges)
      as (r & nA & nB & nC & Hr & Hp & IA & IB & IC & XA & XB & XC).
    exists r, nA, nB, nC. rewrite XA, XB, XC.
    split; [done|]. split; [done|]. split; [done|]. split; [done|]. split; [done|].
    split; [done|]. split; [done|]. split; [done|]. lia.
Qed.

Lemma C3_layout_coordinates_witness :
  (exists r lvl,
     planToReactFlow support_triage = Some r /\
     List.length (nodes r) = List.length (plan_agents support_triage) /\
     (forall v, longestPathTo support_triage v (lvl v))) /\
  (exists r nA nB nC,
     planToReactFlow reversedLinePlan = Some r /\ nodes r ≡ₚ [nA; nB; nC] /\
     node_id nA = "A" /\ node_id nB = "B" /\ node_id nC = "C" /\
     pos_x (node_position nA) = 0%Z /\
     pos_x (node_position nB) = 380%Z /\
     pos_x (node_position nC) = 760%Z).
Proof.
  destruct (C3_layout_coordinates support_triage "A" "B" "C" "x" "y" reversedLinePlan)
    as [(r & lvl & Hr & Hlen & Hl & _) (r' & nA & nB & nC & Hr' & Hp & IA & IB & IC & XA & XB & XC & _)].
  - apply (bool_decide_unpack _). vm_compute. exact I.
  - apply (bool_decide_unpack _). vm_compute. exact I.
  - apply forward_acyclic. vm_compute. reflexivity.
  - apply (bool_decide_unpack _). vm_compute. exact I.
  - change (declaredIds reversedLinePlan) with (reverse ["A"; "B"; "C"]).
    apply reverse_Permutation.
  - change (plan_edges reversedLinePlan) with [mkEdge "B" "C" "y"; mkEdge "A" "B" "x"].
    apply Permutation_swap.
  - split.
    + exists r, lvl. split; [exact Hr|]. split; [exact Hlen|exact Hl].
    + exists r', nA, nB, nC.
      split; [exact Hr'|]. split; [exact Hp|]. split; [exact IA|]. split; [exact IB|].
      split; [exact IC|]. split; [exact XA|]. split; [exact XB|exact XC].
Defined.

(** C4 at the input where the code departs from it.  In [colonPlan] the
    agent [stage:load] has an outgoing edge and declares the output [rows];
    no edge leaving it carries [rows], so one warning is due.  The key
    [stage:load:rows] is also the key of the edge that leaves agent [stage]
    with data [load:rows], and the validator reports nothing. *)
Theorem C4_orphan_warning_key_collision :
  orphanWarnings colonPlan =
    ["Agent 'Loader' output 'rows' is not consumed by any edge"] /\
  validatePlan colonPlan = Some {| ok := true; errors := []; warnings := [] |} /\
  outputKey "stage:load" "rows" = outputKey "stage" "load:rows".
Proof. repeat split; vm_compute; reflexivity. Qed.

(** C5, the input that refutes it: a description naming support and triage
    comes back with the description of the canned template. *)
Lemma C5_description_counterexample :
  plan_description (planFromDescription "support triage") <> "support triage".
Proof. vm_compute. discriminate. Qed.

(** C5 as amended.  When a canned template is selected the planner returns
    that template unchanged, with the template's own description; in every
    other case the description of the returned plan is the input. *)
Theorem C5_description_amended (d : string) :
  match cannedFor d with
  | Some template =>
      planFromDescription d = template /\
      template ∈ [support_triage; lead_qualification; weekly_report]
  | None => plan_description (planFromDescription d) = d
  end.
Proof.
  unfold planFromDescription.
  destruct (cannedFor d) as [t|] eqn:Hc.
  - split; [reflexivity|]. by eapply cannedFor_member.
  - destruct (parseSteps d); reflexivity.
Qed.

(** C6, the input that refutes it.  In [twoCycle] both agents keep
    in-degree 1: the queue is empty from the start, no level is recorded,
    and yet both agents are in the layout output, with positions in
    column 0. *)
Lemma C6_unqueued_counterexample :
  exists final r,
    computeLevels twoCycle = Some final /\
    planToReactFlow twoCycle = Some r /\
    queue (seedRoots twoCycle) = [] /\
    getOr0 (inDegree final) "A" = 1%Z /\
    getOr0 (inDegree final) "B" = 1%Z /\
    levels final !! "A" = None /\
    levels final !! "B" = None /\
    (fun nd => (node_id nd, node_position nd)) <$> nodes r =
      [ ("A", {| pos_x := 0; pos_y := -120 |});
        ("B", {| pos_x := 0; pos_y := 20 |}) ].
Proof.
  eexists _, _. split; [vm_compute; reflexivity|].
  split; [vm_compute; reflexivity|].
  repeat split; vm_compute; reflexivity.
Qed.

(** The same with a root in front of the cycle: the cycle entry [A] is never
    queued, and the root still records level 1 for it. *)
Lemma rootIntoCycle_layout :
  exists final r,
    computeLevels rootIntoCycle = Some final /\
    planToReactFlow rootIntoCycle = Some r /\
    getOr0 (inDegree final) "A" = 1%Z /\
    levels final !! "A" = Some 1%Z /\
    levels final !! "B" = None /\
    (fun nd => (node_id nd, node_position nd)) <$> nodes r =
      [ ("R", {| pos_x := 0; pos_y := -120 |});
        ("B", {| pos_x := 0; pos_y := 20 |});
        ("A", {| pos_x := 380; pos_y := -50 |}) ].
Proof.
  eexists _, _. split; [vm_compute; reflexivity|].
  split; [vm_compute; reflexivity|].
  repeat split; vm_compute; reflexivity.
Qed.

(** C6 as amended.  For every plan the layout returns.  An agent whose
    in-degree is still above zero when the queue runs empty (it never
    reached zero) was in the queue at no point of the processing.  Every
    agent of the plan nevertheless has a node with a position: in the column
    of the level recorded for it, and in column 0 when none was recorded,
    since the grouping reads the level as [levels.get(id) || 0]. *)
Theorem C6_unqueued_agents_are_placed (plan : AgentPlan) (k : nat) (agent : AgentNode) :
  plan_agents plan !! k = Some agent ->
  exists final r node,
    computeLevels plan = Some final /\
    planToReactFlow plan = Some r /\
    ((0 < getOr0 (inDegree final) (agent_id agent))%Z ->
     forall st, passesThrough plan st -> agent_id agent ∉ queue st) /\
    node ∈ nodes r /\
    node_data node = agent /\
    node_id node = agent_id agent /\
    pos_x (node_position node) =
      (getOr0 (levels final) (agent_id agent) * (NODE_WIDTH + HORIZONTAL_GAP))%Z /\
    (levels final !! agent_id agent = None -> pos_x (node_position node) = 0%Z).
Proof.
  intros Hk.
  destruct (computeLevels_total plan) as [final Hfinal].
  destruct (layout_places_agent plan final k agent Hfinal Hk) as (r & Hr & _ & Hin).
  eexists final, r, _. split; [done|]. split; [done|].
  split; [intros Hpos st Hst; by eapply unsettled_never_queued|].
  split; [exact Hin|]. do 3 (split; [reflexivity|]).
  intros Hnone. cbn. unfold columnOf, getOr0. by rewrite Hnone.
Qed.

Lemma C6_unqueued_agents_are_placed_witness :
  exists agent,
    plan_agents twoCycle !! 0 = Some agent /\
    exists final r node,
      computeLevels twoCycle = Some final /\
      planToReactFlow twoCycle = Some r /\
      (forall st, passesThrough twoCycle st -> "A" ∉ queue st) /\
      node ∈ nodes r /\ node_id node = "A" /\
      pos_x (node_position node) = 0%Z.
Proof.
  eexists. split; [reflexivity|].
  destruct (C6_unqueued_agents_are_placed twoCycle 0 _ eq_refl)
    as (final & r & node & Hf & Hr & Hq & Hin & _ & Hid & _ & Hx).
  exists final, r, node. split; [exact Hf|]. split; [exact Hr|].
  vm_compute in Hf. injection Hf as <-.
  split; [apply Hq; reflexivity|]. split; [exact Hin|].
  split; [exact Hid|]. apply Hx. reflexivity.
Defined.

(** C7 at the input where the code departs from it.  The id [My/Agent] is
    sanitized to [My_Agent], but the label is emitted as it is: the name
    [Say "hi"] and the summary [Posts to [ops]] put double quotes and square
    brackets inside the quoted label of the node declaration. *)
Theorem C7_flow_diagram_label_unescaped :
  sanitizeId "My/Agent" = "My_Agent" /\
  mermaidLines quotedPlan !! 3 =
    Some ("  My_Agent[" +:+ dquote +:+ "Say " +:+ dquote +:+ "hi" +:+ dquote
          +:+ "\nPosts to [ops]" +:+ dquote +:+ "]") /\
  Js.includes (nodeLabel quotedAgent) dquote = true /\
  Js.includes (nodeLabel quotedAgent) "[" = true /\
  Js.includes (nodeLabel quotedAgent) "]" = true /\
  Js.includes (planToMermaid quotedPlan)
              ("[" +:+ dquote +:+ nodeLabel quotedAgent +:+ dquote +:+ "]") = true.
Proof. repeat split; vm_compute; reflexivity. Qed.

(** C8. An input whose step parsing yields no step (the empty string is
    one) comes back as the minimal plan: exactly one agent, of archetype
    Orchestrator, and no edge; that plan is validated with ok = true, no
    error and no warning. *)
Theorem C8_minimal_fallback (d : string) :
  parseSteps d = [] ->
  parseSteps "" = [] /\
  planFromDescription d = minimalPlan d /\
  (exists a, plan_agents (planFromDescription d) = [a] /\
             agent_type a = Orchestrator) /\
  plan_edges (planFromDescription d) = [] /\
  validatePlan (planFromDescription d) =
    Some {| ok := true; errors := []; warnings := [] |}.
Proof.
  intros Hnil. split; [reflexivity|].
  assert (Hplan : planFromDescription d = minimalPlan d).
  { unfold planFromDescription.
    by rewrite (parseSteps_nil_not_canned d Hnil), Hnil. }
  rewrite Hplan. split; [done|]. split; [by eexists|]. split; [done|].
  apply minimalPlan_valid.
Qed.

Lemma C8_minimal_fallback_witness :
  parseSteps "" = [] /\
  planFromDescription "" = minimalPlan "" /\
  (exists a, plan_agents (planFromDescription "") = [a] /\
             agent_type a = Orchestrator) /\
  plan_edges (planFromDescription "") = [] /\
  validatePlan (planFromDescription "") =
    Some {| ok := true; errors := []; warnings := [] |}.
Proof.
  split; [reflexivity|].
  apply (C8_minimal_fallback ""). reflexivity.
Defined.

(** C9. Every plan is validated, and in the result [ok] is true exactly when
    the error list is empty: [ok] is computed from the errors alone
    ([errors.length === 0]), so the warnings have no part in it. *)
Theorem C9_ok_iff_no_errors (plan : AgentPlan) :
  exists r, validatePlan plan = Some r /\
    (ok r = true <-> errors r = []) /\
    ok r = Nat.eqb (List.length (errors r)) 0.
Proof.
  destruct (validatePlan_total plan) as [r Hr]. exists r. split; [done|].
  assert (Hok : ok r = Nat.eqb (List.length (errors r)) 0).
  { unfold validatePlan in Hr. destruct (anyCycle _ _ _ _); [|done].
    by injection Hr as <-. }
  split; [|done]. rewrite Hok.
  destruct (errors r); simpl; split; congruence.
Qed.

(** C10. Whatever the description, the plan the planner returns is validated
    with an empty error list and ok = true: every edge names two of its
    agents, every input source is one of its agents, and its graph is
    acyclic (every edge runs from an agent to one declared later).
    Warnings can remain: the support-triage template is validated with
    ok = true and exactly one warning, for the unconsumed output [severity]
    of the severity classifier. *)
Theorem C10_planner_output_validates (d : string) :
  let p := planFromDescription d in
  (exists r, validatePlan p = Some r /\ errors r = [] /\ ok r = true) /\
  edgesResolved (agentIdsOf p) (plan_edges p) /\
  inputsResolved (agentIdsOf p) (plan_agents p) /\
  acyclic p /\
  validatePlan support_triage =
    Some {| ok := true;
            errors := [];
            warnings :=
              ["Agent 'Severity Classifier' output 'severity' is not consumed by any edge"] |}.
Proof.
  cbv zeta. destruct (planner_plan_wellformed d) as (He & Hi & Hf).
  split; [|split; [done|split; [done|split; [by apply forward_acyclic|]]]];
    [|vm_compute; reflexivity].
  clear He Hi Hf. unfold planFromDescription.
  destruct (cannedFor d) as [t|] eqn:Hc.
  - by eapply canned_valid, cannedFor_member.
  - destruct (parseSteps d) as [|step steps] eqn:Hsteps.
    + eexists. split; [apply minimalPlan_valid|done].
    + destruct (buildFromSteps_chain (step :: steps)) as (Hids & Hends & Hin).
      destruct (chain_valid
                  {| plan_version := "0.1";
                     plan_title := generateTitle d;
                     plan_description := d;
                     plan_agents := built_agents (buildFromSteps (step :: steps));
                     plan_edges := built_edges (buildFromSteps (step :: steps));
                     plan_dataSchemas := Some (built_schemas (buildFromSteps (step :: steps)));
                     plan_notes := None |}
                  (List.length (step :: steps)))
        as (r & Hr & Herr & Hok & _); [simpl; lia|done|done|done|].
      exists r. done.
Qed.

(* ===================================================================== *)
(** * Further properties *)
(* ===================================================================== *)

(** X1. Every plan is validated, and the result has ok = true exactly when
    every edge names two declared agents, every input with a non-empty
    source names a declared agent, and no agent reaches itself along the
    edges. *)
Theorem X1_validator_accepts_exactly_the_wellformed (plan : AgentPlan) :
  exists r, validatePlan plan = Some r /\
    (ok r = true <->
       edgesResolved (declaredIds plan) (plan_edges plan) /\
       inputsResolved (declaredIds plan) (plan_agents plan) /\
       acyclic plan).
Proof.
  destruct (validatePlan_total plan) as [r Hr]. exists r. split; [done|].
  unfold validatePlan in Hr.
  destruct (anyCycle _ _ _ _) as [b|] eqn:Hrun; [|done].
  pose proof (anyCycle_searched plan _ _ _ (agentIdsOf_declared plan) Hrun) as Hb.
  injection Hr as <-. simpl.
  rewrite <- (edgesResolved_ids _ _ _ (agentIdsOf_declared plan)).
  rewrite <- (inputsResolved_ids _ _ _ (agentIdsOf_declared plan)).
  rewrite Nat.eqb_eq, length_zero_iff_nil. split.
  - intros H. apply app_eq_nil in H as [He H]. apply app_eq_nil in H as [Hi Hc].
    apply edgeErrors_nil_inv in He. apply inputErrors_nil_inv in Hi.
    split; [done|]. split; [done|].
    intros x Hx. destruct b; [done|].
    assert (Hno : ~ exists x, tc (searchedArc plan) x x) by (rewrite <- Hb; done).
    apply Hno. exists x. eapply tc_mono; [|exact Hx].
    intros u v Huv. split; [|done].
    destruct Huv as (e & Hin & <- & _).
    unfold edgesResolved in He. rewrite Forall_forall in He.
    apply agentIdsOf_declared. by apply He.
  - intros (He & Hi & Hac).
    rewrite edgeErrors_nil, inputErrors_nil by done. simpl.
    destruct b; [|done]. exfalso.
    destruct Hb as [Hb _]. destruct (Hb eq_refl) as [x Hx].
    apply (Hac x). eapply tc_mono; [|exact Hx]. by intros u v [_ ?].
Qed.

(** X2. The cycle error is in the error list exactly when the edges that
    leave declared agents form a cycle (edges whose source is not declared
    are not followed), and it is never listed twice. *)
Theorem X2_cycle_error_iff_cycle (plan : AgentPlan) :
  exists r, validatePlan plan = Some r /\
    (cycleError ∈ errors r <-> exists x, tc (searchedArc plan) x x) /\
    List.length (List.filter (String.eqb cycleError) (errors r)) <= 1.
Proof.
  destruct (validatePlan_total plan) as [r Hr]. exists r. split; [done|].
  unfold validatePlan in Hr.
  destruct (anyCycle _ _ _ _) as [b|] eqn:Hrun; [|done].
  pose proof (anyCycle_searched plan _ _ _ (agentIdsOf_declared plan) Hrun) as Hb.
  injection Hr as <-. simpl. split.
  - rewrite <- Hb, !elem_of_app. split.
    + intros [H|[H|H]].
      * by apply cycleError_not_edgeError in H.
      * by apply cycleError_not_inputError in H.
      * destruct b; [done|set_solver].
    + intros ->. right. right. set_solver.
  - rewrite !List.filter_app, !length_app.
    assert (Hnone : forall (c : string) l, c ∉ l ->
              List.length (List.filter (String.eqb c) l) = 0).
    { intros c l Hl. induction l as [|a l IH]; [done|]. simpl.
      apply not_elem_of_cons in Hl as [Ha Hl].
      destruct (String.eqb c a) eqn:E.
      - apply String.eqb_eq in E. congruence.
      - by apply IH. }
    rewrite (Hnone _ _ (cycleError_not_edgeError _ _)).
    rewrite (Hnone _ _ (cycleError_not_inputError _ _)).
    destruct b; [|simpl; lia].
    vm_compute. lia.
Qed.

(** X3. The validator never warns about an output that an edge leaving
    its agent carries: its warnings are a sublist of the warnings due.  When
    no agent id and no edge source contains a colon they are exactly the
    warnings due, and a plan without edges gets no warning. *)
Theorem X3_orphan_warnings_sound (plan : AgentPlan) :
  exists r, validatePlan plan = Some r /\
    warnings r `sublist_of` orphanWarnings plan /\
    (Forall (fun a => colonFree (agent_id a) = true) (plan_agents plan) ->
     Forall (fun e => colonFree (edge_from e) = true) (plan_edges plan) ->
     warnings r = orphanWarnings plan) /\
    (plan_edges plan = [] -> warnings r = []).
Proof.
  destruct (validatePlan_total plan) as [r Hr]. exists r. split; [done|].
  assert (Hw : warnings r = danglingWarnings plan).
  { unfold validatePlan in Hr. destruct (anyCycle _ _ _ _); [|done]. by injection Hr as <-. }
  rewrite Hw. split; [|split].
  - unfold danglingWarnings, orphanWarnings. cbv zeta.
    apply sublist_bind. intros agent _. apply sublist_bind. intros output _.
    case_bool_decide as Hkey; [|apply sublist_nil_l].
    fold (leaves agent).
    change (existsb (fun e => String.eqb (edge_from e) (agent_id agent)) (plan_edges plan))
      with (existsb (leaves agent) (plan_edges plan)).
    destruct (existsb (leaves agent) (plan_edges plan)); [|apply sublist_nil_l].
    destruct (existsb (fun e => leaves agent e && _) _) eqn:Hex; [|done].
    exfalso. apply Hkey. apply existsb_exists in Hex as (e & He & Hb).
    apply andb_true_iff in Hb as [Hl Hd]. unfold leaves in Hl.
    apply String.eqb_eq in Hl, Hd.
    unfold consumedOutputsOf. apply elem_of_list_to_set, list_elem_of_fmap.
    exists e. split; [by rewrite Hl, Hd|by apply list_elem_of_In].
  - apply danglingWarnings_colonFree.
  - intros He. apply danglingWarnings_terminal. rewrite He.
    apply Forall_forall. done.
Qed.

(** X4. The validator of the frontend and the validator of the server
    agree on every plan: the same ok, as many errors, as many warnings, and
    the cycle error in the one exactly when it is in the other. *)
Theorem X4_validators_agree (plan : AgentPlan) :
  exists server client,
    validatePlan plan = Some server /\ clientValidatePlan plan = Some client /\
    ok server = ok client /\
    List.length (errors server) = List.length (errors client) /\
    List.length (warnings server) = List.length (warnings client) /\
    (cycleError ∈ errors server <-> clientCycleError ∈ errors client).
Proof.
  destruct (validatePlan_total plan) as [r Hr].
  destruct (clientHasCycle_total plan) as [c Hc].
  exists r. unfold clientValidatePlan. rewrite Hc. eexists. split; [done|]. split; [done|].
  unfold validatePlan in Hr.
  destruct (anyCycle _ _ _ _) as [b|] eqn:Hrun; [|done].
  pose proof (anyCycle_searched plan _ _ _ (agentIdsOf_declared plan) Hrun) as Hb.
  unfold clientHasCycle in Hc.
  pose proof (anyCycle_searched plan (agent_id <$> plan_agents plan) _ _
                (fun k => iff_refl _) Hc) as Hc'.
  assert (Hbc : b = c).
  { destruct b, c; try done.
    - destruct Hb as [Hb _]. destruct Hc' as [_ Hc']. symmetry. by apply Hc', Hb.
    - destruct Hb as [_ Hb]. destruct Hc' as [Hc' _]. by apply Hb, Hc'. }
  subst c. injection Hr as <-. cbn [ok errors warnings].
  rewrite !length_app, edgeErrors_length, inputErrors_length, warnings_length.
  assert (Hlen : List.length (if b then [clientCycleError] else []) =
                 List.length (if b then [cycleError] else [])) by (by destruct b).
  rewrite Hlen. split; [done|]. split; [done|]. split; [done|].
  rewrite !elem_of_app.
  assert (Hs : cycleError ∈ (if b then [cycleError] else []) <-> b = true).
  { destruct b; [split; [done|intros _; by left]|split; [set_solver|done]]. }
  assert (Hcl : clientCycleError ∈ (if b then [clientCycleError] else []) <-> b = true).
  { destruct b; [split; [done|intros _; by left]|split; [set_solver|done]]. }
  split.
  - intros [H|[H|H]].
    + by apply cycleError_not_edgeError in H.
    + by apply cycleError_not_inputError in H.
    + right. right. apply Hcl. by apply Hs.
  - intros [H|[H|H]].
    + exfalso. clear -H. unfold clientEdgeErrors in H.
      induction (plan_edges plan) as [|e edges IH]; [set_solver|].
      rewrite bind_cons, !elem_of_app in H. destruct H as [[H|H]|H]; [| |done].
      * destruct (has _ _); [set_solver|]. apply list_elem_of_singleton in H. discriminate H.
      * destruct (has _ _); [set_solver|]. apply list_elem_of_singleton in H. discriminate H.
    + exfalso. clear -H. unfold clientInputErrors in H.
      induction (plan_agents plan) as [|a agents IH]; [set_solver|].
      rewrite bind_cons, elem_of_app in H. destruct H as [H|H]; [|done]. clear IH.
      induction (agent_inputs a) as [|i ins IH]; [set_solver|].
      rewrite bind_cons, elem_of_app in H. destruct H as [H|H]; [|done].
      destruct (input_from i) as [from|]; [|set_solver].
      destruct (Js.truthy from && negb (has _ from)); [|set_solver].
      apply list_elem_of_singleton in H. discriminate H.
    + right. right. apply Hs. by apply Hcl.
Qed.

(** X5. A plan with at least one agent, resolved edges and no cycle has a
    root agent (no incoming edge) and a terminal agent (no outgoing edge). *)
Theorem X5_acyclic_plan_has_root_and_terminal (plan : AgentPlan) :
  plan_agents plan ≠ [] ->
  edgesResolved (declaredIds plan) (plan_edges plan) ->
  acyclic plan ->
  getRootAgents plan ≠ [] /\ getTerminalAgents plan ≠ [].
Proof.
  intros Hne Hres Hac.
  unfold edgesResolved in Hres. rewrite Forall_forall in Hres.
  destruct (plan_agents plan) as [|a0 agents] eqn:Hagents; [done|].
  assert (Ha0 : agent_id a0 ∈ declaredIds plan).
  { unfold declaredIds. rewrite Hagents. set_solver. }
  assert (Hempty : forall (P : AgentNode -> bool),
            agent_id <$> List.filter P (a0 :: agents) = [] ->
            forall v, v ∈ declaredIds plan -> exists a, a ∈ a0 :: agents /\ agent_id a = v /\ P a = false).
  { intros P HP v Hv. unfold declaredIds in Hv. rewrite Hagents in Hv.
    apply list_elem_of_fmap in Hv as (a & -> & Ha). exists a. split; [done|]. split; [done|].
    destruct (P a) eqn:HPa; [|done].
    apply fmap_nil_inv in HP.
    assert (a ∈ List.filter P (a0 :: agents)).
    { apply list_elem_of_In, filter_In. split; [by apply list_elem_of_In|done]. }
    rewrite HP in H. set_solver. }
  split; intros Hnil; unfold getRootAgents, getTerminalAgents in Hnil; cbv zeta in Hnil;
    rewrite Hagents in Hnil; specialize (Hempty _ Hnil).
  - assert (Hall : forall v, Acc (arc plan) v -> v ∈ declaredIds plan -> False).
    { induction 1 as [v _ IH]. intros Hv.
      destruct (Hempty v Hv) as (a & _ & <- & Hin).
      apply bool_decide_eq_false in Hin. apply dec_stable in Hin.
      apply elem_of_list_to_set, list_elem_of_fmap in Hin as (e & Hto & He).
      apply (IH (edge_from e)).
      - exists e. done.
      - by apply Hres. }
    by apply (Hall _ (acyclic_back plan Hac _) Ha0).
  - assert (Hall : forall v, Acc (flip (arc plan)) v -> v ∈ declaredIds plan -> False).
    { induction 1 as [v _ IH]. intros Hv.
      destruct (Hempty v Hv) as (a & _ & <- & Hin).
      apply bool_decide_eq_false in Hin. apply dec_stable in Hin.
      apply elem_of_list_to_set, list_elem_of_fmap in Hin as (e & Hfrom & He).
      apply (IH (edge_to e)).
      - exists e. done.
      - by apply Hres. }
    by apply (Hall _ (acyclic_forth plan Hac _) Ha0).
Qed.

Lemma X5_acyclic_plan_has_root_and_terminal_witness :
  getRootAgents support_triage = ["email-ingester"] /\
  getTerminalAgents support_triage ≠ [].
Proof.
  split; [vm_compute; reflexivity|].
  apply (X5_acyclic_plan_has_root_and_terminal support_triage).
  - vm_compute. discriminate.
  - apply (bool_decide_unpack _). vm_compute. exact I.
  - apply forward_acyclic. vm_compute. reflexivity.
Defined.

(** X6. Every step that [parseSteps] returns has at least three characters,
    starts with a character that is not white space, and contains no comma. *)
Theorem X6_parsed_steps_shape (description : string) :
  Forall (fun step =>
            3 <= String.length step /\
            (exists c rest, step = String c rest /\ Js.is_ws c = false) /\
            allChars notComma step = true)
         (parseSteps description).
Proof. exact (parseSteps_wellFormed description). Qed.

(** X7. The archetype inferred for a step is never Orchestrator and always
    comes with suggested tools; a step that matches no verb rule is a
    Generator with the tools LLM and Custom Logic. *)
Theorem X7_inferred_archetype (step : string) :
  fst (inferAgentType step) ≠ Orchestrator /\
  snd (inferAgentType step) ≠ [] /\
  (Forall (fun rule => test true (fst (fst rule)) step = false) VERB_TO_AGENT_TYPE ->
   inferAgentType step = (Generator, ["LLM"; "Custom Logic"])).
Proof. exact (inferAgentType_kinds step). Qed.

(** X8. A generated agent name has between 10 and 30 characters; a
    generated title has between 9 and 59 characters and ends with the word
    Workflow after at most 50 characters of the description. *)
Theorem X8_generated_names_bounded (step description : string) (type : AgentType) :
  10 <= String.length (generateAgentName step type) <= 30 /\
  9 <= String.length (generateTitle description) <= 59 /\
  (exists head, generateTitle description = head +:+ " Workflow" /\
                String.length head <= 50).
Proof. exact (generated_names_bounded step description type). Qed.

(** X9. The plan generated from a description that selects no canned
    template and has n >= 1 steps: it keeps the description, has n agents
    and n - 1 edges; the agent of step i has the id agent-(i+1), the
    archetype and tools inferred from the step (never Orchestrator), the
    capitalized step as summary and one output; the first agent has the
    root input, every other agent the output of the step before it as its
    only input, from the agent before it, and the edge between the two
    carries that name. *)
Theorem X9_generated_plan_structure (d : string) :
  cannedFor d = None -> parseSteps d ≠ [] ->
  let p := planFromDescription d in
  let steps := parseSteps d in
  plan_description p = d /\
  plan_title p = generateTitle d /\
  List.length (plan_agents p) = List.length steps /\
  List.length (plan_edges p) = List.length steps - 1 /\
  forall i step, steps !! i = Some step ->
    exists a, plan_agents p !! i = Some a /\
      agent_id a = agentIdOf (S i) /\
      agent_type a = fst (inferAgentType step) /\
      agent_type a ≠ Orchestrator /\
      agent_suggestedTools a = Some (snd (inferAgentType step)) /\
      agent_name a = generateAgentName step (agent_type a) /\
      agent_summary a = capitalize (Js.trim step) /\
      agent_outputs a = [mkOutput (generateOutputName step i)] /\
      match i with
      | 0 => agent_inputs a = [mkInput None "input_data"]
      | S j =>
          exists prev, steps !! j = Some prev /\
            agent_inputs a = [mkInput (Some (agentIdOf i)) (generateOutputName prev j)] /\
            plan_edges p !! j =
              Some (mkEdge (agentIdOf i) (agentIdOf (S i)) (generateOutputName prev j))
      end.
Proof.
  intros Hc Hs. cbv zeta. rewrite (planFromDescription_built d Hc Hs).
  cbn [plan_description plan_title plan_agents plan_edges].
  destruct (buildFromSteps_built (parseSteps d)) as [-> ->].
  pose proof (parseSteps_wellFormed d) as Hwf. rewrite Forall_forall in Hwf.
  set (steps := parseSteps d) in *.
  split; [done|]. split; [done|].
  split; [by rewrite length_fmap, length_seq|].
  split; [by rewrite length_fmap, length_seq|].
  intros i step Hi.
  pose proof (lookup_lt_Some _ _ _ Hi) as Hlt.
  exists (agentOfStep steps i). split.
  { rewrite list_lookup_fmap, lookup_seq_lt by done. done. }
  assert (Hstep : stepAt steps i = step) by (unfold stepAt; by rewrite Hi).
  unfold agentOfStep. cbv zeta. rewrite Hstep.
  cbn [agent_id agent_type agent_suggestedTools agent_name agent_summary
       agent_outputs agent_inputs].
  split; [by rewrite Nat.add_1_r|]. split; [done|].
  split; [apply inferAgentType_kinds|]. split; [done|]. split; [done|].
  split; [done|]. split; [done|].
  destruct i as [|j]; [done|].
  assert (Hj : j < List.length steps) by lia.
  destruct (lookup_lt_is_Some_2 steps j Hj) as [prev Hprev].
  exists prev. split; [done|].
  assert (Hprev' : stepAt steps (S j - 1) = prev).
  { unfold stepAt. replace (S j - 1) with j by lia. by rewrite Hprev. }
  cbn [Nat.ltb Nat.leb]. rewrite Hprev'.
  rewrite (wellFormedStep_truthy prev) by (apply Hwf; by eapply list_elem_of_lookup_2).
  replace (S j - 1) with j by lia. split; [done|].
  rewrite list_lookup_fmap, lookup_seq_lt by lia. cbn.
  replace (j - 0) with j by lia. rewrite Nat.add_1_r.
  unfold stepAt in Hprev'. replace (S j - 1) with j in Hprev' by lia.
  unfold stepAt. rewrite Hprev. done.
Qed.

Lemma X9_generated_plan_structure_witness :
  let p := planFromDescription chainInput in
  let steps := parseSteps chainInput in
  plan_description p = chainInput /\
  plan_title p = generateTitle chainInput /\
  List.length (plan_agents p) = List.length steps /\
  List.length (plan_edges p) = List.length steps - 1 /\
  forall i step, steps !! i = Some step ->
    exists a, plan_agents p !! i = Some a /\
      agent_id a = agentIdOf (S i) /\
      agent_type a = fst (inferAgentType step) /\
      agent_type a ≠ Orchestrator /\
      agent_suggestedTools a = Some (snd (inferAgentType step)) /\
      agent_name a = generateAgentName step (agent_type a) /\
      agent_summary a = capitalize (Js.trim step) /\
      agent_outputs a = [mkOutput (generateOutputName step i)] /\
      match i with
      | 0 => agent_inputs a = [mkInput None "input_data"]
      | S j =>
          exists prev, steps !! j = Some prev /\
            agent_inputs a = [mkInput (Some (agentIdOf i)) (generateOutputName prev j)] /\
            plan_edges p !! j =
              Some (mkEdge (agentIdOf i) (agentIdOf (S i)) (generateOutputName prev j))
      end.
Proof.
  apply (X9_generated_plan_structure chainInput).
  - vm_compute. reflexivity.
  - vm_compute. discriminate.
Defined.

(** X10. A plan generated from a description that selects no canned
    template is validated with ok = true, no error and no warning, whatever
    the number of steps. *)
Theorem X10_generated_plan_validates_clean (d : string) :
  cannedFor d = None ->
  validatePlan (planFromDescription d) =
    Some {| ok := true; errors := []; warnings := [] |}.
Proof. exact (generated_plan_validates_clean d). Qed.

Lemma X10_generated_plan_validates_clean_witness :
  validatePlan (planFromDescription chainInput) =
    Some {| ok := true; errors := []; warnings := [] |}.
Proof.
  apply (X10_generated_plan_validates_clean chainInput). vm_compute. reflexivity.
Defined.

(** X11. The nodes of a layout are the agents of the plan, one node per
    agent: the node data are a permutation of the agents; every node carries
    the id and the colour of its agent, lies in the column of its level, at
    x >= 0, and at x = 0 when no edge enters its agent. *)
Theorem X11_layout_nodes_are_the_agents (plan : AgentPlan) :
  exists final r,
    computeLevels plan = Some final /\ planToReactFlow plan = Some r /\
    node_data <$> nodes r ≡ₚ plan_agents plan /\
    Forall (fun n =>
              node_id n = agent_id (node_data n) /\
              node_type n = "agentNode" /\
              node_color n = AGENT_TYPE_COLORS (agent_type (node_data n)) /\
              pos_x (node_position n) = (getOr0 (levels final) (node_id n) * 380)%Z /\
              (0 <= pos_x (node_position n))%Z /\
              (incoming (plan_edges plan) (node_id n) = 0 -> pos_x (node_position n) = 0%Z))
           (nodes r).
Proof. exact (layout_nodes_are_the_agents plan). Qed.

(** X12. No two nodes of a layout overlap: two nodes at different
    positions of the node list are a full column (380) or a full row (140)
    apart, whatever the plan. *)
Theorem X12_layout_nodes_do_not_overlap (plan : AgentPlan) (r : LayoutResult)
    (i j : nat) (n1 n2 : FlowNode) :
  planToReactFlow plan = Some r ->
  i ≠ j -> nodes r !! i = Some n1 -> nodes r !! j = Some n2 ->
  apart n1 n2.
Proof.
  intros Hr Hij H1 H2. unfold planToReactFlow in Hr.
  destruct (computeLevels plan) as [final|]; [|done]. injection Hr as <-.
  cbn [nodes] in *. unfold levelGroupsOf in *.
  eapply groups_apart; [|exact Hij|exact H1|exact H2].
  apply (levelGroups_sorted (fun a => getOr0 (levels final) (agent_id a))).
  apply groupsSorted_nil.
Qed.

Lemma X12_layout_nodes_do_not_overlap_witness :
  exists r n1 n2,
    planToReactFlow support_triage = Some r /\
    nodes r !! 3 = Some n1 /\ nodes r !! 4 = Some n2 /\ apart n1 n2.
Proof.
  eexists _, _, _. split; [vm_compute; reflexivity|].
  split; [reflexivity|]. split; [reflexivity|].
  eapply (X12_layout_nodes_do_not_overlap support_triage _ 3 4);
    [vm_compute; reflexivity|lia|reflexivity|reflexivity].
Defined.

(** X13. In the layout of a plan with distinct ids, resolved edges and no
    cycle, both ends of every edge have a node, and the node of the target
    lies at least one column (380) to the right of the node of the source. *)
Theorem X13_layout_edges_point_right (plan : AgentPlan) :
  NoDup (declaredIds plan) ->
  edgesResolved (declaredIds plan) (plan_edges plan) ->
  acyclic plan ->
  exists r, planToReactFlow plan = Some r /\
    forall e, e ∈ plan_edges plan ->
      (exists src tgt, src ∈ nodes r /\ tgt ∈ nodes r /\
                       node_id src = edge_from e /\ node_id tgt = edge_to e) /\
      (forall src tgt, src ∈ nodes r -> tgt ∈ nodes r ->
         node_id src = edge_from e -> node_id tgt = edge_to e ->
         (pos_x (node_position src) + (NODE_WIDTH + HORIZONTAL_GAP)
          <= pos_x (node_position tgt))%Z).
Proof.
  intros Hnd Hres Hac.
  destruct (computeLevels_total plan) as [final Hfinal].
  assert (Hr : exists r, planToReactFlow plan = Some r).
  { unfold planToReactFlow. rewrite Hfinal. eauto. }
  destruct Hr as [r Hr]. exists r. split; [done|]. intros e He. split.
  - pose proof Hres as Hres'. unfold edgesResolved in Hres'. rewrite Forall_forall in Hres'.
    destruct (Hres' e He) as [Hf Ht].
    apply list_elem_of_fmap in Hf as (a & Ha & Hain).
    apply list_elem_of_fmap in Ht as (b & Hb & Hbin).
    destruct (node_of_agent plan r a Hr Hain) as (src & Hsrc & Hda).
    destruct (node_of_agent plan r b Hr Hbin) as (tgt & Htgt & Hdb).
    exists src, tgt. split; [done|]. split; [done|].
    destruct (nodes_column plan final r src Hfinal Hr Hsrc) as (_ & _ & -> & _).
    destruct (nodes_column plan final r tgt Hfinal Hr Htgt) as (_ & _ & -> & _).
    by rewrite Hda, Hdb.
  - intros src tgt Hsrc Htgt Hs Ht.
    destruct (nodes_column plan final r src Hfinal Hr Hsrc) as (-> & _).
    destruct (nodes_column plan final r tgt Hfinal Hr Htgt) as (-> & _).
    rewrite Hs, Ht.
    pose proof (levels_increase plan Hnd Hres Hac final e Hfinal He).
    unfold NODE_WIDTH, HORIZONTAL_GAP. lia.
Qed.

Lemma X13_layout_edges_point_right_witness :
  exists r, planToReactFlow lead_qualification = Some r /\
    forall e, e ∈ plan_edges lead_qualification ->
      (exists src tgt, src ∈ nodes r /\ tgt ∈ nodes r /\
                       node_id src = edge_from e /\ node_id tgt = edge_to e) /\
      (forall src tgt, src ∈ nodes r -> tgt ∈ nodes r ->
         node_id src = edge_from e -> node_id tgt = edge_to e ->
         (pos_x (node_position src) + (NODE_WIDTH + HORIZONTAL_GAP)
          <= pos_x (node_position tgt))%Z).
Proof.
  apply (X13_layout_edges_point_right lead_qualification).
  - apply (bool_decide_unpack _). vm_compute. exact I.
  - apply (bool_decide_unpack _). vm_compute. exact I.
  - apply forward_acyclic. vm_compute. reflexivity.
Defined.

(** X14. In a plan with distinct ids, resolved edges and no cycle the level
    of an agent without incoming edge is 0, and the level of any other agent
    is one more than the highest level among the sources of the edges that
    enter it. *)
Theorem X14_levels_are_longest_path_layers (plan : AgentPlan) :
  NoDup (declaredIds plan) ->
  edgesResolved (declaredIds plan) (plan_edges plan) ->
  acyclic plan ->
  exists final, computeLevels plan = Some final /\
    forall v,
      (incoming (plan_edges plan) v = 0 -> getOr0 (levels final) v = 0%Z) /\
      (0 < incoming (plan_edges plan) v ->
         (forall e, e ∈ plan_edges plan -> edge_to e = v ->
            (getOr0 (levels final) (edge_from e) + 1 <= getOr0 (levels final) v)%Z) /\
         (exists e, e ∈ plan_edges plan /\ edge_to e = v /\
            getOr0 (levels final) v = (getOr0 (levels final) (edge_from e) + 1)%Z)).
Proof.
  intros Hnd Hres Hac.
  destruct (computeLevels_total plan) as [final Hfinal]. exists final. split; [done|].
  intros v. pose proof (levelsGrounded_final plan final Hfinal) as Hg.
  split.
  - intros Hin. destruct (Hg v) as [_ Hroot].
    destruct (decide (getOr0 (levels final) v = 0%Z)) as [|Hz]; [done|].
    apply Hroot in Hz. lia.
  - intros Hin.
    assert (Hlow : forall e, e ∈ plan_edges plan -> edge_to e = v ->
              (getOr0 (levels final) (edge_from e) + 1 <= getOr0 (levels final) v)%Z).
    { intros e He <-. by apply (levels_increase plan). }
    split; [done|].
    apply incoming_pos, list_elem_of_fmap in Hin as (e & Hv & He).
    apply (levels_tight plan Hnd Hres final v Hfinal).
    specialize (Hlow e He (eq_sym Hv)). destruct (Hg (edge_from e)) as [H0 _]. lia.
Qed.

Lemma X14_levels_are_longest_path_layers_witness :
  exists final, computeLevels weekly_report = Some final /\
    forall v,
      (incoming (plan_edges weekly_report) v = 0 -> getOr0 (levels final) v = 0%Z) /\
      (0 < incoming (plan_edges weekly_report) v ->
         (forall e, e ∈ plan_edges weekly_report -> edge_to e = v ->
            (getOr0 (levels final) (edge_from e) + 1 <= getOr0 (levels final) v)%Z) /\
         (exists e, e ∈ plan_edges weekly_report /\ edge_to e = v /\
            getOr0 (levels final) v = (getOr0 (levels final) (edge_from e) + 1)%Z)).
Proof.
  apply (X14_levels_are_longest_path_layers weekly_report).
  - apply (bool_decide_unpack _). vm_compute. exact I.
  - apply (bool_decide_unpack _). vm_compute. exact I.
  - apply forward_acyclic. vm_compute. reflexivity.
Defined.

(** X15. In the layout of a plan with distinct ids and resolved edges
    every node lies between column 0 and column n - 1, n the number of
    agents, and every column to the left of a node holds a node. *)
Theorem X15_layout_columns_compact (plan : AgentPlan) :
  NoDup (declaredIds plan) ->
  edgesResolved (declaredIds plan) (plan_edges plan) ->
  exists r, planToReactFlow plan = Some r /\
    forall n, n ∈ nodes r ->
      (0 <= pos_x (node_position n)
         <= (NODE_WIDTH + HORIZONTAL_GAP) * (Z.of_nat (List.length (plan_agents plan)) - 1))%Z /\
      forall j, (0 <= j)%Z ->
        ((NODE_WIDTH + HORIZONTAL_GAP) * j <= pos_x (node_position n))%Z ->
        exists m, m ∈ nodes r /\
                  pos_x (node_position m) = ((NODE_WIDTH + HORIZONTAL_GAP) * j)%Z.
Proof.
  intros Hnd Hres.
  destruct (computeLevels_total plan) as [final Hfinal].
  assert (Hr : exists r, planToReactFlow plan = Some r).
  { unfold planToReactFlow. rewrite Hfinal. eauto. }
  destruct Hr as [r Hr]. exists r. split; [done|]. intros n Hn.
  destruct (nodes_column plan final r n Hfinal Hr Hn) as (Hx & Hdata & Hid & _).
  assert (Hin : node_id n ∈ declaredIds plan).
  { rewrite Hid. apply list_elem_of_fmap. eauto. }
  destruct (level_bound plan Hnd Hres final Hfinal (node_id n) Hin) as [Hb Hfill].
  unfold NODE_WIDTH, HORIZONTAL_GAP in *. split; [lia|].
  intros j Hj0 Hj.
  destruct (Hfill j) as (u & Hu & Hlu); [lia|].
  apply list_elem_of_fmap in Hu as (a & -> & Ha).
  destruct (node_of_agent plan r a Hr Ha) as (m & Hm & Hdm).
  exists m. split; [done|].
  destruct (nodes_column plan final r m Hfinal Hr Hm) as (Hxm & _ & Hidm & _).
  rewrite Hxm, Hidm, Hdm, Hlu. unfold NODE_WIDTH, HORIZONTAL_GAP. lia.
Qed.

Lemma X15_layout_columns_compact_witness :
  exists r, planToReactFlow support_triage = Some r /\
    forall n, n ∈ nodes r ->
      (0 <= pos_x (node_position n)
         <= (NODE_WIDTH + HORIZONTAL_GAP) * (Z.of_nat (List.length (plan_agents support_triage)) - 1))%Z /\
      forall j, (0 <= j)%Z ->
        ((NODE_WIDTH + HORIZONTAL_GAP) * j <= pos_x (node_position n))%Z ->
        exists m, m ∈ nodes r /\
                  pos_x (node_position m) = ((NODE_WIDTH + HORIZONTAL_GAP) * j)%Z.
Proof.
  apply (X15_layout_columns_compact support_triage).
  - apply (bool_decide_unpack _). vm_compute. exact I.
  - apply (bool_decide_unpack _). vm_compute. exact I.
Defined.

(** X16. The layout has one edge per edge of the plan, in plan order, with
    pairwise distinct ids edge-0, edge-1, ..., the source and target of the
    plan edge, and as label its data with every underscore replaced by a
    space: a label of the same length that holds no underscore. *)
Theorem X16_layout_edges_mirror_plan (plan : AgentPlan) :
  exists r, planToReactFlow plan = Some r /\
    List.length (edges r) = List.length (plan_edges plan) /\
    NoDup (flow_id <$> edges r) /\
    forall i e, plan_edges plan !! i = Some e ->
      exists fe, edges r !! i = Some fe /\
        flow_id fe = "edge-" +:+ pretty i /\
        flow_source fe = edge_from e /\ flow_target fe = edge_to e /\
        flow_label fe = mapChars (substitute "_" " ") (edge_data e) /\
        String.length (flow_label fe) = String.length (edge_data e) /\
        allChars (fun c => negb (Ascii.eqb c "_")) (flow_label fe) = true.
Proof.
  destruct (computeLevels_total plan) as [final Hfinal].
  unfold planToReactFlow. rewrite Hfinal. eexists. split; [done|].
  cbn [edges]. unfold layoutEdges. split; [by rewrite length_imap|]. split.
  - rewrite fmap_imap.
    rewrite (imap_ext _ (fun i _ => "edge-" +:+ pretty i)); [|done].
    apply NoDup_alt. intros i j x Hi Hj.
    rewrite list_lookup_imap in Hi, Hj.
    destruct (plan_edges plan !! i); [|done]. destruct (plan_edges plan !! j); [|done].
    cbn in Hi, Hj. injection Hi as <-. injection Hj as Hj.
    change (pretty j = pretty i) in Hj. by apply (inj pretty) in Hj.
  - intros i e Hi. eexists. split; [by rewrite list_lookup_imap, Hi|].
    cbn [fmap option_fmap option_map flow_id flow_source flow_target flow_label].
    rewrite underscoresToSpaces_chars, mapChars_length.
    split; [done|]. split; [done|]. split; [done|]. split; [done|]. split; [done|].
    apply allChars_mapChars. intros c. unfold substitute.
    destruct (Ascii.eqb_spec "_" c) as [<-|Hne]; [done|].
    apply negb_true_iff, Ascii.eqb_neq. done.
Qed.

(** X17. A generated plan is laid out as one row: when the description
    selects no canned template, has at least one step, and every output name
    is read from the table's own keys, the nodes are the agents in plan
    order, and the node of agent-(k+1) is at x = 380 k, y = -50. *)
Theorem X17_generated_plan_is_one_row (d : string) :
  cannedFor d = None -> parseSteps d ≠ [] ->
  forallb readsOwnKey (parseSteps d) = true ->
  exists r, planToReactFlow (planFromDescription d) = Some r /\
    node_data <$> nodes r = plan_agents (planFromDescription d) /\
    (fun nd => (node_id nd, node_position nd)) <$> nodes r =
    (fun k => (agentIdOf (S k), {| pos_x := 380 * Z.of_nat k; pos_y := -50 |}))
      <$> seq 0 (List.length (parseSteps d)).
Proof.
  intros Hc Hs _.
  destruct (planFromDescription_steps d Hc Hs) as [Hids Hends].
  destruct (chain_layout _ _ Hids Hends) as (final & r & Hfinal & Hr & Hnodes & Hcols).
  exists r. split; [done|]. rewrite Hnodes. split.
  - rewrite <- list_fmap_compose. apply list_fmap_id.
  - rewrite <- list_fmap_compose.
    set (n := List.length (parseSteps d)) in *.
    apply list_eq. intros i. rewrite !list_lookup_fmap.
    pose proof (f_equal (fun l => l !! i) Hids) as Hi.
    pose proof (f_equal (fun l => l !! i) Hcols) as Hl.
    cbn beta in Hi, Hl. unfold chainIds in Hi. rewrite !list_lookup_fmap in Hi.
    rewrite !list_lookup_fmap in Hl.
    destruct (plan_agents (planFromDescription d) !! i) as [a|] eqn:Ha;
      destruct (seq 0 n !! i) as [k|] eqn:Hk; cbn in *.
    + apply lookup_seq in Hk as [-> Hk]. rewrite lookup_seq_lt in Hi by done.
      cbn in Hi. injection Hi as Hi. injection Hl as Hl.
      rewrite Hl, Hi. rewrite Nat.add_0_l.
      replace (Z.of_nat i * (NODE_WIDTH + HORIZONTAL_GAP))%Z with (380 * Z.of_nat i)%Z
        by (unfold NODE_WIDTH, HORIZONTAL_GAP; lia).
      reflexivity.
    + done.
    + done.
    + done.
Qed.

Lemma X17_generated_plan_is_one_row_witness :
  exists r, planToReactFlow (planFromDescription chainInput) = Some r /\
    node_data <$> nodes r = plan_agents (planFromDescription chainInput) /\
    (fun nd => (node_id nd, node_position nd)) <$> nodes r =
      [ ("agent-1", {| pos_x := 0; pos_y := -50 |});
        ("agent-2", {| pos_x := 380; pos_y := -50 |});
        ("agent-3", {| pos_x := 760; pos_y := -50 |}) ].
Proof.
  apply (X17_generated_plan_is_one_row chainInput).
  - vm_compute. reflexivity.
  - vm_compute. discriminate.
  - vm_compute. reflexivity.
Defined.

(** X18. The bounding box of a non-empty node list whose coordinates are
    safe integers has finite sides, holds the box of every node and touches
    a node on each of its four sides; it is at least one node wide and one
    node high, and its sides are safe integers again.  The empty list gets
    the fixed box 0..100 by 0..100. *)
Theorem X18_bounding_box_encloses (nodes : list FlowNode) :
  nodes ≠ [] ->
  forallb safeNode nodes = true ->
  exists x0 x1 y0 y1,
    calculateBounds nodes =
      {| minX := Num x0; maxX := Num x1; minY := Num y0; maxY := Num y1 |} /\
    Encloses nodes x0 x1 y0 y1 /\
    (x0 + NODE_WIDTH <= x1)%Z /\ (y0 + NODE_HEIGHT <= y1)%Z /\
    isSafeInteger x0 = true /\ isSafeInteger x1 = true /\
    isSafeInteger y0 = true /\ isSafeInteger y1 = true /\
    calculateBounds [] =
      {| minX := Num 0; maxX := Num 100; minY := Num 0; maxY := Num 100 |}.
Proof.
  intros Hne Hsafe.
  destruct (calculateBounds_encloses nodes Hne) as (x0 & x1 & y0 & y1 & Heq & Henc & Hw & Hh).
  exists x0, x1, y0, y1.
  split; [exact Heq|]. split; [exact Henc|]. split; [exact Hw|]. split; [exact Hh|].
  assert (Hs : forall n, n ∈ nodes -> safeNode n = true).
  { intros n Hn. rewrite forallb_forall in Hsafe. apply Hsafe.
    by apply list_elem_of_In. }
  destruct Henc as [_ (n1 & H1 & <-) (n2 & H2 & <-) (n3 & H3 & <-) (n4 & H4 & <-)].
  apply Hs in H1, H2, H3, H4. unfold safeNode in H1, H2, H3, H4.
  rewrite !andb_true_iff in H1, H2, H3, H4.
  split; [apply H1|]. split; [apply H2|]. split; [apply H3|]. split; [apply H4|].
  reflexivity.
Qed.

Lemma X18_bounding_box_encloses_witness :
  exists r x0 x1 y0 y1,
    planToReactFlow weekly_report = Some r /\
    calculateBounds (nodes r) =
      {| minX := Num x0; maxX := Num x1; minY := Num y0; maxY := Num y1 |} /\
    Encloses (nodes r) x0 x1 y0 y1 /\
    (x0 + NODE_WIDTH <= x1)%Z /\ (y0 + NODE_HEIGHT <= y1)%Z.
Proof.
  eexists.
  destruct (X18_bounding_box_encloses
              (default [] (nodes <$> planToReactFlow weekly_report)))
    as (x0 & x1 & y0 & y1 & Heq & Henc & Hw & Hh & _).
  { vm_compute. discriminate. }
  { vm_compute. reflexivity. }
  exists x0, x1, y0, y1. split; [vm_compute; reflexivity|].
  split; [exact Heq|]. split; [exact Henc|]. split; [exact Hw|exact Hh].
Defined.

(** X19. The bounding box of the layout of a plan with at least one agent
    starts at x = 0 and is centred on y = 0: minX = 0 and minY = - maxY; it
    is at least one node wide and one node high. *)
Theorem X19_layout_bounds (plan : AgentPlan) :
  plan_agents plan ≠ [] ->
  exists r w h,
    planToReactFlow plan = Some r /\
    calculateBounds (nodes r) =
      {| minX := Num 0; maxX := Num w; minY := Num (- h); maxY := Num h |} /\
    (NODE_WIDTH <= w)%Z /\ (NODE_HEIGHT <= 2 * h)%Z.
Proof.
  intros Hne.
  destruct (layout_nodes_are_the_agents plan) as (final & r & Hfinal & Hr & Hperm & Hall).
  rewrite Forall_forall in Hall.
  assert (Hnodes : nodes r ≠ []).
  { intros Hnil. rewrite Hnil in Hperm. cbn in Hperm.
    apply Permutation_nil_l in Hperm. done. }
  destruct (calculateBounds_encloses (nodes r) Hnodes)
    as (x0 & x1 & y0 & y1 & Heq & [Hh (a & Ha & Hax) _ (c & Hc & Hcy) (d & Hd & Hdy)] & Hw & Hht).
  assert (Hx0 : x0 = 0%Z).
  { destruct (column0_occupied plan final Hfinal Hne) as (ag & Hag & Hlevel).
    destruct (node_of_agent plan r ag Hr Hag) as (m & Hm & Hdm).
    destruct (Hall m Hm) as (Hid & _ & _ & Hx & _).
    rewrite Hid, Hdm, Hlevel in Hx.
    destruct (Hall a Ha) as (_ & _ & _ & _ & Hpos & _).
    pose proof (Hh m Hm). lia. }
  assert (Hy : (y0 + y1 = 0)%Z).
  { destruct (nodes_mirror plan r c Hr Hc) as (c' & Hc' & Hyc).
    destruct (nodes_mirror plan r d Hr Hd) as (d' & Hd' & Hyd).
    pose proof (Hh c' Hc'). pose proof (Hh d' Hd'). lia. }
  exists r, x1, y1. split; [done|]. split.
  - rewrite Heq, Hx0. do 2 f_equal. lia.
  - unfold NODE_WIDTH, NODE_HEIGHT in *. lia.
Qed.

Lemma X19_layout_bounds_witness :
  exists r, planToReactFlow weekly_report = Some r /\
    calculateBounds (nodes r) =
      {| minX := Num 0; maxX := Num 1420; minY := Num (-120); maxY := Num 120 |}.
Proof.
  destruct (X19_layout_bounds weekly_report) as (r & w & h & Hr & Hb & _).
  { vm_compute. discriminate. }
  exists r. split; [exact Hr|].
  vm_compute in Hr. injection Hr as <-. vm_compute. reflexivity.
Defined.

(** X20. Sanitizing an identifier keeps its length, leaves only letters,
    digits and underscores, changes nothing when applied again, and leaves
    an identifier unchanged exactly when it consists of such characters. *)
Theorem X20_sanitizeId_properties (id : string) :
  String.length (sanitizeId id) = String.length id /\
  allChars idChar (sanitizeId id) = true /\
  sanitizeId (sanitizeId id) = sanitizeId id /\
  (sanitizeId id = id <-> allChars idChar id = true).
Proof.
  rewrite !sanitizeId_chars.
  assert (Hfix : forall s, mapChars (fun c => if alnum c then c else "_"%char) s = s
                           <-> allChars idChar s = true).
  { intros s. rewrite mapChars_id.
    assert (Hall : allChars (fun c => Ascii.eqb (if alnum c then c else "_"%char) c) s
                   = allChars idChar s).
    { induction s as [|c s IH]; [done|]. cbn [allChars]. rewrite IH. f_equal.
      unfold idChar. destruct (alnum c) eqn:Ha; cbn [orb].
      - apply Ascii.eqb_refl.
      - apply Ascii.eqb_sym. }
    by rewrite Hall. }
  assert (Hchars : forall s,
            allChars idChar (mapChars (fun c => if alnum c then c else "_"%char) s) = true).
  { intros s. apply allChars_mapChars. intros c. unfold idChar.
    destruct (alnum c) eqn:Ha; [by rewrite Ha|]. by rewrite orb_true_r. }
  split; [apply mapChars_length|]. split; [apply Hchars|]. split; [|apply Hfix].
  apply Hfix, Hchars.
Qed.

(** X21. A truncated string has the length of the input when that is at
    most maxLength, and max(maxLength, 3) otherwise: below maxLength = 3 the
    result (three dots) is longer than maxLength.  A string that fits is
    returned unchanged; a longer one is cut to maxLength - 3 characters
    followed by three dots. *)
Theorem X21_truncate_length (str : string) (maxLength : nat) :
  String.length (truncate str maxLength) =
    (if Nat.leb (String.length str) maxLength then String.length str
     else Nat.max maxLength 3) /\
  (String.length str <= maxLength -> truncate str maxLength = str) /\
  (maxLength < String.length str ->
     truncate str maxLength = Js.take (maxLength - 3) str +:+ "...").
Proof.
  unfold truncate. destruct (Nat.leb_spec (String.length str) maxLength) as [Hle|Hgt].
  - split; [done|]. split; [done|lia].
  - split; [|split; [lia|done]].
    unfold Js.substring0. rewrite length_app_str, take_length. simpl. lia.
Qed.

(** X22. The labels the frontend exporter emits hold no double quote and
    no square bracket, for any agent name, summary and edge data: escaping
    removes every such character, keeps the length of the text, and leaves a
    text unchanged exactly when it holds none of them. *)
Theorem X22_frontend_labels_escaped (text : string) (agent : AgentNode) (edge : EdgeSpec) :
  allChars (fun c => negb (labelBreaking c)) (escapeLabel text) = true /\
  String.length (escapeLabel text) = String.length text /\
  (escapeLabel text = text <-> allChars (fun c => negb (labelBreaking c)) text = true) /\
  allChars (fun c => negb (labelBreaking c)) (clientNodeLabel agent) = true /\
  allChars (fun c => negb (labelBreaking c)) (clientEdgeLabel edge) = true.
Proof.
  destruct (escapeLabel_clean text) as (H1 & H2 & H3).
  split; [exact H1|]. split; [exact H2|]. split; [exact H3|].
  unfold clientNodeLabel, clientEdgeLabel.
  split; [destruct (escapeLabel_clean (agent_name agent +:+ "\n" +:+
                      truncate (agent_summary agent) 35)) as [H _]
         |destruct (escapeLabel_clean (underscoresToSpaces (edge_data edge))) as [H _]];
    exact H.
Qed.

(** X23. A request without template id (or with an empty one) and a
    description of at least 10 characters, every output name of which is
    read from the table's own keys, is answered with status 200, the plan of
    the planner and the warnings of the validator; these are empty when no
    canned template is selected. *)
Theorem X23_POST_description_planned (description : string) (templateId : option string) :
  10 <= String.length description ->
  templateId = None \/ templateId = Some "" ->
  forallb readsOwnKey (parseSteps description) = true ->
  exists validation,
    validatePlan (planFromDescription description) = Some validation /\
    ok validation = true /\
    (cannedFor description = None -> warnings validation = []) /\
    POST description templateId =
      Some {| reply_status := 200;
              reply_body := PlanBody (planFromDescription description)
                                     (warnings validation) |}.
Proof.
  intros Hlen Hid _.
  destruct (planner_validates description) as (r & Hr & Herr & Hok).
  exists r. split; [done|]. split; [done|]. split.
  - intros Hc. rewrite (generated_plan_validates_clean description Hc) in Hr.
    by injection Hr as <-.
  - assert (Hresp : respond (planFromDescription description) =
                    Some {| reply_status := 200;
                            reply_body := PlanBody (planFromDescription description)
                                                   (warnings r) |}).
    { unfold respond. rewrite planner_passes_schema, Hr, Hok; [done|].
      intros ->. simpl in Hlen. lia. }
    unfold POST, minLength. apply Nat.leb_le in Hlen. rewrite Hlen. cbn [negb].
    destruct Hid as [-> | ->]; exact Hresp.
Qed.

Lemma X23_POST_description_planned_witness :
  POST chainInput None =
    Some {| reply_status := 200;
            reply_body := PlanBody (planFromDescription chainInput) [] |}.
Proof.
  destruct (X23_POST_description_planned chainInput None) as (r & Hr & _ & Hw & Hpost).
  - vm_compute. lia.
  - by left.
  - vm_compute. reflexivity.
  - rewrite Hpost. rewrite Hw; [done|]. vm_compute. reflexivity.
Defined.

(** X24. A request with a non-empty template id and a description of at
    least 10 characters: for the id of a canned template the reply is status
    200 with that template, whatever the description says; for every other
    id the status is 400, with the error Unknown template unless the id is a
    name every object inherits. *)
Theorem X24_POST_template (description id : string) :
  10 <= String.length description -> id ≠ "" ->
  match getTemplate id with
  | Some plan =>
      plan ∈ [support_triage; lead_qualification; weekly_report] /\
      exists validation,
        validatePlan plan = Some validation /\
        POST description (Some id) =
          Some {| reply_status := 200; reply_body := PlanBody plan (warnings validation) |}
  | None =>
      exists reply, POST description (Some id) = Some reply /\ reply_status reply = 400 /\
        (id ∉ objectPrototypeKeys ->
         reply_body reply = ErrorBody ["Unknown template: " +:+ id] None)
  end.
Proof.
  intros Hlen Hid.
  assert (Htruthy : Js.truthy id = true) by (by destruct id).
  apply Nat.leb_le in Hlen.
  unfold POST, minLength. rewrite Hlen, Htruthy. cbn [negb].
  destruct (getTemplate id) as [plan|] eqn:Hget.
  - assert (Hmem : plan ∈ [support_triage; lead_qualification; weekly_report] /\
                   has objectPrototypeKeys id = false).
    { unfold getTemplate, CANNED_TEMPLATES in Hget.
      apply elem_of_list_to_map_2 in Hget.
      rewrite !elem_of_cons, elem_of_nil in Hget.
      destruct Hget as [[= -> ->]|[[= -> ->]|[[= -> ->]|[]]]];
        (split; [set_solver|vm_compute; reflexivity]). }
    destruct Hmem as [Hmem Hown]. split; [done|]. rewrite Hown.
    destruct (canned_valid plan Hmem) as (r & Hr & Herr & Hok).
    exists r. split; [done|]. unfold respond. rewrite Hr, Hok.
    assert (Hz : ZAgentPlan plan = true).
    { rewrite !elem_of_cons, elem_of_nil in Hmem.
      destruct Hmem as [->|[->|[->|[]]]]; vm_compute; reflexivity. }
    by rewrite Hz.
  - destruct (has objectPrototypeKeys id) eqn:Hown.
    + eexists. split; [done|]. split; [done|]. intros Hno. apply has_true in Hown. done.
    + eexists. split; [done|]. split; [done|]. done.
Qed.

Lemma X24_POST_template_witness :
  exists validation,
    validatePlan weekly_report = Some validation /\
    POST "anything at all" (Some "weekly-report") =
      Some {| reply_status := 200; reply_body := PlanBody weekly_report (warnings validation) |}.
Proof.
  pose proof (X24_POST_template "anything at all" "weekly-report") as H.
  change (getTemplate "weekly-report") with (Some weekly_report) in H.
  destruct H as [_ H]; [vm_compute; lia|done|]. exact H.
Defined.
